(** * Nomaji: album metadata updater (src/main.py)

    A shallow embedding of the reconciliation engine of main.py: the
    filename sanitiser, the disc/album grouper, the catalog matcher, the
    manual resolution channel, the structural validator and the metadata
    applier, followed by the properties of the specification.

    Modelling conventions.
    - Python text is [string].  Characters are taken in the 7-bit ASCII
      range, where the classes of the re module and of the str methods are
      the ones written in module [Py] (white space is 9-13, 28-31 and 32;
      digits are 0-9; case folding touches A-Z only).  Bytes above 127 are
      plain characters for the model: no class, no case.
    - Paths are POSIX paths (posixpath.dirname, posixpath.join).  The
      Input folder is there, with what os.walk yields for it top-down (a
      folder before its sub-folders), or missing.
    - A Python dict is an association list in insertion order.
    - The catalog (musicbrainzngs), the tag codec (mutagen), the similarity
      ratio (difflib) and the file system are external: they are the
      oracles of a [world] record.  The operator is a script of answers;
      input() at the end of the script raises EOFError.
    - Effects are an error/state/writer monad [M]: a computation consumes
      operator answers, counts the calls to the catalog, emits events
      (questions, catalog requests, messages, tag saves, renames) and ends
      normally or by raising a Python exception.
    - The while loop of main runs on fuel; [main_ends] shows that the fuel
      given is never exhausted. *)

From Stdlib Require Import String Ascii List ZArith Lia Bool Arith PeanoNat.
From Stdlib Require Import Permutation Sorted.
Import ListNotations.
Open Scope string_scope.

(* ================================================================= *)
(** ** Characters and the str methods used by the program *)

Module Py.

Definition code (c : ascii) : nat := nat_of_ascii c.

Definition in_range (lo hi : nat) (c : ascii) : bool :=
  Nat.leb lo (code c) && Nat.leb (code c) hi.

(** str.isspace on one character. *)
Definition is_space (c : ascii) : bool :=
  in_range 9 13 c || in_range 28 32 c.

(** The class \d. *)
Definition is_digit (c : ascii) : bool := in_range 48 57 c.

Definition lower_char (c : ascii) : ascii :=
  if in_range 65 90 c then ascii_of_nat (code c + 32) else c.

Definition is_empty (s : string) : bool :=
  match s with EmptyString => true | String _ _ => false end.

Fixpoint lower (s : string) : string :=
  match s with
  | EmptyString => EmptyString
  | String c r => String (lower_char c) (lower r)
  end.

Fixpoint lstrip (s : string) : string :=
  match s with
  | EmptyString => EmptyString
  | String c r => if is_space c then lstrip r else s
  end.

Fixpoint rstrip (s : string) : string :=
  match s with
  | EmptyString => EmptyString
  | String c r =>
      let r' := rstrip r in
      if is_empty r' && is_space c then EmptyString else String c r'
  end.

(** str.strip() without argument. *)
Definition strip (s : string) : string := rstrip (lstrip s).

Fixpoint all_chars (p : ascii -> bool) (s : string) : bool :=
  match s with
  | EmptyString => true
  | String c r => p c && all_chars p r
  end.

Fixpoint mem_char (c : ascii) (s : string) : bool :=
  match s with
  | EmptyString => false
  | String d r => Ascii.eqb c d || mem_char c r
  end.

(** str.isdigit(): non-empty and made of digits. *)
Definition isdigit (s : string) : bool :=
  negb (is_empty s) && all_chars is_digit s.

(** str.zfill(2) on a string without sign. *)
Definition zfill2 (s : string) : string :=
  match String.length s with
  | 0 => "00"
  | 1 => String "0" s
  | _ => s
  end.

(** str.endswith(suffix): some tail of the text is the suffix. *)
Fixpoint endswith (s suffix : string) : bool :=
  String.eqb s suffix ||
  match s with
  | EmptyString => false
  | String _ r => endswith r suffix
  end.

Fixpoint take_while (p : ascii -> bool) (s : string) : string :=
  match s with
  | EmptyString => EmptyString
  | String c r => if p c then String c (take_while p r) else EmptyString
  end.

Fixpoint drop_while (p : ascii -> bool) (s : string) : string :=
  match s with
  | EmptyString => EmptyString
  | String c r => if p c then drop_while p r else s
  end.

(** s.split(sep)[0]: the text before the first separator. *)
Definition split_head (sep : ascii) (s : string) : string :=
  take_while (fun c => negb (Ascii.eqb c sep)) s.

(** s.split(sep)[-1]: the text after the last separator. *)
Fixpoint split_last (sep : ascii) (s : string) : string :=
  match s with
  | EmptyString => EmptyString
  | String c r =>
      if mem_char sep r then split_last sep r
      else if Ascii.eqb c sep then r else s
  end.

(** posixpath.dirname: the text up to the last slash, trailing slashes
    removed unless the head is made of slashes only. *)
Fixpoint upto_last_slash (s : string) : string :=
  match s with
  | EmptyString => EmptyString
  | String c r =>
      if mem_char "/" r then String c (upto_last_slash r)
      else if Ascii.eqb c "/" then String c EmptyString else EmptyString
  end.

Fixpoint rstrip_slash (s : string) : string :=
  match s with
  | EmptyString => EmptyString
  | String c r =>
      let r' := rstrip_slash r in
      if is_empty r' && Ascii.eqb c "/" then EmptyString else String c r'
  end.

Definition dirname (p : string) : string :=
  let head := upto_last_slash p in
  if all_chars (fun c => Ascii.eqb c "/") head then head else rstrip_slash head.

(** posixpath.join of two components. *)
Definition path_join (a b : string) : string :=
  match b with
  | String "/" _ => b
  | _ =>
      if is_empty a || endswith a "/" then a ++ b
      else a ++ "/" ++ b
  end.

(** int(text): optional surrounding white space, optional sign, digits
    with single underscores between them.  [None] stands for ValueError.
    The white space int() skips is that of the C locale, 9-13 and 32: the
    separators 28-31, which str.strip() removes, make int() fail.  The
    model has no limit on the number of digits, where CPython 3.11 refuses
    more than 4300 of them (sys.int_max_str_digits): what the model
    refuses, int() refuses, and the properties that need the converse
    bound the length of the text. *)
Definition is_c_space (c : ascii) : bool := in_range 9 13 c || Ascii.eqb c " ".

Fixpoint rstrip_c_space (s : string) : string :=
  match s with
  | EmptyString => EmptyString
  | String c r =>
      let r' := rstrip_c_space r in
      if is_empty r' && is_c_space c then EmptyString else String c r'
  end.

Definition digit_val (c : ascii) : Z := Z.of_nat (code c - 48).

Fixpoint int_digits (acc : Z) (after_digit : bool) (s : string) : option Z :=
  match s with
  | EmptyString => if after_digit then Some acc else None
  | String c r =>
      if is_digit c then int_digits (10 * acc + digit_val c) true r
      else if Ascii.eqb c "_" && after_digit then
        match r with
        | String d _ => if is_digit d then int_digits acc false r else None
        | EmptyString => None
        end
      else None
  end.

Definition int (s : string) : option Z :=
  match rstrip_c_space (drop_while is_c_space s) with
  | String "+" r => int_digits 0 false r
  | String "-" r => option_map Z.opp (int_digits 0 false r)
  | t => int_digits 0 false t
  end.

End Py.

(* ================================================================= *)
(** ** Dictionaries in insertion order *)

Module Dict.

Section Defs.
Context {V : Type}.

Definition t := list (string * V).

Fixpoint get (k : string) (d : t) : option V :=
  match d with
  | [] => None
  | (k', v) :: r => if String.eqb k k' then Some v else get k r
  end.

(** d[k] = v: an existing key keeps its place, a new key goes last. *)
Fixpoint set (k : string) (v : V) (d : t) : t :=
  match d with
  | [] => [(k, v)]
  | (k', v') :: r =>
      if String.eqb k k' then (k, v) :: r else (k', v') :: set k v r
  end.

Definition keys (d : t) : list string := map fst d.

End Defs.

Arguments t V : clear implicits.

End Dict.

(* ================================================================= *)
(** ** clean_file_name *)

Definition dquote : ascii := ascii_of_nat 34.
Definition backslash : ascii := ascii_of_nat 92.

(** The dict [replacements] of clean_file_name. *)
Definition replacements : list (ascii * string) :=
  [ ("<"%char, "("); (">"%char, ")"); (":"%char, "-"); (dquote, "'");
    ("/"%char, "-"); (backslash, "-"); ("|"%char, "-");
    ("?"%char, EmptyString); ("*"%char, EmptyString) ].

(** replacements.get(key, default). *)
Fixpoint replacements_get (d : list (ascii * string)) (key : ascii)
  (default : string) : string :=
  match d with
  | [] => default
  | (k, v) :: r => if Ascii.eqb key k then v else replacements_get r key default
  end.

(** The character class of the pattern given to re.sub. *)
Definition unsafe_class : list ascii :=
  [ "<"; ">"; ":"; dquote; "/"; backslash; "|"; "?"; "*" ]%char.

Definition is_unsafe (c : ascii) : bool := existsb (Ascii.eqb c) unsafe_class.

(** re.sub(class, lambda match: replacements.get(match.group(0), "_"), text):
    every character of the class is a match of length one. *)
Fixpoint sub_unsafe (file_name : string) : string :=
  match file_name with
  | EmptyString => EmptyString
  | String c r =>
      if is_unsafe c then replacements_get replacements c "_" ++ sub_unsafe r
      else String c (sub_unsafe r)
  end.

Definition clean_file_name (file_name : string) : string :=
  Py.strip (sub_unsafe file_name).

(* ================================================================= *)
(** ** The two disc patterns of group_tracks_by_album *)

Module Re.

(** A literal matched at the head of the text; with [ignorecase] the text
    is compared after case folding (the literals below have no upper-case
    letter once folded).  The result is the text after the literal. *)
Fixpoint literal (ignorecase : bool) (lit s : string) : option string :=
  match lit, s with
  | EmptyString, _ => Some s
  | String _ _, EmptyString => None
  | String p lit', String c s' =>
      let same :=
        if ignorecase then Ascii.eqb (Py.lower_char c) (Py.lower_char p)
        else Ascii.eqb c p in
      if same then literal ignorecase lit' s' else None
  end.

(** re.search: the first position, from the left, where the pattern
    matches. *)
Fixpoint search {A : Type} (match_at : string -> option A) (s : string)
  : option A :=
  match match_at s with
  | Some r => Some r
  | None =>
      match s with
      | EmptyString => None
      | String _ s' => search match_at s'
      end
  end.

(** disc_regex = (Disc|CD)\s*(\d+) with IGNORECASE, matched at the head;
    the result is group 2.  Greedy \s* and \d+ never give back a character:
    the two classes are disjoint and nothing follows \d+. *)
Definition disc_regex_at (s : string) : option string :=
  let after_word :=
    match literal true "Disc" s with
    | Some r => Some r
    | None => literal true "CD" s
    end in
  match after_word with
  | None => None
  | Some r =>
      let digits := Py.take_while Py.is_digit (Py.drop_while Py.is_space r) in
      if Py.is_empty digits then None else Some digits
  end.

Definition disc_regex_search (file_path : string) : option string :=
  search disc_regex_at file_path.

Definition opt_char (cs : list ascii) (s : string) : string :=
  match s with
  | String c r => if existsb (Ascii.eqb c) cs then r else s
  | EmptyString => s
  end.

(** pattern = (\s*(\(|\[)?Disc (\d+)(\)|\])?) matched at the head: the
    result is group 3 and the text after the match. *)
Definition album_pattern_at (ignorecase : bool) (s : string)
  : option (string * string) :=
  let s1 := Py.drop_while Py.is_space s in
  let s2 := opt_char ["("; "["]%char s1 in
  match literal ignorecase "Disc " s2 with
  | None => None
  | Some r =>
      let digits := Py.take_while Py.is_digit r in
      if Py.is_empty digits then None
      else Some (digits, opt_char [")"; "]"]%char (Py.drop_while Py.is_digit r))
  end.

(** re.search(pattern, album, re.IGNORECASE).group(3) *)
Definition album_pattern_search (album : string) : option string :=
  search (fun s => option_map fst (album_pattern_at true s)) album.

(** re.sub of the pattern by the empty string in album: called without
    flags, hence case sensitive.  Matches are removed from left to right;
    [skip] counts the characters of the current match still to drop. *)
Fixpoint album_pattern_sub_from (skip : nat) (s : string) : string :=
  match s with
  | EmptyString => EmptyString
  | String c s' =>
      match skip with
      | S k => album_pattern_sub_from k s'
      | O =>
          match album_pattern_at false s with
          | Some (_, rest) =>
              album_pattern_sub_from (String.length s' - String.length rest) s'
          | None => String c (album_pattern_sub_from 0 s')
          end
      end
  end.

Definition album_pattern_sub (album : string) : string :=
  album_pattern_sub_from 0 album.

End Re.

(* ================================================================= *)
(** ** gather_all_files and group_tracks_by_album *)

(** A tag object: key to list of values, as mutagen gives them. *)
Definition audio := string -> option (list string).

Definition has_audio_extension (file : string) : bool :=
  Py.endswith file ".mp3" || Py.endswith file ".flac" || Py.endswith file ".wav".

(** os.walk yields (root, files); the filter is on the file name. *)
Definition gather_all_files (walk : list (string * list string)) : list string :=
  flat_map (fun '(root, files) =>
              map (Py.path_join root) (filter has_audio_extension files)) walk.

Definition albums_t := Dict.t (Dict.t (list string)).

Section Grouper.

(** EasyID3(path) / FLAC(path): [None] when the constructor raises. *)
Variable open_audio : string -> option audio.

(** What the body of the loop does with one file before bucketing. *)
Inductive tag_read :=
| AlbumTag (album : string)
| Unsupported           (* the else branch: warning, continue *)
| ReadFailed.           (* the except clause: error, next file *)

Definition read_album_tag (file_path : string) : tag_read :=
  if Py.endswith file_path ".mp3" || Py.endswith file_path ".flac" then
    match open_audio file_path with
    | None => ReadFailed
    | Some tags =>
        match (match tags "album" with
               | Some l => l
               | None => ["Unknown Album"]
               end) with
        | a :: _ => AlbumTag a
        | [] => ReadFailed      (* IndexError on [0] *)
        end
    end
  else Unsupported.

(** Lines 70-80: the album key and the disc number of a file. *)
Definition album_and_disc (file_path album : string) : string * string :=
  let disc_number :=
    match Re.disc_regex_search file_path with
    | Some d => d
    | None => "1"
    end in
  match Re.album_pattern_search album with
  | Some d => (Py.strip (Re.album_pattern_sub album), d)
  | None => (album, disc_number)
  end.

(** The bucket key of a file, when it gets one. *)
Definition bucket_of (file_path : string) : option (string * string) :=
  match read_album_tag file_path with
  | AlbumTag album => Some (album_and_disc file_path album)
  | _ => None
  end.

Definition add_file (albums : albums_t) (file_path : string) : albums_t :=
  match bucket_of file_path with
  | None => albums
  | Some (album, disc_number) =>
      let discs :=
        match Dict.get album albums with Some d => d | None => [] end in
      let files :=
        match Dict.get disc_number discs with Some f => f | None => [] end in
      Dict.set album (Dict.set disc_number (files ++ [file_path])%list discs) albums
  end.

Definition group_tracks_by_album (file_paths : list string) : albums_t :=
  fold_left add_file file_paths [].

(** albums[album][disc], the empty list when there is no such bucket. *)
Definition bucket (albums : albums_t) (album disc : string) : list string :=
  match Dict.get album albums with
  | None => []
  | Some discs =>
      match Dict.get disc discs with Some f => f | None => [] end
  end.

End Grouper.

(* ================================================================= *)
(** ** Catalog records, as the dicts of musicbrainzngs are read by main *)

(** An artist-credit list: each entry may or may not carry an artist
    name; the key itself may be absent. *)
Definition artist_credit := option (list (option string)).

Record candidate := {
  c_id : option string;
  c_title : option string;
  c_artist_credit : artist_credit
}.

(** A track: its position, and the title and artist-credit of its
    recording. *)
Record track := {
  t_position : option string;
  t_title : option string;
  t_artist_credit : artist_credit
}.

Record medium := {
  m_position : option string;
  m_track_list : list track
}.

(** The release of a full_details dict: the title of its release-group,
    its date and its medium-list. *)
Record release := {
  r_group_title : option string;
  r_date : option string;
  r_medium_list : list medium
}.

(** The dict appended to media[medium_number] (lines 312-318). *)
Record track_metadata := {
  title : string;
  artist : string;
  album : string;
  date : string;
  tracknumber : string
}.

Definition media_t := Dict.t (list track_metadata).
Definition discs_t := Dict.t (list string).

(* ================================================================= *)
(** ** Exceptions, events and the monad of effects *)

Inductive exn :=
| EOFError
| IndexError
| KeyError
| ValueError
| AttributeError
| UnboundLocalError
| ResponseError      (* musicbrainzngs: a WebServiceError *)
| NetworkError       (* musicbrainzngs: a WebServiceError *)
| MutagenError       (* the tag codec failed *)
| OSError.           (* save or rename failed *)

Definition is_web_service_error (e : exn) : bool :=
  match e with ResponseError | NetworkError => true | _ => false end.

Inductive res (A : Type) :=
| Val (a : A)
| Exn (e : exn).
Arguments Val {A} a.
Arguments Exn {A} e.

Definition res_bind {A B} (r : res A) (f : A -> res B) : res B :=
  match r with Val a => f a | Exn e => Exn e end.

Fixpoint res_map {A B} (f : A -> res B) (l : list A) : res (list B) :=
  match l with
  | [] => Val []
  | x :: r =>
      res_bind (f x) (fun y => res_bind (res_map f r) (fun ys => Val (y :: ys)))
  end.

Inductive prompt :=
| PromptStart
| PromptClose (release_title : option string) (release_artist : string)
| PromptManual
| PromptRetry
| PromptEnd.

(** The messages printed by main, group_tracks_by_album, manual_input,
    update_metadata and the two catalog helpers.  Lines 65 and 132 print
    the same warning, [WarnUnsupported]. *)
Inductive message :=
| InfoCreatingFolder
| ErrReadMetadata (file : string)
| ErrQueryFailed
| ErrFetchFailed (release_id : option string)
| ErrFetchFailedManual
| InfoManualMatch (release_title : option string) (release_artist : string)
| InfoProcessing (album_name : string)
| WarnNoDiscs (album_name : string)
| WarnNoFiles (disc album_name : string)
| WarnUnsupportedFirst (file : string)
| WarnArtist
| InfoExact (release_title : option string) (release_artist : string)
| InfoNoMatch (album_name : string) (artist_name : option string)
| WarnDiscCount
| WarnTrackCount (disc : string) (tracks files : nat)
| WarnUnsupported (file : string)
| DebugMetadata (m : track_metadata)
| InfoSkipAlbumTag (file : string)
| WarnInvalidTrackNumber (tracknumber : string)
| ErrUpdateFailed (file : string).

(** The tags written by audio.save(): the album and the date are set only
    under their conditions. *)
Record saved_tags := {
  s_title : string;
  s_artist : string;
  s_album : option string;
  s_tracknumber : string;
  s_date : option string
}.

Inductive event :=
| Asked (p : prompt) (answer : string)
| Searched (album_name : string) (artist_name : option string)
| Fetching (release_id : option string)
| Logged (m : message)
| TagsSaved (file : string) (tags : saved_tags)
| Renamed (old_path new_path : string).

(** The operator answers still to come and the number of catalog calls
    made so far. *)
Record state := {
  answers : list string;
  calls : nat
}.

Inductive outcome (A : Type) :=
| Ok (a : A)
| Raised (e : exn)
| OutOfFuel.
Arguments Ok {A} a.
Arguments Raised {A} e.
Arguments OutOfFuel {A}.

Definition M (A : Type) : Type := state -> outcome A * list event * state.

Definition ret {A} (a : A) : M A := fun s => (Ok a, [], s).

Definition bind {A B} (m : M A) (f : A -> M B) : M B :=
  fun s =>
    match m s with
    | (Ok a, ev, s1) =>
        match f a s1 with
        | (r, ev', s2) => (r, (ev ++ ev')%list, s2)
        end
    | (Raised e, ev, s1) => (Raised e, ev, s1)
    | (OutOfFuel, ev, s1) => (OutOfFuel, ev, s1)
    end.

Notation "x <- m ;; k" := (bind m (fun x => k))
  (at level 61, m at next level, right associativity).
Notation "m ;;; k" := (bind m (fun _ => k))
  (at level 61, right associativity).

Definition raise {A} (e : exn) : M A := fun s => (Raised e, [], s).

Definition emit (e : event) : M unit := fun s => (Ok tt, [e], s).

Definition log (m : message) : M unit := emit (Logged m).

Definition lift {A} (r : res A) : M A :=
  match r with Val a => ret a | Exn e => raise e end.

(** try: m except: handler.  What happened before the raise stays. *)
Definition catch {A} (m : M A) (handler : exn -> M A) : M A :=
  fun s =>
    match m s with
    | (Raised e, ev, s1) =>
        match handler e s1 with
        | (r, ev', s2) => (r, (ev ++ ev')%list, s2)
        end
    | other => other
    end.

(** input(prompt): the next answer of the operator; EOFError at the end of
    the script. *)
Definition input (p : prompt) : M string :=
  fun s =>
    match answers s with
    | [] => (Raised EOFError, [], s)
    | a :: rest => (Ok a, [Asked p a], {| answers := rest; calls := calls s |})
    end.

(** A loop that needs fuel gets more than it can use: every turn of the
    validation loop consumes an answer. *)
Definition with_fuel {A} (k : nat -> M A) : M A :=
  fun s => k (S (List.length (answers s))) s.

(* ================================================================= *)
(** ** The external world *)

Inductive search_reply :=
| Found (release_list : list candidate)
| SearchFailed                       (* a WebServiceError *)
| QueryRefused.                      (* ValueError: the query has no term *)

Inductive fetch_reply :=
| Release (r : release)
| FailsWithResponseError
| FailsWithNetworkError.

(** The Input folder as main finds it: there, with what os.walk yields
    for it (top-down: a folder comes before its sub-folders), or missing;
    then os.makedirs succeeds or not. *)
Inductive input_folder :=
| Present (walk : list (string * list string))
| Missing (makedirs_ok : bool).

Record world := {
  (** musicbrainzngs.search_releases, at the n-th call to the catalog *)
  search_releases : nat -> string -> option string -> search_reply;
  (** musicbrainzngs.get_release_by_id, at the n-th call; a failure is a
      ResponseError or a NetworkError *)
  get_release_by_id : nat -> option string -> fetch_reply;
  (** SequenceMatcher(None, a, b).ratio() >= 0.8 *)
  ratio_ge_threshold : string -> string -> bool;
  (** EasyID3(path) / FLAC(path) *)
  open_audio : string -> option audio;
  (** audio.save() succeeds *)
  save_ok : string -> bool;
  (** os.rename(old, new) succeeds *)
  rename_ok : string -> string -> bool
}.

(* ================================================================= *)
(** ** The program *)

Section Program.

Variable w : world.

(** is_valid_release_id: 8-4-4-4-12 groups of [a-f0-9] on the stripped
    input. *)
Definition is_hex (c : ascii) : bool :=
  Py.in_range 48 57 c || Py.in_range 97 102 c.

Fixpoint hex_group (n : nat) (s : string) : option string :=
  match n with
  | O => Some s
  | S k =>
      match s with
      | String c r => if is_hex c then hex_group k r else None
      | EmptyString => None
      end
  end.

Definition hex_group_dash (n : nat) (s : string) : option string :=
  match hex_group n s with
  | Some (String "-" r) => Some r
  | _ => None
  end.

Definition is_valid_release_id (input_str : string) : bool :=
  match hex_group_dash 8 (Py.strip input_str) with
  | None => false
  | Some s1 =>
      match hex_group_dash 4 s1 with
      | None => false
      | Some s2 =>
          match hex_group_dash 4 s2 with
          | None => false
          | Some s3 =>
              match hex_group_dash 4 s3 with
              | None => false
              | Some s4 =>
                  match hex_group 12 s4 with
                  | Some rest => Py.is_empty rest
                  | None => false
                  end
              end
          end
      end
  end.

(** The two calls to the catalog.  search_releases builds its query from
    the texts it is given and raises ValueError, which is no
    WebServiceError, when they leave no term.  An absent artist is sent as
    the text None, which is a term: only a search with an artist text can
    be refused, and the refusal a world gives to a search without artist
    is read as a failed request. *)
Definition call_search (album_name : string) (artist_name : option string)
  : M search_reply :=
  fun s =>
    (Ok (match search_releases w (calls s) album_name artist_name, artist_name with
         | QueryRefused, None => SearchFailed
         | reply, _ => reply
         end),
     [Searched album_name artist_name],
     {| answers := answers s; calls := S (calls s) |}).

Definition call_get_release_by_id (release_id : option string) : M release :=
  fun s =>
    let s' := {| answers := answers s; calls := S (calls s) |} in
    match get_release_by_id w (calls s) release_id with
    | Release r => (Ok r, [Fetching release_id], s')
    | FailsWithResponseError => (Raised ResponseError, [Fetching release_id], s')
    | FailsWithNetworkError => (Raised NetworkError, [Fetching release_id], s')
    end.

Definition find_album_on_musicbrainz (album_name : string)
  (artist_name : option string) : M (list candidate) :=
  r <- call_search album_name artist_name ;;
  match r with
  | Found release_list => ret release_list
  | SearchFailed => log ErrQueryFailed ;;; ret []
  | QueryRefused => raise ValueError
  end.

Definition fetch_full_release_details (release_id : option string)
  : M (option release) :=
  catch (r <- call_get_release_by_id release_id ;; ret (Some r))
        (fun e =>
           if is_web_service_error e
           then log (ErrFetchFailed release_id) ;;; ret None
           else raise e).

(** x.get("artist-credit", [{}])[0].get("artist", {}).get("name", "Unknown") *)
Definition first_artist_name (credit : artist_credit) : res string :=
  match credit with
  | None => Val "Unknown"
  | Some [] => Exn IndexError
  | Some (None :: _) => Val "Unknown"
  | Some (Some name :: _) => Val name
  end.

(** is_close_match(name1, name2): name2 may be None, whose .lower()
    raises. *)
Definition is_close_match (name1 : string) (name2 : option string) : res bool :=
  match name2 with
  | None => Exn AttributeError
  | Some n2 => Val (ratio_ge_threshold w (Py.lower name1) (Py.lower n2))
  end.

Definition manual_input : M (option release) :=
  a <- input PromptManual ;;
  let user_input := Py.strip a in
  if negb (Py.is_empty user_input) then
    if is_valid_release_id user_input then
      catch (full_details <- call_get_release_by_id (Some user_input) ;;
             ret (Some full_details))
            (fun e =>
               match e with
               | ResponseError =>
                   log ErrFetchFailedManual ;;;
                   a' <- input PromptRetry ;;
                   let retry := Py.lower (Py.strip a') in
                   if negb (String.eqb retry "y") then ret None
                   else ret None          (* falls off the end of the function *)
               | _ => raise e
               end)
    else
      matches <- find_album_on_musicbrainz user_input None ;;
      match matches with
      | selected_release :: _ =>
          let release_id := c_id selected_release in
          release_artist <- lift (first_artist_name (c_artist_credit selected_release)) ;;
          catch (full_details <- fetch_full_release_details release_id ;;
                 log (InfoManualMatch (c_title selected_release) release_artist) ;;;
                 ret full_details)
                (fun e =>
                   match e with
                   | ResponseError =>
                       log ErrFetchFailedManual ;;;
                       a' <- input PromptRetry ;;
                       let retry := Py.lower (Py.strip a') in
                       if negb (String.eqb retry "y") then ret None
                       else raise UnboundLocalError   (* return full_details *)
                   | _ => raise e
                   end)
      | [] => ret None                     (* falls off the end of the function *)
      end
  else ret None.

(* ----------------------------------------------------------------- *)
(** *** update_metadata *)

(** The key of the sort: int(tracknumber.split("/")[0]). *)
Definition sort_key (x : string * track_metadata) : res Z :=
  match Py.int (Py.split_head "/" (tracknumber (snd x))) with
  | Some z => Val z
  | None => Exn ValueError
  end.

Fixpoint insert_by_key {X : Type} (x : Z * X) (l : list (Z * X)) : list (Z * X) :=
  match l with
  | [] => [x]
  | y :: r =>
      if (fst y <? fst x)%Z then y :: insert_by_key x r else x :: y :: r
  end.

(** sorted(pairs, key=...): the keys are computed first, for every pair
    and in order; the sort is stable. *)
Definition sorted_by_key {X : Type} (key : X -> res Z) (l : list X) : res (list X) :=
  res_bind (res_map (fun x => res_bind (key x) (fun k => Val (k, x))) l)
           (fun keyed => Val (map snd (fold_right insert_by_key [] keyed))).

(** The file name track number (lines 168-173); the flag tells whether
    the text was invalid. *)
Definition track_num_of (tracknumber : string) : string * bool :=
  let track_num := Py.split_head "/" tracknumber in
  if Py.isdigit track_num then (Py.zfill2 track_num, false) else ("00", true).

Definition new_file_path_of (file_path track_num title : string) : string :=
  let base_name := clean_file_name (track_num ++ " - " ++ title) in
  let ext := Py.split_last "." file_path in
  Py.path_join (Py.dirname file_path) (base_name ++ "." ++ ext).

Definition tags_of (metadata : track_metadata) : saved_tags :=
  {| s_title := title metadata;
     s_artist := artist metadata;
     s_album := if String.eqb (album metadata) "Unknown Album" then None
                else Some (album metadata);
     s_tracknumber := tracknumber metadata;
     s_date := if Py.is_empty (date metadata) then None
               else Some (date metadata) |}.

(** The body of the loop over the sorted pairs, with its try/except. *)
Definition update_file (file_path : string) (metadata : track_metadata) : M unit :=
  catch
    (if Py.endswith file_path ".mp3" || Py.endswith file_path ".flac" then
       match open_audio w file_path with
       | None => raise MutagenError
       | Some _ =>
           log (DebugMetadata metadata) ;;;
           (if String.eqb (album metadata) "Unknown Album"
            then log (InfoSkipAlbumTag file_path) else ret tt) ;;;
           (if save_ok w file_path
            then emit (TagsSaved file_path (tags_of metadata))
            else raise OSError) ;;;
           let '(track_num, invalid) := track_num_of (tracknumber metadata) in
           (if invalid
            then log (WarnInvalidTrackNumber (tracknumber metadata)) else ret tt) ;;;
           let new_file_path :=
             new_file_path_of file_path track_num (title metadata) in
           if negb (String.eqb file_path new_file_path) then
             if rename_ok w file_path new_file_path
             then emit (Renamed file_path new_file_path)
             else raise OSError
           else ret tt
       end
     else log (WarnUnsupported file_path))
    (fun _ => log (ErrUpdateFailed file_path)).

Fixpoint update_files (pairs : list (string * track_metadata)) : M unit :=
  match pairs with
  | [] => ret tt
  | (file_path, metadata) :: rest =>
      update_file file_path metadata ;;; update_files rest
  end.

Definition update_metadata (file_paths : list string)
  (track_metadata_list : list track_metadata) : M unit :=
  sorted_tracks <- lift (sorted_by_key sort_key (combine file_paths track_metadata_list)) ;;
  update_files sorted_tracks.

(* ----------------------------------------------------------------- *)
(** *** The validation loop of main (lines 300-336) *)

Definition or_default (d : string) (o : option string) : string :=
  match o with Some x => x | None => d end.

Definition track_entry (album_name date_text : string) (t : track)
  : res track_metadata :=
  res_bind (first_artist_name (t_artist_credit t)) (fun artist_name =>
  Val {| title := or_default "Unknown" (t_title t);
         artist := artist_name;
         album := album_name;
         date := date_text;
         tracknumber := or_default "0" (t_position t) |}).

Inductive verdict :=
| Accepted (media : media_t)
| DiscCountMismatch
| TrackCountMismatch (medium_number : string) (tracks files : nat).

Definition media_tracks (medium_number : string) (media : media_t)
  : list track_metadata :=
  match Dict.get medium_number media with Some l => l | None => [] end.

(** The loop over the medium-list: each medium is added to [media], then
    the two checks run; the first failed check ends the loop. *)
Fixpoint scan_media (discs : discs_t) (album_name date_text : string)
  (medium_list : list medium) (media : media_t) : res verdict :=
  match medium_list with
  | [] => Val (Accepted media)
  | m :: rest =>
      let medium_number := or_default "1" (m_position m) in
      res_bind (res_map (track_entry album_name date_text) (m_track_list m))
        (fun entries =>
           let media' :=
             Dict.set medium_number
               (media_tracks medium_number media ++ entries)%list media in
           if Nat.ltb (List.length discs) (List.length media')
           then Val DiscCountMismatch
           else
             match Dict.get medium_number discs with
             | None => Exn KeyError
             | Some files =>
                 let n := List.length (media_tracks medium_number media') in
                 if negb (Nat.eqb n (List.length files))
                 then Val (TrackCountMismatch medium_number n (List.length files))
                 else scan_media discs album_name date_text rest media'
             end)
  end.

Definition validate (discs : discs_t) (r : release) : res verdict :=
  scan_media discs (or_default "Unknown Album" (r_group_title r))
             (or_default EmptyString (r_date r)) (r_medium_list r) [].

(** while full_details: ... else: break.  [None] is the else branch (the
    album is abandoned), [Some media] the break of line 333. *)
Fixpoint validation_loop (fuel : nat) (discs : discs_t)
  (full_details : option release) : M (option media_t) :=
  match fuel with
  | O => fun s => (OutOfFuel, [], s)
  | S fuel' =>
      match full_details with
      | None => ret None
      | Some r =>
          v <- lift (validate discs r) ;;
          match v with
          | Accepted media => ret (Some media)
          | DiscCountMismatch =>
              log WarnDiscCount ;;;
              full_details' <- manual_input ;;
              validation_loop fuel' discs full_details'
          | TrackCountMismatch medium_number n k =>
              log (WarnTrackCount medium_number n k) ;;;
              full_details' <- manual_input ;;
              validation_loop fuel' discs full_details'
          end
      end
  end.

(** for medium_number, track_metadata in media.items(): update_metadata *)
Fixpoint apply_media (discs : discs_t) (media : media_t) : M unit :=
  match media with
  | [] => ret tt
  | (medium_number, track_metadata_list) :: rest =>
      match Dict.get medium_number discs with
      | None => raise KeyError
      | Some files =>
          update_metadata files track_metadata_list ;;;
          apply_media discs rest
      end
  end.

(* ----------------------------------------------------------------- *)
(** *** main *)

Definition option_string_eqb (a b : option string) : bool :=
  match a, b with
  | Some x, Some y => String.eqb x y
  | None, None => true
  | _, _ => false
  end.

Inductive control := Break | NextIteration.

(** Lines 280-298: the tier of the candidate and the release it leads to. *)
Definition resolve_candidate (album_name : string) (artist_name : option string)
  (m : candidate) : M (option release) :=
  let release_id := c_id m in
  let release_title := c_title m in
  release_artist <- lift (first_artist_name (c_artist_credit m)) ;;
  if option_string_eqb (Some album_name) release_title
     && option_string_eqb artist_name (Some release_artist)
  then
    log (InfoExact release_title release_artist) ;;;
    fetch_full_release_details release_id
  else
    close <- lift (is_close_match album_name release_title) ;;
    if close then
      a <- input (PromptClose release_title release_artist) ;;
      let user_input := Py.lower (Py.strip a) in
      if String.eqb user_input "y"
      then fetch_full_release_details release_id
      else manual_input
    else
      log (InfoNoMatch album_name artist_name) ;;;
      manual_input.

(** The body of the loop over the matches (lines 280-341). *)
Definition match_body (discs : discs_t) (album_name : string)
  (artist_name : option string) (m : candidate) : M control :=
  full_details <- resolve_candidate album_name artist_name m ;;
  accepted <- with_fuel (fun fuel => validation_loop fuel discs full_details) ;;
  match accepted with
  | None => ret Break
  | Some media => apply_media discs media ;;; ret Break
  end.

Fixpoint for_matches (discs : discs_t) (album_name : string)
  (artist_name : option string) (matches : list candidate) : M unit :=
  match matches with
  | [] => ret tt
  | m :: rest =>
      c <- match_body discs album_name artist_name m ;;
      match c with
      | Break => ret tt
      | NextIteration => for_matches discs album_name artist_name rest
      end
  end.

Inductive artist_read :=
| SkipAlbum                       (* a continue of the outer loop *)
| Artist (artist_name : option string).

(** Lines 248-275. *)
Definition local_artist (album_name : string) (discs : discs_t) : M artist_read :=
  match discs with
  | [] => log (WarnNoDiscs album_name) ;;; ret SkipAlbum
  | (first_disc_key, files) :: _ =>
      if Py.is_empty first_disc_key
      then log (WarnNoDiscs album_name) ;;; ret SkipAlbum
      else
        match files with
        | [] => log (WarnNoFiles first_disc_key album_name) ;;; ret SkipAlbum
        | first_file :: _ =>
            if Py.is_empty first_file
            then log (WarnNoFiles first_disc_key album_name) ;;; ret SkipAlbum
            else if Py.endswith first_file ".mp3" || Py.endswith first_file ".flac"
            then
              match open_audio w first_file with
              | None => log WarnArtist ;;; ret (Artist None)
              | Some tags =>
                  match tags "artist" with
                  | None => ret (Artist None)
                  | Some [] => log WarnArtist ;;; ret (Artist None)
                  | Some (a :: _) => ret (Artist (Some a))
                  end
              end
            else log (WarnUnsupportedFirst first_file) ;;; ret SkipAlbum
        end
  end.

(** One turn of the loop over albums.items(). *)
Definition process_album (album_name : string) (discs : discs_t) : M unit :=
  log (InfoProcessing album_name) ;;;
  a <- local_artist album_name discs ;;
  match a with
  | SkipAlbum => ret tt
  | Artist artist_name =>
      matches <- find_album_on_musicbrainz album_name artist_name ;;
      for_matches discs album_name artist_name matches
  end.

Fixpoint process_albums (albums : albums_t) : M unit :=
  match albums with
  | [] => ret tt
  | (album_name, discs) :: rest =>
      process_album album_name discs ;;; process_albums rest
  end.

(** group_tracks_by_album with its messages: the warning of line 65 for
    a file of another type, the error of line 91 for a file whose tags
    cannot be read.  The albums built are those of the pure grouper (see
    [group_files_run]). *)
Definition group_file (albums : albums_t) (file_path : string) : M albums_t :=
  match read_album_tag (open_audio w) file_path with
  | AlbumTag _ => ret (add_file (open_audio w) albums file_path)
  | Unsupported => log (WarnUnsupported file_path) ;;; ret albums
  | ReadFailed => log (ErrReadMetadata file_path) ;;; ret albums
  end.

Fixpoint group_files (albums : albums_t) (file_paths : list string)
  : M albums_t :=
  match file_paths with
  | [] => ret albums
  | file_path :: rest =>
      albums' <- group_file albums file_path ;;
      group_files albums' rest
  end.

(** Lines 239-242: the Input folder is walked; when it is missing it is
    announced and created, os.makedirs raising OSError when it cannot,
    and the walk of the new folder has no file. *)
Definition walk_input (folder : input_folder) : M (list (string * list string)) :=
  match folder with
  | Present walk => ret walk
  | Missing makedirs_ok =>
      log InfoCreatingFolder ;;;
      if makedirs_ok then ret [] else raise OSError
  end.

Definition main (folder : input_folder) : M unit :=
  input PromptStart ;;;
  walk <- walk_input folder ;;
  let all_files := gather_all_files walk in
  albums <- group_files [] all_files ;;
  process_albums albums ;;;
  input PromptEnd ;;;
  ret tt.

End Program.

(* ================================================================= *)
(** ** What the specification says, where it is compared with the code *)

(** Sanitisation as the specification words it: each character of the
    unsafe set goes through the fixed table, every other character is
    kept. *)
Module SanitizeSpec.

Definition fixed_table (c : ascii) : string :=
  if Ascii.eqb c "<" then "("
  else if Ascii.eqb c ">" then ")"
  else if Ascii.eqb c ":" then "-"
  else if Ascii.eqb c dquote then "'"
  else if Ascii.eqb c "/" then "-"
  else if Ascii.eqb c backslash then "-"
  else if Ascii.eqb c "|" then "-"
  else if Ascii.eqb c "?" then EmptyString
  else if Ascii.eqb c "*" then EmptyString
  else String c EmptyString.

Fixpoint sanitize (s : string) : string :=
  match s with
  | EmptyString => EmptyString
  | String c r => fixed_table c ++ sanitize r
  end.

End SanitizeSpec.

(** Disc resolution as the specification words it: a marker is an
    optional bracket, Disc or CD, digits, an optional bracket; the album
    tag is looked at first, then the path, then the default. *)
Module DiscSpec.

Definition marker_at (s : string) : option string :=
  let s1 := Re.opt_char ["("; "["]%char s in
  let after_word :=
    match Re.literal true "Disc" s1 with
    | Some r => Some r
    | None => Re.literal true "CD" s1
    end in
  match after_word with
  | None => None
  | Some r =>
      let digits := Py.take_while Py.is_digit (Py.drop_while Py.is_space r) in
      if Py.is_empty digits then None else Some digits
  end.

Definition disc_number (file_path album : string) : string :=
  match Re.search marker_at album with
  | Some d => d
  | None =>
      match Re.search marker_at file_path with
      | Some d => d
      | None => "1"
      end
  end.

End DiscSpec.



(** The keys of the albums, and of the discs of every album, are
    distinct: each entry of the grouping is a bucket found by its keys. *)
Definition well_keyed (albums : albums_t) : Prop :=
  NoDup (Dict.keys albums)
  /\ forall a discs, In (a, discs) albums -> NoDup (Dict.keys discs).

(** Membership of a file in a bucket, as a boolean. *)
Definition in_bucket (open_audio : string -> option audio)
  (album disc file_path : string) : bool :=
  match bucket_of open_audio file_path with
  | Some (a, d) => String.eqb a album && String.eqb d disc
  | None => false
  end.

(** Events that change a file. *)
Definition is_write (e : event) : bool :=
  match e with
  | TagsSaved _ _ | Renamed _ _ => true
  | _ => false
  end.

Definition is_asked (e : event) : bool :=
  match e with Asked _ _ => true | _ => false end.

(** An empty answer (once stripped) at a prompt of manual_input. *)
Definition is_abandon (e : event) : bool :=
  match e with
  | Asked PromptManual a | Asked PromptRetry a => Py.is_empty (Py.strip a)
  | _ => false
  end.

Definition no_writes (ev : list event) : Prop :=
  forallb (fun e => negb (is_write e)) ev = true.

Definition abandoned (ev : list event) : Prop :=
  existsb is_abandon ev = true.

(** The last event satisfies [P]. *)
Fixpoint ends_with (P : event -> bool) (ev : list event) : bool :=
  match ev with
  | [] => false
  | e :: tl => match tl with [] => P e | _ :: _ => ends_with P tl end
  end.

Definition ends_with_abandon (ev : list event) : Prop :=
  ends_with is_abandon ev = true.

(** The first event, if any, is the answer to the prompt of manual_input. *)
Definition manual_head (ev : list event) : bool :=
  match ev with
  | [] => true
  | Asked PromptManual _ :: _ => true
  | _ :: _ => false
  end.

(** The first contact with the outside: a question to the operator or a
    request for a full release, whichever comes first. *)
Fixpoint first_contact (ev : list event) : option event :=
  match ev with
  | [] => None
  | Asked p a :: _ => Some (Asked p a)
  | Fetching release_id :: _ => Some (Fetching release_id)
  | _ :: tl => first_contact tl
  end.

(** The candidate is accepted on its own: its full release is requested
    before the operator has been asked anything. *)
Definition auto_accepted (ev : list event) : bool :=
  match first_contact ev with
  | Some (Fetching _) => true
  | _ => false
  end.

Definition is_retry_prompt (e : event) : bool :=
  match e with Asked PromptRetry _ => true | _ => false end.

Definition is_mismatch (v : verdict) : bool :=
  match v with Accepted _ => false | _ => true end.

(** The shape of a release, read off its medium-list. *)
Definition medium_number_of (m : medium) : string := or_default "1" (m_position m).

Definition disc_positions (r : release) : list string :=
  nodup string_dec (map medium_number_of (r_medium_list r)).

Fixpoint tracks_at (medium_number : string) (l : list medium) : nat :=
  match l with
  | [] => 0
  | m :: rest =>
      (if String.eqb (medium_number_of m) medium_number
       then List.length (m_track_list m) else 0) + tracks_at medium_number rest
  end.

Definition track_count (r : release) (medium_number : string) : nat :=
  tracks_at medium_number (r_medium_list r).

(** Every event a computation emits satisfies [P], and the computation
    does not run out of fuel. *)
Definition emits {A} (P : event -> bool) (m : M A) : Prop :=
  forall s r ev s', m s = (r, ev, s') -> forallb P ev = true /\ r <> OutOfFuel.

Definition quiet (e : event) : bool := negb (is_write e).
Definition silent (e : event) : bool := negb (is_asked e).
Definition calm (e : event) : bool := negb (is_write e) && negb (is_asked e).

(** The events of an album are gated by the validator: they split in a
    first part without any write and a second part that is empty or is
    the application of a release the validator accepted. *)
Definition gated (w : world) (discs : discs_t) (ev : list event) (s' : state)
  : Prop :=
  exists pre post,
    ev = (pre ++ post)%list /\ no_writes pre
    /\ (post = []
        \/ exists rel media s1 r1,
             validate discs rel = Val (Accepted media)
             /\ apply_media w discs media s1 = (r1, post, s')).

(* ================================================================= *)
(** ** Vocabulary of the properties of the code *)

(** audio.get('album', ["Unknown Album"])[0], for a list that has a head. *)
Definition album_tag_of (tags : audio) : string :=
  match tags "album" with
  | Some (a :: _) => a
  | _ => "Unknown Album"
  end.

(** *** The grammar of the disc markers

    The two patterns of the grouper in words: what a marker is, where the
    leftmost one is, what removing the markers from a tag means.  [spelled
    word t]: the text [t] is [word] up to the case of its letters.  A
    marker is read at the head of a text and its digits are all the digits
    there are.  The white space and the bracket the album pattern allows
    before the word, and the bracket it allows after the digits, decide
    what is removed from the key, not what the disc is. *)















(** An event that writes at the path [f]: a save of [f], a rename from or
    onto [f]. *)
Definition writes_on (f : string) (e : event) : bool :=
  match e with
  | TagsSaved f' _ => String.eqb f' f
  | Renamed old_path new_path => String.eqb old_path f || String.eqb new_path f
  | _ => false
  end.

(** An event that leaves the path [f] alone. *)
Definition spares (f : string) (e : event) : bool := negb (writes_on f e).

(** What the grouper prints for a file: nothing when it files it. *)
Definition grouper_events (open_audio : string -> option audio)
  (file_path : string) : list event :=
  match read_album_tag open_audio file_path with
  | AlbumTag _ => []
  | Unsupported => [Logged (WarnUnsupported file_path)]
  | ReadFailed => [Logged (ErrReadMetadata file_path)]
  end.

(** A run of hexadecimal digits, as the groups of the identifier pattern. *)
Definition all_hex (s : string) : bool := Py.all_chars is_hex s.

(** A character outside the class of clean_file_name. *)
Definition is_safe (c : ascii) : bool := negb (is_unsafe c).

(** The two extensions the grouper and the applier open. *)
Definition is_supported (f : string) : bool :=
  Py.endswith f ".mp3" || Py.endswith f ".flac".

(** The message of the grouper for a file it leaves out. *)
Definition skip_event (f : string) : event :=
  if is_supported f then Logged (ErrReadMetadata f)
  else Logged (WarnUnsupported f).

(** No album without disc, no disc without file. *)
Definition populated (albums : albums_t) : Prop :=
  forall a discs, In (a, discs) albums ->
    discs <> [] /\ forall d fs, In (d, fs) discs -> fs <> [].

(** The key function accepts [x]; the key of [x] is [k]. *)
Definition key_ok {X : Type} (key : X -> res Z) (x : X) : bool :=
  match key x with Val _ => true | Exn _ => false end.

Definition key_is {X : Type} (key : X -> res Z) (k : Z) (x : X) : bool :=
  match key x with Val z => Z.eqb z k | Exn _ => false end.

(** The decoration step of sorted_by_key and the order of decorated items. *)
Definition keyed {X : Type} (key : X -> res Z) (x : X) : res (Z * X) :=
  res_bind (key x) (fun k => Val (k, x)).

Definition le_key {X : Type} (a b : Z * X) : Prop := (fst a <= fst b)%Z.

(** An event that changes a file changes one of [files]. *)
Definition touches (files : list string) (e : event) : bool :=
  match e with
  | TagsSaved f _ | Renamed f _ => existsb (String.eqb f) files
  | _ => true
  end.

Definition album_files (discs : discs_t) : list string := concat (map snd discs).

(** Directory names as posixpath.dirname returns them: slashes only, or
    no slash at the end. *)
Definition all_slash (s : string) : bool :=
  Py.all_chars (fun c => Ascii.eqb c "/") s.

Definition canonical (d : string) : Prop :=
  all_slash d = true \/ Py.endswith d "/" = false.

Definition is_fetching (e : event) : bool :=
  match e with Fetching _ => true | _ => false end.

(** Neither a write, nor a question, nor a fetch. *)
Definition idle (e : event) : bool :=
  negb (is_write e) && negb (is_asked e) && negb (is_fetching e).

(** The exceptions that leave manual_input, and those that leave main. *)
Definition manual_exn (e : exn) : bool :=
  match e with EOFError | NetworkError | IndexError => true | _ => false end.

Definition escapes (e : exn) : bool :=
  match e with
  | EOFError | IndexError | KeyError | ValueError | AttributeError
  | NetworkError => true
  | _ => false
  end.

(** Every exception a computation ends by satisfies [P]. *)
Definition raises {A} (P : exn -> bool) (m : M A) : Prop :=
  forall s e ev s', m s = (Raised e, ev, s') -> P e = true.

(** A track whose artist-credit list, when present, is not empty. *)
Definition credited (t : track) : bool :=
  match t_artist_credit t with Some [] => false | _ => true end.

(* ================================================================= *)
(** ** Concrete libraries, catalogs and operators *)

Module Scenario.

Definition tags (album_tag artist_tag : string) : audio :=
  fun key =>
    if String.eqb key "album" then Some [album_tag]
    else if String.eqb key "artist" then Some [artist_tag]
    else None.

Definition cand (id title_text artist_name : string) : candidate :=
  {| c_id := Some id; c_title := Some title_text;
     c_artist_credit := Some [Some artist_name] |}.

Definition trk (position title_text : string) : track :=
  {| t_position := Some position; t_title := Some title_text;
     t_artist_credit := Some [Some "Art"] |}.

Definition disc (position : string) (tracks : list track) : medium :=
  {| m_position := Some position; m_track_list := tracks |}.

Definition rel (media : list medium) : release :=
  {| r_group_title := Some "Alb"; r_date := Some "2001";
     r_medium_list := media |}.

Definition meta (position title_text : string) : track_metadata :=
  {| title := title_text; artist := "Art"; album := "Alb"; date := "2001";
     tracknumber := position |}.

Definition start (script : list string) : state :=
  {| answers := script; calls := 0 |}.

(** A library whose files all carry the album tag Alb and the artist tag
    Art, and a catalog that knows the album under the same names. *)
Definition world_of (reply : fetch_reply) : world :=
  {| search_releases := fun _ _ _ => Found [cand "r1" "Alb" "Art"; cand "r2" "Alb" "Art"];
     get_release_by_id := fun _ _ => reply;
     ratio_ge_threshold := String.eqb;
     open_audio := fun _ => Some (tags "Alb" "Art");
     save_ok := fun _ => true;
     rename_ok := fun _ _ => true |}.

(** One disc of two tracks. *)
Definition two_tracks : release := rel [disc "1" [trk "2" "Two"; trk "1" "One"]].

(** The two discs of a double album, one track each. *)
Definition double_album : release :=
  rel [disc "1" [trk "1" "One"]; disc "2" [trk "1" "Two"]].

(** The same album under a title that is close only. *)
Definition world_close : world :=
  {| search_releases := fun _ _ _ => Found [cand "r1" "alb" "Art"];
     get_release_by_id := fun _ _ => Release two_tracks;
     ratio_ge_threshold := String.eqb;
     open_audio := fun _ => Some (tags "Alb" "Art");
     save_ok := fun _ => true;
     rename_ok := fun _ _ => true |}.

(** A library of two albums in one sub-folder of the Input folder, named
    CD 2: a track of First and a track of Second.  The folder lists its
    files in the order the file system gives, one way or the other. *)
Definition two_albums_walk : list (string * list string) :=
  [("in", []); ("in/CD 2", ["a.mp3"; "b.mp3"])].

Definition two_albums_walk_rev : list (string * list string) :=
  [("in", []); ("in/CD 2", ["b.mp3"; "a.mp3"])].

Definition world_two_albums : world :=
  {| search_releases := fun _ album_name _ => Found [cand "r1" album_name "Art"];
     get_release_by_id := fun _ _ => Release double_album;
     ratio_ge_threshold := String.eqb;
     open_audio := fun path =>
       if Py.endswith path "a.mp3" then Some (tags "First" "Art")
       else Some (tags "Second" "Art");
     save_ok := fun _ => true;
     rename_ok := fun _ _ => true |}.

End Scenario.

(** Catalogs that know no album, and a library for them. *)
Module Catalog.

Definition world_without_match : world :=
  {| search_releases := fun _ _ _ => Found [];
     get_release_by_id := fun _ _ => FailsWithResponseError;
     ratio_ge_threshold := String.eqb;
     open_audio := fun _ => Some (Scenario.tags "Alb" "Art");
     save_ok := fun _ => true;
     rename_ok := fun _ _ => true |}.

Definition library : list (string * list string) :=
  [("in", ["a.mp3"; "notes.txt"; "c.wav"]); ("in/CD 2", ["b.flac"])].

Definition damaged_library : list (string * list string) :=
  [("in", ["a.mp3"; "c.wav"; "bad.mp3"; "notes.txt"]); ("in/CD 2", ["b.flac"])].

(** The same catalog with a file the codec cannot open. *)
Definition world_damaged : world :=
  {| search_releases := fun _ _ _ => Found [];
     get_release_by_id := fun _ _ => FailsWithResponseError;
     ratio_ge_threshold := String.eqb;
     open_audio := fun path =>
       if Py.endswith path "bad.mp3" then None
       else Some (Scenario.tags "Alb" "Art");
     save_ok := fun _ => true;
     rename_ok := fun _ _ => true |}.

Definition release_id : string := "12345678-abcd-abcd-abcd-1234567890ab".

End Catalog.

(* ================================================================= *)
(** * Properties *)

(** ** Filename sanitisation *)

Lemma sub_unsafe_char : forall c,
  (if is_unsafe c then replacements_get replacements c "_"
   else String c EmptyString) = SanitizeSpec.fixed_table c.
Proof. intros [[] [] [] [] [] [] [] []]; reflexivity. Qed.

Lemma sub_unsafe_sanitize : forall s, sub_unsafe s = SanitizeSpec.sanitize s.
Proof.
  induction s as [|c r IH]; simpl; [reflexivity|].
  rewrite <- sub_unsafe_char, IH.
  destruct (is_unsafe c); reflexivity.
Qed.

Lemma replacements_cover_class : forall c default,
  is_unsafe c = true ->
  replacements_get replacements c default = SanitizeSpec.fixed_table c.
Proof.
  intros [[] [] [] [] [] [] [] []] default H; cbv in H;
    try discriminate H; reflexivity.
Qed.

Lemma sub_unsafe_safe_text : forall s,
  Py.all_chars (fun c => negb (is_unsafe c)) s = true -> sub_unsafe s = s.
Proof.
  induction s as [|c r IH]; simpl; [reflexivity|].
  intros H. apply andb_prop in H as [Hc Hr].
  apply negb_true_iff in Hc. rewrite Hc, IH by assumption. reflexivity.
Qed.

(** C8 (as amended): clean_file_name is a total function that maps every
    character of the unsafe set through the fixed table and keeps every
    other character, then trims the white space at both ends of the
    result; the underscore default of the lookup is never used, whatever
    it is; a text with no unsafe character and no white space at its ends
    is returned unchanged. *)
Theorem clean_file_name_table : forall s,
  clean_file_name s = Py.strip (SanitizeSpec.sanitize s)
  /\ (forall c default, is_unsafe c = true ->
        replacements_get replacements c default = SanitizeSpec.fixed_table c)
  /\ (Py.all_chars (fun c => negb (is_unsafe c)) s = true ->
      Py.strip s = s -> clean_file_name s = s).
Proof.
  intros s. split; [|split].
  - unfold clean_file_name. now rewrite sub_unsafe_sanitize.
  - apply replacements_cover_class.
  - intros Hsafe Hstrip. unfold clean_file_name.
    now rewrite sub_unsafe_safe_text.
Qed.

Lemma clean_file_name_table_witness :
  clean_file_name "a<b" = Py.strip (SanitizeSpec.sanitize "a<b")
  /\ replacements_get replacements "?" "_" = SanitizeSpec.fixed_table "?"
  /\ clean_file_name "01 - One" = "01 - One".
Proof.
  split; [|split].
  - exact (proj1 (clean_file_name_table "a<b")).
  - apply (proj1 (proj2 (clean_file_name_table "a<b"))). reflexivity.
  - apply (proj2 (proj2 (clean_file_name_table "01 - One"))); reflexivity.
Defined.

(** C8 fails as stated: the leading blank of this text is not in the
    unsafe set, no catch-all rule applies to it, and it is removed. *)
Lemma clean_file_name_alters_safe_text :
  Py.all_chars (fun c => negb (is_unsafe c)) " a" = true
  /\ SanitizeSpec.sanitize " a" = " a"
  /\ clean_file_name " a" = "a"
  /\ clean_file_name " a" <> SanitizeSpec.sanitize " a".
Proof. repeat split; try reflexivity. discriminate. Qed.

(* ----------------------------------------------------------------- *)
(** ** Disc resolution *)

Lemma take_while_all : forall p s, Py.all_chars p (Py.take_while p s) = true.
Proof.
  induction s as [|c r IH]; simpl; [reflexivity|].
  destruct (p c) eqn:E; simpl; [now rewrite E|reflexivity].
Qed.

Lemma nonempty_digits_isdigit : forall s,
  Py.is_empty (Py.take_while Py.is_digit s) = false ->
  Py.isdigit (Py.take_while Py.is_digit s) = true.
Proof.
  intros s H. unfold Py.isdigit. now rewrite H, take_while_all.
Qed.

Lemma search_some : forall (A : Type) (f : string -> option A) s r,
  Re.search f s = Some r ->
  exists pre tail, s = pre ++ tail /\ f tail = Some r.
Proof.
  induction s as [|c s IH]; simpl; intros r H.
  - destruct (f EmptyString) eqn:E.
    + exists EmptyString, EmptyString. now inversion H; subst.
    + discriminate.
  - destruct (f (String c s)) eqn:E.
    + exists EmptyString, (String c s). now inversion H; subst.
    + apply IH in H as (pre & tail & -> & Hf).
      exists (String c pre), tail. now split.
Qed.

Lemma disc_regex_search_isdigit : forall path d,
  Re.disc_regex_search path = Some d -> Py.isdigit d = true.
Proof.
  intros path d H. apply search_some in H as (pre & tail & _ & H).
  unfold Re.disc_regex_at in H.
  destruct (match Re.literal true "Disc" tail with
            | Some r => Some r | None => Re.literal true "CD" tail end);
    [|discriminate].
  destruct (Py.is_empty _) eqn:E; [discriminate|].
  inversion H; subst. now apply nonempty_digits_isdigit.
Qed.

Lemma album_pattern_search_isdigit : forall album d,
  Re.album_pattern_search album = Some d -> Py.isdigit d = true.
Proof.
  intros album d H. apply search_some in H as (pre & tail & _ & H).
  unfold Re.album_pattern_at in H.
  destruct (Re.literal true "Disc " _); [|discriminate].
  destruct (Py.is_empty _) eqn:E; [discriminate|].
  inversion H; subst. now apply nonempty_digits_isdigit.
Qed.






Lemma append_empty_r : forall s, s ++ EmptyString = s.
Proof. induction s as [|c s IH]; simpl; [reflexivity|now rewrite IH]. Qed.

Section Suffix.

Variable d : string.
Hypothesis d_digits : Py.isdigit d = true.














End Suffix.

Lemma rstrip_idem : forall s, Py.rstrip (Py.rstrip s) = Py.rstrip s.
Proof.
  induction s as [|c s IH]; simpl; [reflexivity|].
  destruct (Py.is_empty (Py.rstrip s) && Py.is_space c) eqn:E; [reflexivity|].
  simpl. now rewrite IH, E.
Qed.

Lemma lstrip_rstrip : forall s,
  Py.lstrip (Py.rstrip s) = Py.rstrip (Py.lstrip s).
Proof.
  induction s as [|c s IH]; simpl; [reflexivity|].
  destruct (Py.is_space c) eqn:Hc.
  - rewrite andb_true_r. destruct (Py.is_empty (Py.rstrip s)) eqn:He.
    + rewrite <- IH. destruct (Py.rstrip s); [reflexivity|discriminate].
    + simpl. now rewrite Hc.
  - rewrite andb_false_r. simpl. now rewrite Hc, andb_false_r.
Qed.


(* ----------------------------------------------------------------- *)
(** ** The patterns and the grammar of the markers *)

Lemma all_chars_app : forall p a b,
  Py.all_chars p (a ++ b) = Py.all_chars p a && Py.all_chars p b.
Proof.
  induction a as [|c a IH]; simpl; intros b; [reflexivity|].
  now rewrite IH, andb_assoc.
Qed.

Lemma string_length_app : forall a b,
  String.length (a ++ b) = String.length a + String.length b.
Proof. induction a as [|c a IH]; simpl; intros b; [reflexivity|now rewrite IH]. Qed.

Lemma digit_not_space : forall c, Py.is_digit c = true -> Py.is_space c = false.
Proof. intros [[] [] [] [] [] [] [] []] H; cbv in H; try discriminate H; reflexivity. Qed.





Lemma lower_length : forall w, String.length (Py.lower w) = String.length w.
Proof. induction w as [|c w IH]; simpl; [reflexivity|now rewrite IH]. Qed.


















Section Leftmost.
Context {A : Type}.
Variable f : string -> option A.
Variable here : string -> A -> Prop.
Hypothesis f_spec : forall s d, f s = Some d <-> here s d.





End Leftmost.






























(* ----------------------------------------------------------------- *)
(** ** The grouper *)

Lemma Dict_get_set_same : forall (V : Type) k (v : V) d,
  Dict.get k (Dict.set k v d) = Some v.
Proof.
  induction d as [|[k' v'] d IH]; simpl.
  - now rewrite String.eqb_refl.
  - destruct (String.eqb k k') eqn:E; simpl; rewrite ?String.eqb_refl, ?E; auto.
Qed.

Lemma Dict_get_set_other : forall (V : Type) k k' (v : V) d,
  k <> k' -> Dict.get k' (Dict.set k v d) = Dict.get k' d.
Proof.
  intros V k k' v d Hne. induction d as [|[k0 v0] d IH]; simpl.
  - destruct (String.eqb_spec k' k); [congruence|reflexivity].
  - destruct (String.eqb_spec k k0) as [->|Hk]; simpl.
    + destruct (String.eqb_spec k' k0); [congruence|reflexivity].
    + destruct (String.eqb_spec k' k0); [reflexivity|exact IH].
Qed.

Section GrouperFacts.

Variable oa : string -> option audio.

Lemma bucket_add_file : forall albums f a d,
  bucket (add_file oa albums f) a d
  = if in_bucket oa a d f then (bucket albums a d ++ [f])%list
    else bucket albums a d.
Proof.
  intros albums f a d. unfold add_file, in_bucket.
  destruct (bucket_of oa f) as [[a' d']|]; [|reflexivity].
  unfold bucket.
  destruct (String.eqb_spec a' a) as [->|Ha]; simpl.
  - rewrite Dict_get_set_same.
    destruct (String.eqb_spec d' d) as [->|Hd].
    + rewrite Dict_get_set_same.
      destruct (Dict.get a albums); reflexivity.
    + rewrite Dict_get_set_other by assumption.
      destruct (Dict.get a albums); reflexivity.
  - rewrite Dict_get_set_other by assumption. reflexivity.
Qed.

Lemma bucket_fold : forall files albums a d,
  bucket (fold_left (add_file oa) files albums) a d
  = (bucket albums a d ++ filter (in_bucket oa a d) files)%list.
Proof.
  induction files as [|f files IH]; intros albums a d; simpl.
  - now rewrite app_nil_r.
  - rewrite IH, bucket_add_file.
    destruct (in_bucket oa a d f); [now rewrite <- app_assoc|reflexivity].
Qed.

(** Every bucket is the sub-list, in discovery order, of the files whose
    key it is. *)
Lemma bucket_group : forall files a d,
  bucket (group_tracks_by_album oa files) a d = filter (in_bucket oa a d) files.
Proof. intros. unfold group_tracks_by_album. now rewrite bucket_fold. Qed.

Lemma in_bucket_iff : forall a d f,
  in_bucket oa a d f = true <-> bucket_of oa f = Some (a, d).
Proof.
  intros a d f. unfold in_bucket.
  destruct (bucket_of oa f) as [[a' d']|]; [|split; discriminate].
  rewrite andb_true_iff, !String.eqb_eq. split.
  - now intros [-> ->].
  - intros H. now inversion H.
Qed.

Lemma count_occ_filter : forall (p : string -> bool) l f,
  count_occ string_dec (filter p l) f
  = if p f then count_occ string_dec l f else 0.
Proof.
  induction l as [|x l IH]; intros f; simpl.
  - now destruct (p f).
  - destruct (p x) eqn:Ex; simpl; destruct (string_dec x f) as [->|Hne];
      rewrite IH; try rewrite Ex; try reflexivity;
      destruct (p f); reflexivity.
Qed.

End GrouperFacts.

Lemma endswith_wav_not_mp3 : forall s,
  Py.endswith s ".wav" = true -> Py.endswith s ".mp3" = false.
Proof.
  induction s as [|c r IH]; [discriminate|].
  cbn [Py.endswith]. intros H. apply orb_true_iff in H as [H|H].
  - apply String.eqb_eq in H. inversion H; subst. reflexivity.
  - rewrite (IH H), orb_false_r.
    destruct (String.eqb_spec (String c r) ".mp3") as [E|]; [|reflexivity].
    inversion E; subst. discriminate H.
Qed.

Lemma endswith_wav_not_flac : forall s,
  Py.endswith s ".wav" = true -> Py.endswith s ".flac" = false.
Proof.
  induction s as [|c r IH]; [discriminate|].
  cbn [Py.endswith]. intros H. apply orb_true_iff in H as [H|H].
  - apply String.eqb_eq in H. inversion H; subst. reflexivity.
  - rewrite (IH H), orb_false_r.
    destruct (String.eqb_spec (String c r) ".flac") as [E|]; [|reflexivity].
    inversion E; subst. discriminate H.
Qed.

Lemma Dict_get_in : forall (V : Type) k (v : V) d,
  Dict.get k d = Some v -> In (k, v) d.
Proof.
  induction d as [|[k' v'] d IH]; simpl; [discriminate|].
  destruct (String.eqb_spec k k') as [->|Hne]; intros H.
  - inversion H; subst. now left.
  - right. now apply IH.
Qed.

Lemma Dict_in_get : forall (V : Type) k (v : V) d,
  NoDup (Dict.keys d) -> In (k, v) d -> Dict.get k d = Some v.
Proof.
  induction d as [|[k' v'] d IH]; simpl; intros Hnd Hin; [destruct Hin|].
  inversion Hnd as [|? ? Hnotin Hnd']; subst.
  destruct Hin as [E|Hin].
  - inversion E; subst. now rewrite String.eqb_refl.
  - destruct (String.eqb_spec k k') as [->|Hne]; [|now apply IH].
    exfalso. apply Hnotin. apply (in_map fst) in Hin. exact Hin.
Qed.

Lemma Dict_set_in : forall (V : Type) k (v : V) d k' v',
  In (k', v') (Dict.set k v d) -> (k' = k /\ v' = v) \/ In (k', v') d.
Proof.
  induction d as [|[k0 v0] d IH]; simpl; intros k' v' H.
  - destruct H as [E|[]]. inversion E; subst. now left.
  - destruct (String.eqb_spec k k0) as [->|Hne]; simpl in H.
    + destruct H as [E|H]; [inversion E; subst; now left|now right; right].
    + destruct H as [E|H]; [now right; left|].
      destruct (IH _ _ H) as [?|?]; [now left|now right; right].
Qed.

Lemma Dict_set_keys_in : forall (V : Type) k (v : V) d x,
  In x (Dict.keys (Dict.set k v d)) -> x = k \/ In x (Dict.keys d).
Proof.
  induction d as [|[k0 v0] d IH]; simpl; intros x H.
  - destruct H as [<-|[]]. now left.
  - destruct (String.eqb_spec k k0) as [->|Hne]; simpl in H.
    + destruct H as [<-|H]; [now left|now right; right].
    + destruct H as [<-|H]; [now right; left|].
      destruct (IH _ H) as [?|?]; [now left|now right; right].
Qed.

Lemma Dict_set_nodup : forall (V : Type) k (v : V) d,
  NoDup (Dict.keys d) -> NoDup (Dict.keys (Dict.set k v d)).
Proof.
  induction d as [|[k0 v0] d IH]; simpl; intros H.
  - constructor; [intros []|constructor].
  - inversion H as [|? ? Hnotin Hnd]; subst.
    destruct (String.eqb_spec k k0) as [->|Hne]; simpl.
    + now constructor.
    + constructor; [|now apply IH].
      intros Hin. apply Dict_set_keys_in in Hin as [->|Hin]; auto.
Qed.

Lemma add_file_well_keyed : forall oa albums f,
  well_keyed albums -> well_keyed (add_file oa albums f).
Proof.
  intros oa albums f [Hk Hd]. unfold add_file.
  destruct (bucket_of oa f) as [[a d]|]; [|now split].
  split; [now apply Dict_set_nodup|].
  intros a' discs' Hin. apply Dict_set_in in Hin as [[-> ->]|Hin];
    [|now apply (Hd a')].
  apply Dict_set_nodup.
  destruct (Dict.get a albums) as [discs|] eqn:E; [|constructor].
  apply Dict_get_in in E. now apply (Hd a).
Qed.

Lemma group_well_keyed : forall oa files,
  well_keyed (group_tracks_by_album oa files).
Proof.
  intros oa files. unfold group_tracks_by_album.
  assert (H : forall albums, well_keyed albums ->
                well_keyed (fold_left (add_file oa) files albums)).
  { induction files as [|f files IH]; simpl; intros albums Hw; [assumption|].
    apply IH. now apply add_file_well_keyed. }
  apply H. split; [constructor|intros a discs []].
Qed.

Lemma entries_are_buckets : forall oa files a discs d fs,
  In (a, discs) (group_tracks_by_album oa files) -> In (d, fs) discs ->
  bucket (group_tracks_by_album oa files) a d = fs.
Proof.
  intros oa files a discs d fs Ha Hd.
  destruct (group_well_keyed oa files) as [Hk Hds].
  unfold bucket. rewrite (Dict_in_get _ _ _ _ Hk Ha).
  now rewrite (Dict_in_get _ _ _ _ (Hds _ _ Ha) Hd).
Qed.

Lemma bucket_of_readable : forall oa f tags,
  Py.endswith f ".mp3" || Py.endswith f ".flac" = true ->
  oa f = Some tags -> tags "album" <> Some [] ->
  bucket_of oa f = Some (album_and_disc f (album_tag_of tags)).
Proof.
  intros oa f tags Hs Ho Ht. unfold bucket_of, read_album_tag, album_tag_of.
  rewrite Hs, Ho. destruct (tags "album") as [[|a l]|]; [congruence| |];
    reflexivity.
Qed.

Lemma bucket_of_left_out : forall oa f,
  Py.endswith f ".mp3" || Py.endswith f ".flac" = false
  \/ oa f = None
  \/ (exists tags, oa f = Some tags /\ tags "album" = Some []) ->
  bucket_of oa f = None.
Proof.
  intros oa f H. unfold bucket_of, read_album_tag.
  destruct (Py.endswith f ".mp3" || Py.endswith f ".flac"); [|reflexivity].
  destruct H as [H|[H|(tags & H & Ht)]]; [discriminate| |]; rewrite H;
    [reflexivity|]. now rewrite Ht.
Qed.

(** C2 (as amended): a file whose name ends in .mp3 or .flac, that the
    codec opens and whose album tag list is not empty, is filed under the
    album and the disc its own tag and path give: it is in that bucket as
    many times as it is in the input, and in no other bucket.  A file of
    another extension, a file the codec cannot open and a file whose
    album tag list is empty are in no bucket; every .wav file, which
    passes the extension filter, is of another extension.  Nothing else
    is in a bucket, and every entry of the result is the bucket of its
    album and disc. *)
Theorem grouper_buckets : forall open_audio files f,
  (forall tags,
     Py.endswith f ".mp3" || Py.endswith f ".flac" = true ->
     open_audio f = Some tags -> tags "album" <> Some [] ->
     let '(a, d) := album_and_disc f (album_tag_of tags) in
     count_occ string_dec (bucket (group_tracks_by_album open_audio files) a d) f
       = count_occ string_dec files f
     /\ forall a' d',
          In f (bucket (group_tracks_by_album open_audio files) a' d') ->
          a' = a /\ d' = d)
  /\ (Py.endswith f ".mp3" || Py.endswith f ".flac" = false
      \/ open_audio f = None
      \/ (exists tags, open_audio f = Some tags /\ tags "album" = Some []) ->
      forall a d, ~ In f (bucket (group_tracks_by_album open_audio files) a d))
  /\ (Py.endswith f ".wav" = true ->
      Py.endswith f ".mp3" || Py.endswith f ".flac" = false)
  /\ (forall a d, In f (bucket (group_tracks_by_album open_audio files) a d) ->
      In f files)
  /\ (forall a discs d fs,
        In (a, discs) (group_tracks_by_album open_audio files) ->
        In (d, fs) discs ->
        bucket (group_tracks_by_album open_audio files) a d = fs).
Proof.
  intros open_audio files f. split; [|split; [|split; [|split]]].
  - intros tags Hs Ho Ht.
    pose proof (bucket_of_readable _ _ _ Hs Ho Ht) as Hkey.
    destruct (album_and_disc f (album_tag_of tags)) as [a d]. split.
    + rewrite bucket_group, count_occ_filter.
      apply (in_bucket_iff open_audio) in Hkey. now rewrite Hkey.
    + intros a' d' Hin. rewrite bucket_group in Hin.
      apply filter_In in Hin as [_ Hin]. apply in_bucket_iff in Hin.
      split; congruence.
  - intros Hout a d Hin. apply bucket_of_left_out in Hout.
    rewrite bucket_group in Hin.
    apply filter_In in Hin as [_ Hin]. apply in_bucket_iff in Hin. congruence.
  - intros Hwav.
    now rewrite (endswith_wav_not_mp3 _ Hwav), (endswith_wav_not_flac _ Hwav).
  - intros a d Hin. rewrite bucket_group in Hin.
    now apply filter_In in Hin as [Hin _].
  - apply entries_are_buckets.
Qed.

Lemma grouper_buckets_witness :
  group_tracks_by_album (open_audio Catalog.world_damaged)
    (gather_all_files Catalog.damaged_library)
  = [("Alb", [("1", ["in/a.mp3"]); ("2", ["in/CD 2/b.flac"])])]
  /\ (count_occ string_dec
        (bucket (group_tracks_by_album (open_audio Catalog.world_damaged)
                   (gather_all_files Catalog.damaged_library)) "Alb" "2")
        "in/CD 2/b.flac"
      = count_occ string_dec (gather_all_files Catalog.damaged_library)
          "in/CD 2/b.flac"
      /\ forall a' d',
           In "in/CD 2/b.flac"
             (bucket (group_tracks_by_album (open_audio Catalog.world_damaged)
                        (gather_all_files Catalog.damaged_library)) a' d') ->
           a' = "Alb" /\ d' = "2")
  /\ (count_occ string_dec
        (bucket (group_tracks_by_album (open_audio Catalog.world_damaged)
                   (gather_all_files Catalog.damaged_library)) "Alb" "1")
        "in/a.mp3"
      = count_occ string_dec (gather_all_files Catalog.damaged_library)
          "in/a.mp3"
      /\ forall a' d',
           In "in/a.mp3"
             (bucket (group_tracks_by_album (open_audio Catalog.world_damaged)
                        (gather_all_files Catalog.damaged_library)) a' d') ->
           a' = "Alb" /\ d' = "1")
  /\ (forall a d,
        ~ In "in/c.wav"
            (bucket (group_tracks_by_album (open_audio Catalog.world_damaged)
                       (gather_all_files Catalog.damaged_library)) a d))
  /\ (forall a d,
        ~ In "in/bad.mp3"
            (bucket (group_tracks_by_album (open_audio Catalog.world_damaged)
                       (gather_all_files Catalog.damaged_library)) a d)).
Proof.
  pose (oa := open_audio Catalog.world_damaged).
  pose (files := gather_all_files Catalog.damaged_library).
  split; [reflexivity|]. split; [|split; [|split]].
  - exact (proj1 (grouper_buckets oa files "in/CD 2/b.flac")
             (Scenario.tags "Alb" "Art") eq_refl eq_refl
             (fun H => eq_ind (Some ["Alb"])
                         (fun o => match o with Some [] => False | _ => True end)
                         I _ H)).
  - exact (proj1 (grouper_buckets oa files "in/a.mp3")
             (Scenario.tags "Alb" "Art") eq_refl eq_refl
             (fun H => eq_ind (Some ["Alb"])
                         (fun o => match o with Some [] => False | _ => True end)
                         I _ H)).
  - exact (proj1 (proj2 (grouper_buckets oa files "in/c.wav"))
             (or_introl eq_refl)).
  - exact (proj1 (proj2 (grouper_buckets oa files "in/bad.mp3"))
             (or_intror (or_introl eq_refl))).
Defined.

(** C2 fails as stated: c.wav passes the extension filter and is gathered,
    and the grouper leaves it out of every bucket. *)
Lemma wav_file_dropped :
  has_audio_extension "c.wav" = true
  /\ gather_all_files [("in", ["a.mp3"; "c.wav"; "notes.txt"])]
     = ["in/a.mp3"; "in/c.wav"]
  /\ group_tracks_by_album (fun _ => Some (Scenario.tags "Alb" "Art"))
       (gather_all_files [("in", ["a.mp3"; "c.wav"; "notes.txt"])])
     = [("Alb", [("1", ["in/a.mp3"])])].
Proof. repeat split. Qed.

(* ----------------------------------------------------------------- *)
(** ** The monad and the traces of the program *)

Lemma bind_inv : forall A B (m : M A) (f : A -> M B) s r ev s',
  bind m f s = (r, ev, s') ->
  (exists a ev1 s1 ev2,
      m s = (Ok a, ev1, s1) /\ f a s1 = (r, ev2, s') /\ ev = (ev1 ++ ev2)%list)
  \/ (exists e, m s = (Raised e, ev, s') /\ r = Raised e)
  \/ (m s = (OutOfFuel, ev, s') /\ r = OutOfFuel).
Proof.
  intros A B m f s r ev s' H. unfold bind in H.
  destruct (m s) as [[[a|e|] ev1] s1].
  - left. destruct (f a s1) as [[r2 ev2] s2] eqn:E.
    inversion H; subst. now exists a, ev1, s1, ev2.
  - right; left. inversion H; subst. now exists e.
  - right; right. now inversion H; subst.
Qed.

Lemma catch_inv : forall A (m : M A) (h : exn -> M A) s r ev s',
  catch m h s = (r, ev, s') ->
  (exists e ev1 s1 ev2,
      m s = (Raised e, ev1, s1) /\ h e s1 = (r, ev2, s') /\ ev = (ev1 ++ ev2)%list)
  \/ (m s = (r, ev, s') /\ forall e, r <> Raised e).
Proof.
  intros A m h s r ev s' H. unfold catch in H.
  destruct (m s) as [[[a|e|] ev1] s1].
  - right. inversion H; subst. split; [reflexivity|discriminate].
  - left. destruct (h e s1) as [[r2 ev2] s2] eqn:E.
    inversion H; subst. now exists e, ev1, s1, ev2.
  - right. inversion H; subst. split; [reflexivity|discriminate].
Qed.

Lemma emits_ret : forall A P (a : A), emits P (ret a).
Proof. intros A P a s r ev s' H. inversion H. now split. Qed.

Lemma emits_raise : forall A P e, emits P (@raise A e).
Proof. intros A P e s r ev s' H. inversion H. now split. Qed.

Lemma emits_lift : forall A P (x : res A), emits P (lift x).
Proof. intros A P [a|e]; [apply emits_ret|apply emits_raise]. Qed.

Lemma emits_emit : forall P e, P e = true -> emits P (emit e).
Proof.
  intros P e He s r ev s' H. inversion H; subst. simpl. now rewrite He.
Qed.

Lemma emits_bind : forall A B P (m : M A) (f : A -> M B),
  emits P m -> (forall a, emits P (f a)) -> emits P (bind m f).
Proof.
  intros A B P m f Hm Hf s r ev s' H.
  apply bind_inv in H as [(a & ev1 & s1 & ev2 & H1 & H2 & ->)|[(e & H1 & ->)|[H1 _]]].
  - rewrite forallb_app. apply Hm in H1 as [H1 _]. apply Hf in H2 as [H2 Hr].
    now rewrite H1, H2.
  - apply Hm in H1 as [H1 _]. now split.
  - now apply Hm in H1 as [_ H1].
Qed.

Lemma emits_catch : forall A P (m : M A) (h : exn -> M A),
  emits P m -> (forall e, emits P (h e)) -> emits P (catch m h).
Proof.
  intros A P m h Hm Hh s r ev s' H.
  apply catch_inv in H as [(e & ev1 & s1 & ev2 & H1 & H2 & ->)|[H1 _]].
  - rewrite forallb_app. apply Hm in H1 as [H1 _]. apply Hh in H2 as [H2 Hr].
    now rewrite H1, H2.
  - now apply Hm in H1.
Qed.

Lemma emits_input : forall P p,
  (forall a, P (Asked p a) = true) -> emits P (input p).
Proof.
  intros P p HP s r ev s' H. unfold input in H.
  destruct (answers s); inversion H; subst; simpl; [now split|].
  now rewrite HP.
Qed.

Lemma emits_call_search : forall w P album_name artist_name,
  P (Searched album_name artist_name) = true ->
  emits P (call_search w album_name artist_name).
Proof.
  intros w P a b HP s r ev s' H. inversion H; subst. simpl. now rewrite HP.
Qed.

Lemma emits_call_get : forall w P release_id,
  P (Fetching release_id) = true ->
  emits P (call_get_release_by_id w release_id).
Proof.
  intros w P i HP s r ev s' H. unfold call_get_release_by_id in H.
  destruct (get_release_by_id w (calls s) i); inversion H; subst; simpl;
    now rewrite HP.
Qed.

(** A step of the proof that a computation emits only [P] events: the
    combinators are peeled off and the tests of the program are split. *)
Ltac emits_step :=
  match goal with
  | |- emits _ (bind _ _) => apply emits_bind; [|intros ?]
  | |- emits _ (catch _ _) => apply emits_catch; [|intros ?]
  | |- emits _ (ret _) => apply emits_ret
  | |- emits _ (raise _) => apply emits_raise
  | |- emits _ (lift _) => apply emits_lift
  | |- emits _ (log _) => apply emits_emit; reflexivity
  | |- emits _ (emit _) => apply emits_emit; reflexivity
  | |- emits _ (input _) => apply emits_input; intros ?; reflexivity
  | |- emits _ (call_search _ _ _) => apply emits_call_search; reflexivity
  | |- emits _ (call_get_release_by_id _ _) => apply emits_call_get; reflexivity
  | |- emits _ (if ?b then _ else _) => destruct b
  | |- emits _ (match ?x with _ => _ end) => destruct x
  end.

Lemma find_album_quiet : forall w a b, emits quiet (find_album_on_musicbrainz w a b).
Proof. intros. unfold find_album_on_musicbrainz. repeat emits_step. Qed.

Lemma fetch_full_quiet : forall w i, emits quiet (fetch_full_release_details w i).
Proof. intros. unfold fetch_full_release_details. repeat emits_step. Qed.

Lemma manual_input_quiet : forall w, emits quiet (manual_input w).
Proof.
  intros. unfold manual_input.
  repeat (emits_step || apply find_album_quiet || apply fetch_full_quiet).
Qed.

Lemma update_file_silent : forall w f m, emits silent (update_file w f m).
Proof.
  intros. unfold update_file.
  destruct (track_num_of (tracknumber m)) as [track_num invalid].
  repeat emits_step.
Qed.

Lemma update_files_silent : forall w l, emits silent (update_files w l).
Proof.
  induction l as [|[f m] l IH]; simpl.
  - apply emits_ret.
  - apply emits_bind; [apply update_file_silent|intros _; exact IH].
Qed.

Lemma update_metadata_silent : forall w fs ms, emits silent (update_metadata w fs ms).
Proof.
  intros. unfold update_metadata.
  apply emits_bind; [apply emits_lift|intros; apply update_files_silent].
Qed.

Lemma apply_media_silent : forall w discs media, emits silent (apply_media w discs media).
Proof.
  induction media as [|[mn tm] media IH]; simpl.
  - apply emits_ret.
  - destruct (Dict.get mn discs); [|apply emits_raise].
    apply emits_bind; [apply update_metadata_silent|intros _; exact IH].
Qed.

Lemma local_artist_calm : forall w a discs, emits calm (local_artist w a discs).
Proof. intros. unfold local_artist. repeat emits_step. Qed.

Lemma find_album_calm : forall w a b, emits calm (find_album_on_musicbrainz w a b).
Proof. intros. unfold find_album_on_musicbrainz. repeat emits_step. Qed.

Ltac split_run H :=
  repeat (simpl in H;
          match type of H with
          | context [match ?x with _ => _ end] =>
              lazymatch x with
              | context [match _ with _ => _ end] => fail
              | _ => destruct x eqn:?
              end
          end).

Ltac use_tests H :=
  repeat match goal with
         | E : negb _ = true |- _ => apply negb_true_iff in E
         | E : negb _ = false |- _ => apply negb_false_iff in E
         end;
  repeat match goal with
         | E : Py.is_empty _ = _ |- _ => rewrite E in H; simpl in H
         end.

Ltac rewrite_answers :=
  repeat match goal with E : answers _ = _ |- _ => rewrite E end.

Lemma manual_input_facts : forall w s r ev s',
  manual_input w s = (r, ev, s') ->
  r <> OutOfFuel
  /\ (forall x, r = Ok x -> List.length (answers s') < List.length (answers s))
  /\ List.length (answers s') <= List.length (answers s)
  /\ (abandoned ev -> r = Ok None /\ ends_with_abandon ev)
  /\ manual_head ev = true
  /\ (ev = [] -> r = Raised EOFError).
Proof.
  intros w s r ev s' H.
  unfold manual_input, find_album_on_musicbrainz, fetch_full_release_details,
    call_search, call_get_release_by_id, bind, catch, input, lift, log, emit, ret, raise in H.
  split_run H.
  all: inversion H; subst; clear H.
  all: split; [discriminate|].
  all: split; [try (intros ? ?; discriminate); intros; simpl;
               rewrite_answers; simpl; lia|].
  all: split; [simpl; rewrite_answers; simpl; lia|].
  all: split; [|split; [reflexivity|try discriminate; reflexivity]].
  all: unfold abandoned, ends_with_abandon; simpl; intros Hab; use_tests Hab;
    try discriminate Hab.
  all: rewrite ?orb_false_r in Hab; auto.
Qed.

Lemma forallb_quiet_app : forall (P : event -> bool) a b,
  forallb P a = true -> forallb P b = true -> forallb P (a ++ b)%list = true.
Proof. intros. rewrite forallb_app. now rewrite H, H0. Qed.

Lemma ends_with_app : forall P a b,
  ends_with P b = true -> ends_with P (a ++ b)%list = true.
Proof.
  induction a as [|e a IH]; intros b H; simpl; [assumption|].
  specialize (IH b H). destruct (a ++ b)%list eqn:E; [|assumption].
  simpl in IH. discriminate.
Qed.

Lemma abandoned_app : forall a b,
  abandoned (a ++ b)%list <-> abandoned a \/ abandoned b.
Proof.
  intros. unfold abandoned. rewrite existsb_app. apply orb_true_iff.
Qed.

Lemma silent_not_abandoned : forall ev,
  forallb silent ev = true -> ~ abandoned ev.
Proof.
  unfold abandoned. induction ev as [|e ev IH]; simpl; [discriminate|].
  intros H. apply andb_prop in H as [He Hev].
  intros Hab. apply orb_true_iff in Hab as [Hab|Hab]; [|now apply IH].
  destruct e; try discriminate. 
Qed.

Lemma lift_inv : forall A (x : res A) s r ev s',
  lift x s = (r, ev, s') ->
  ev = [] /\ s' = s /\ r = match x with Val a => Ok a | Exn e => Raised e end.
Proof. intros A [a|e] s r ev s' H; inversion H; now subst. Qed.

Lemma log_inv : forall m s r ev s',
  log m s = (r, ev, s') -> r = Ok tt /\ ev = [Logged m] /\ s' = s.
Proof. intros m s r ev s' H. inversion H. now subst. Qed.

Lemma validation_loop_facts : forall w discs fuel fd s r ev s',
  List.length (answers s) < fuel ->
  validation_loop w fuel discs fd s = (r, ev, s') ->
  r <> OutOfFuel
  /\ no_writes ev
  /\ (abandoned ev -> r = Ok None /\ ends_with_abandon ev)
  /\ (forall media, r = Ok (Some media) ->
        exists rel, validate discs rel = Val (Accepted media))
  /\ (fd = None -> r = Ok None /\ ev = []).
Proof.
  intros w discs. induction fuel as [|fuel IH]; intros fd s r ev s' Hfuel H;
    [lia|].
  assert (Hretry : forall m,
    (log m ;;; full_details' <- manual_input w ;;
     validation_loop w fuel discs full_details') s = (r, ev, s') ->
    r <> OutOfFuel /\ no_writes ev
    /\ (abandoned ev -> r = Ok None /\ ends_with_abandon ev)
    /\ (forall media, r = Ok (Some media) ->
          exists rel, validate discs rel = Val (Accepted media))).
  { intros m Hm.
    apply bind_inv in Hm
      as [(u & ev0 & s0 & ev' & Hl & Hm & ->)|[(e & Hl & _)|[Hl _]]];
      apply log_inv in Hl as (Hu & -> & ->); try discriminate Hu.
    apply bind_inv in Hm
      as [(fd' & ev1 & s1 & ev2 & Em & El & ->)|[(e & Em & ->)|[Em ->]]];
      pose proof (manual_input_facts _ _ _ _ _ Em) as (F1 & F2 & F3 & F4 & F5 & F6);
      pose proof (manual_input_quiet w _ _ _ _ Em) as [Q _];
      [| |congruence].
    - specialize (F2 _ eq_refl).
      apply IH in El as (G1 & G2 & G3 & G4 & G5); [|lia].
      split; [assumption|]. split; [|split].
      + unfold no_writes. simpl. now apply forallb_quiet_app.
      + intros Hab.
        apply abandoned_app in Hab as [Hab|Hab]; [discriminate Hab|].
        apply abandoned_app in Hab as [Hab|Hab].
        * destruct (F4 Hab) as [E1 E2]. inversion E1; subst.
          destruct (G5 eq_refl) as [-> ->]. split; [reflexivity|].
          rewrite app_nil_r. now apply ends_with_app.
        * destruct (G3 Hab) as [-> E2]. split; [reflexivity|].
          apply ends_with_app. now apply ends_with_app.
      + exact G4.
    - split; [discriminate|]. split; [|split].
      + unfold no_writes. simpl. exact Q.
      + intros Hab.
        apply abandoned_app in Hab as [Hab|Hab]; [discriminate Hab|].
        destruct (F4 Hab) as [E1 _]. discriminate E1.
      + intros media E. discriminate E. }
  cbn [validation_loop] in H. destruct fd as [rel|].
  - apply bind_inv in H
      as [(v & ev0 & s0 & ev' & Hl & H & ->)|[(e & Hl & ->)|[Hl ->]]];
      apply lift_inv in Hl as (-> & -> & Hv).
    + destruct (validate discs rel) as [v'|e] eqn:Ev; inversion Hv; subst.
      destruct v' as [media| |mn n k].
      * inversion H; subst. repeat split; try discriminate.
        intros media' E. inversion E; subst. now exists rel.
      * destruct (Hretry _ H) as (A1 & A2 & A3 & A4).
        split; [|split; [|split; [|split]]]; try assumption. discriminate.
      * destruct (Hretry _ H) as (A1 & A2 & A3 & A4).
        split; [|split; [|split; [|split]]]; try assumption. discriminate.
    + repeat split; try discriminate.
    + destruct (validate discs rel); discriminate.
  - inversion H; subst. repeat split; try discriminate.
Qed.

Lemma fetch_full_cases : forall w release_id s r ev s',
  fetch_full_release_details w release_id s = (r, ev, s') ->
  answers s' = answers s
  /\ ((exists rel, r = Ok (Some rel) /\ ev = [Fetching release_id])
      \/ (r = Ok None
          /\ ev = [Fetching release_id; Logged (ErrFetchFailed release_id)])).
Proof.
  intros w release_id s r ev s' H.
  unfold fetch_full_release_details, call_get_release_by_id, bind, catch,
    log, emit, ret, raise in H.
  split_run H; inversion H; subst; clear H; split; try reflexivity;
    [left; eauto|right; auto|right; auto].
Qed.

Lemma resolve_candidate_quiet : forall w a b m,
  emits quiet (resolve_candidate w a b m).
Proof.
  intros. unfold resolve_candidate.
  repeat (emits_step || apply manual_input_quiet || apply fetch_full_quiet).
Qed.

Lemma option_string_eqb_eq : forall a b,
  option_string_eqb a b = true -> a = b.
Proof.
  intros [a|] [b|]; simpl; try discriminate; [|reflexivity].
  intros H. apply String.eqb_eq in H. now subst.
Qed.

Ltac use_manual :=
  repeat match goal with
         | E : manual_input _ _ = _ |- _ =>
             let F1 := fresh "F" in
             pose proof (manual_input_facts _ _ _ _ _ E)
               as (_ & _ & _ & F1 & ? & ?);
             clear E
         end.

Ltac use_fetch :=
  repeat match goal with
         | E : fetch_full_release_details _ _ _ = _ |- _ =>
             apply fetch_full_cases in E
               as [_ [(? & ? & ?)|[? ?]]]; subst
         end.

Lemma resolve_candidate_abandon : forall w album_name artist_name m s r ev s',
  resolve_candidate w album_name artist_name m s = (r, ev, s') ->
  abandoned ev -> r = Ok None /\ ends_with_abandon ev.
Proof.
  intros w album_name artist_name m s r ev s' H.
  unfold resolve_candidate, is_close_match, bind, lift, log, emit, input,
    ret, raise in H.
  split_run H; inversion H; subst; clear H; use_manual; use_fetch;
    try (intros Hab; discriminate Hab).
  all: intros Hab.
  all: repeat match goal with
         | H : abandoned (_ :: _) |- _ =>
             apply (abandoned_app [_]) in H as [H|H]; [discriminate H|]
         end.
  all: match goal with
       | F : abandoned ?e -> _, H : abandoned ?e |- _ =>
           destruct (F H) as [-> ?]
       end.
  all: split; [reflexivity|].
  all: repeat match goal with
         | |- ends_with_abandon (?x :: ?l) => apply (ends_with_app _ [x])
         end; assumption.
Qed.

Lemma manual_head_contact : forall ev,
  manual_head ev = true ->
  first_contact ev = None \/ exists a, first_contact ev = Some (Asked PromptManual a).
Proof.
  intros [|e ev]; simpl; [now left|].
  destruct e as [[] a| | | | |]; try discriminate. intros _. right. now exists a.
Qed.

(** C3: the matcher accepts a candidate on its own - it requests the full
    release before the operator has been asked anything - only when the
    candidate title is the local album name and the candidate primary
    artist is the local artist name, as equal strings (case included).
    In every other case, a title-only match of any similarity included,
    the first contact is a question to the operator: either the prompt of
    manual resolution, or the confirmation prompt of the close tier, after
    which the release of the candidate is requested when the answer is y
    and manual resolution is entered otherwise; or there is no contact at
    all because the step raised. *)
Theorem exact_tier_needs_both_names :
  forall w album_name artist_name m s r ev s',
  resolve_candidate w album_name artist_name m s = (r, ev, s') ->
  (auto_accepted ev = true ->
     c_title m = Some album_name
     /\ exists release_artist,
          first_artist_name (c_artist_credit m) = Val release_artist
          /\ artist_name = Some release_artist)
  /\ (auto_accepted ev = false ->
      (first_contact ev = None /\ exists e, r = Raised e)
      \/ (exists a, first_contact ev = Some (Asked PromptManual a))
      \/ (exists release_artist a tl,
            ev = Asked (PromptClose (c_title m) release_artist) a :: tl
            /\ if String.eqb (Py.lower (Py.strip a)) "y"
               then exists tl', tl = Fetching (c_id m) :: tl'
               else manual_head tl = true)).
Proof.
  intros w album_name artist_name m s r ev s' H.
  unfold resolve_candidate, is_close_match, bind, lift, log, emit, input,
    ret, raise in H.
  split_run H; inversion H; subst; clear H.
  all: repeat match goal with
         | E : manual_input _ _ = _ |- _ =>
             pose proof (manual_input_facts _ _ _ _ _ E)
               as (_ & _ & _ & _ & ? & ?); clear E
         end; use_fetch.
  all: repeat match goal with
         | E : _ && _ = true |- _ => apply andb_prop in E as [? ?]
         | E : option_string_eqb _ _ = true |- _ =>
             apply option_string_eqb_eq in E
         | E : String.eqb ?x _ = true |- _ =>
             is_var x; apply String.eqb_eq in E
         end; subst.
  all: unfold auto_accepted; simpl.
  all: try match goal with
         | E : String.eqb (Py.lower _) _ = _ |- _ =>
             split; [discriminate|]; intros _; right; right;
             do 3 eexists; split; [reflexivity|]; rewrite E; eauto
         end.
  all: repeat match goal with
         | Hm : manual_head ?l = true |- context [first_contact ?l] =>
             let Hr := fresh in
             destruct (manual_head_contact _ Hm) as [Hr|[? Hr]]; rewrite Hr;
             [destruct l; [|destruct e as [[]| | | | |]; discriminate]|]
         end.
  all: split; intros Hacc; try discriminate Hacc.
  all: eauto 8.
Qed.

Lemma no_writes_app : forall a b,
  no_writes a -> no_writes b -> no_writes (a ++ b)%list.
Proof. intros a b. apply forallb_quiet_app. Qed.

Lemma match_body_facts : forall w discs album_name artist_name m s r ev s',
  match_body w discs album_name artist_name m s = (r, ev, s') ->
  r <> OutOfFuel
  /\ (forall c, r = Ok c -> c = Break)
  /\ (abandoned ev -> r = Ok Break /\ no_writes ev /\ ends_with_abandon ev)
  /\ exists pre post,
       ev = (pre ++ post)%list /\ no_writes pre
       /\ (post = []
           \/ exists rel media s1 r1,
                validate discs rel = Val (Accepted media)
                /\ apply_media w discs media s1 = (r1, post, s')).
Proof.
  intros w discs album_name artist_name m s r ev s' H.
  unfold match_body in H.
  apply bind_inv in H
    as [(fd & ev1 & s1 & ev' & E1 & H & ->)|[(e & E1 & ->)|[E1 ->]]];
    pose proof (resolve_candidate_quiet _ _ _ _ _ _ _ _ E1) as [Q1 T1];
    pose proof (resolve_candidate_abandon _ _ _ _ _ _ _ _ E1) as A1;
    [| |congruence].
  - apply bind_inv in H
      as [(acc & ev2 & s2 & ev3 & E2 & H & ->)|[(e & E2 & ->)|[E2 ->]]];
      unfold with_fuel in E2;
      apply validation_loop_facts in E2 as (L1 & L2 & L3 & L4 & L5);
      try lia; [| |congruence].
    + destruct acc as [media|].
      * destruct (L4 _ eq_refl) as [rel Hrel].
        assert (Hno : ~ abandoned (ev1 ++ ev2)).
        { intros Hab. apply abandoned_app in Hab as [Hab|Hab].
          - destruct (A1 Hab) as [E _]. inversion E; subst.
            destruct (L5 eq_refl) as [E' _]. discriminate E'.
          - destruct (L3 Hab) as [E _]. discriminate E. }
        apply bind_inv in H
          as [(u & ev4 & s4 & ev5 & E3 & H & ->)|[(e & E3 & ->)|[E3 ->]]];
          pose proof (apply_media_silent _ _ _ _ _ _ _ E3) as [S3 T3];
          [| |congruence].
        -- inversion H; subst. rewrite app_nil_r.
           split; [discriminate|]. split; [now intros c [= <-]|]. split.
           ++ intros Hab. rewrite app_assoc in Hab.
              apply abandoned_app in Hab as [Hab|Hab]; [now apply Hno in Hab|].
              now apply silent_not_abandoned in Hab.
           ++ exists (ev1 ++ ev2)%list, ev4. rewrite app_assoc.
              split; [reflexivity|]. split; [now apply no_writes_app|].
              right. now exists rel, media, s2, (Ok u).
        -- split; [discriminate|]. split; [discriminate|]. split.
           ++ intros Hab. rewrite app_assoc in Hab.
              apply abandoned_app in Hab as [Hab|Hab]; [now apply Hno in Hab|].
              now apply silent_not_abandoned in Hab.
           ++ exists (ev1 ++ ev2)%list, ev3. rewrite app_assoc.
              split; [reflexivity|]. split; [now apply no_writes_app|].
              right. now exists rel, media, s2, (Raised e).
      * inversion H; subst. rewrite app_nil_r.
        split; [discriminate|]. split; [now intros c [= <-]|]. split.
        -- intros Hab. split; [reflexivity|]. split; [now apply no_writes_app|].
           apply abandoned_app in Hab as [Hab|Hab].
           ++ destruct (A1 Hab) as [E Hend]. inversion E; subst.
              destruct (L5 eq_refl) as [_ ->]. now rewrite app_nil_r.
           ++ destruct (L3 Hab) as [_ Hend]. now apply ends_with_app.
        -- exists (ev1 ++ ev2)%list, []. rewrite app_nil_r.
           split; [reflexivity|]. split; [now apply no_writes_app|now left].
    + split; [discriminate|]. split; [discriminate|]. split.
      * intros Hab. apply abandoned_app in Hab as [Hab|Hab].
        -- destruct (A1 Hab) as [E _]. inversion E; subst.
           destruct (L5 eq_refl) as [E' _]. discriminate E'.
        -- destruct (L3 Hab) as [E _]. discriminate E.
      * exists (ev1 ++ ev')%list, []. rewrite app_nil_r.
        split; [reflexivity|]. split; [now apply no_writes_app|now left].
  - split; [discriminate|]. split; [discriminate|]. split.
    + intros Hab. destruct (A1 Hab) as [E _]. discriminate E.
    + exists ev, []. rewrite app_nil_r. split; [reflexivity|]. now split; [|left].
Qed.

(** The loop over the matches leaves after its first turn. *)
Lemma for_matches_first_turn :
  forall w discs album_name artist_name m rest s,
  for_matches w discs album_name artist_name (m :: rest) s
  = (match_body w discs album_name artist_name m ;;; ret tt) s.
Proof.
  intros. cbn [for_matches]. unfold bind.
  destruct (match_body w discs album_name artist_name m s)
    as [[[c|e|] ev] s1] eqn:E; try reflexivity.
  apply match_body_facts in E as (_ & Hc & _).
  now rewrite (Hc c eq_refl).
Qed.


Lemma gated_prefix : forall w discs pre ev s',
  no_writes pre -> gated w discs ev s' -> gated w discs (pre ++ ev) s'.
Proof.
  intros w discs pre ev s' Hpre (p & q & -> & Hp & Hq).
  exists (pre ++ p)%list, q. rewrite app_assoc.
  split; [reflexivity|]. split; [now apply no_writes_app|assumption].
Qed.

Lemma gated_quiet : forall w discs ev s', no_writes ev -> gated w discs ev s'.
Proof.
  intros. exists ev, []. rewrite app_nil_r. split; [reflexivity|].
  split; [assumption|now left].
Qed.

Lemma calm_quiet : forall ev, forallb calm ev = true -> no_writes ev.
Proof.
  unfold no_writes. induction ev as [|e ev IH]; simpl; [reflexivity|].
  intros H. apply andb_prop in H as [He Hev]. apply andb_prop in He as [He _].
  now rewrite He, IH.
Qed.

Lemma calm_not_abandoned : forall ev, forallb calm ev = true -> ~ abandoned ev.
Proof.
  intros ev H. apply silent_not_abandoned.
  induction ev as [|e ev IH]; simpl in *; [reflexivity|].
  apply andb_prop in H as [He Hev]. apply andb_prop in He as [_ He].
  rewrite (IH Hev). unfold silent. now rewrite He.
Qed.

Lemma for_matches_facts : forall w discs album_name artist_name matches s r ev s',
  for_matches w discs album_name artist_name matches s = (r, ev, s') ->
  r <> OutOfFuel
  /\ (abandoned ev -> r = Ok tt /\ no_writes ev /\ ends_with_abandon ev)
  /\ gated w discs ev s'.
Proof.
  intros w discs album_name artist_name [|m rest] s r ev s' H.
  - inversion H; subst. split; [discriminate|]. split; [discriminate|].
    now apply gated_quiet.
  - rewrite for_matches_first_turn in H.
    apply bind_inv in H
      as [(c & ev1 & s1 & ev2 & E & H & ->)|[(e & E & ->)|[E ->]]];
      apply match_body_facts in E as (T & Hc & A & G); [| |congruence].
    + inversion H; subst. rewrite app_nil_r.
      split; [discriminate|]. split; [|exact G].
      intros Hab. destruct (A Hab) as (_ & ? & ?). now repeat split.
    + split; [discriminate|]. split; [|exact G].
      intros Hab. destruct (A Hab) as (E & _). discriminate E.
Qed.

Lemma process_album_facts : forall w album_name discs s r ev s',
  process_album w album_name discs s = (r, ev, s') ->
  r <> OutOfFuel
  /\ (abandoned ev -> r = Ok tt /\ no_writes ev /\ ends_with_abandon ev)
  /\ gated w discs ev s'.
Proof.
  intros w album_name discs s r ev s' H. unfold process_album in H.
  apply bind_inv in H
    as [(u & ev0 & s0 & ev' & Hl & H & ->)|[(e & Hl & _)|[Hl _]]];
    apply log_inv in Hl as (Hu & -> & ->); try discriminate Hu.
  apply bind_inv in H
    as [(a & ev1 & s1 & ev2 & E1 & H & ->)|[(e & E1 & ->)|[E1 ->]]];
    pose proof (local_artist_calm _ _ _ _ _ _ _ E1) as [C1 T1];
    pose proof (calm_quiet _ C1) as Q1;
    pose proof (calm_not_abandoned _ C1) as N1; [| |congruence].
  - destruct a as [|artist_name].
    + inversion H; subst. rewrite app_nil_r.
      split; [discriminate|]. split.
      * intros Hab. apply (abandoned_app [_]) in Hab as [Hab|Hab];
          [discriminate Hab|now apply N1 in Hab].
      * apply gated_quiet. now apply (no_writes_app [_]).
    + apply bind_inv in H
        as [(ms & ev3 & s3 & ev4 & E2 & H & ->)|[(e & E2 & ->)|[E2 ->]]];
        pose proof (find_album_calm _ _ _ _ _ _ _ E2) as [C2 T2];
        pose proof (calm_quiet _ C2) as Q2;
        pose proof (calm_not_abandoned _ C2) as N2; [| |congruence].
      * apply for_matches_facts in H as (T & A & G).
        split; [assumption|]. split.
        -- intros Hab. apply (abandoned_app [_]) in Hab as [Hab|Hab];
             [discriminate Hab|].
           apply abandoned_app in Hab as [Hab|Hab]; [now apply N1 in Hab|].
           apply abandoned_app in Hab as [Hab|Hab]; [now apply N2 in Hab|].
           destruct (A Hab) as (-> & W & Hend). split; [reflexivity|]. split.
           ++ apply (no_writes_app [_]); [reflexivity|].
              apply no_writes_app; [assumption|]. now apply no_writes_app.
           ++ apply (ends_with_app _ [_]). apply ends_with_app.
              now apply ends_with_app.
        -- apply (gated_prefix _ _ [_]); [reflexivity|].
           apply gated_prefix; [assumption|]. now apply gated_prefix.
      * split; [discriminate|]. split.
        -- intros Hab. apply (abandoned_app [_]) in Hab as [Hab|Hab];
             [discriminate Hab|].
           apply abandoned_app in Hab as [Hab|Hab];
             [now apply N1 in Hab|now apply N2 in Hab].
        -- apply gated_quiet. apply (no_writes_app [_]); [reflexivity|].
           now apply no_writes_app.
  - split; [discriminate|]. split.
    + intros Hab. apply (abandoned_app [_]) in Hab as [Hab|Hab];
        [discriminate Hab|now apply N1 in Hab].
    + apply gated_quiet. now apply (no_writes_app [_]).
Qed.

Lemma exact_tier_needs_both_names_witness :
  (c_title (Scenario.cand "r1" "Alb" "Art") = Some "Alb"
   /\ exists release_artist,
        first_artist_name (c_artist_credit (Scenario.cand "r1" "Alb" "Art"))
        = Val release_artist
        /\ Some "Art" = Some release_artist)
  /\ ((first_contact
         [Asked (PromptClose (Some "alb") "Art") "n";
          Asked PromptManual EmptyString] = None
       /\ exists e, Ok None = @Raised (option release) e)
      \/ (exists a,
            first_contact
              [Asked (PromptClose (Some "alb") "Art") "n";
               Asked PromptManual EmptyString]
            = Some (Asked PromptManual a))
      \/ (exists release_artist a tl,
            [Asked (PromptClose (Some "alb") "Art") "n";
             Asked PromptManual EmptyString]
            = Asked (PromptClose (c_title (Scenario.cand "r1" "alb" "Art"))
                       release_artist) a :: tl
            /\ if String.eqb (Py.lower (Py.strip a)) "y"
               then exists tl',
                   tl = Fetching (c_id (Scenario.cand "r1" "alb" "Art")) :: tl'
               else manual_head tl = true)).
Proof.
  split.
  - destruct (exact_tier_needs_both_names
                (Scenario.world_of (Release Scenario.two_tracks))
                "Alb" (Some "Art") (Scenario.cand "r1" "Alb" "Art")
                (Scenario.start []) _ _ _ eq_refl) as [H _].
    apply H. reflexivity.
  - destruct (exact_tier_needs_both_names Scenario.world_close
                "Alb" (Some "Art") (Scenario.cand "r1" "alb" "Art")
                (Scenario.start ["n"; EmptyString]) _ _ _ eq_refl) as [_ H].
    apply H. reflexivity.
Defined.

(* ----------------------------------------------------------------- *)
(** ** Abandoning an album *)

(** C4: when the operator gives an empty answer at a prompt of manual
    resolution (the resolution prompt or its retry prompt), the processing
    of the album ends normally with that answer as its last event, no tag
    has been saved and no file renamed for the album, and the run goes on
    with the remaining albums from the state reached. *)
Theorem abandon_leaves_album_untouched :
  forall w album_name discs rest s r ev s',
  process_album w album_name discs s = (r, ev, s') ->
  abandoned ev ->
  r = Ok tt /\ no_writes ev /\ ends_with_abandon ev
  /\ process_albums w ((album_name, discs) :: rest) s
     = (let '(r2, ev2, s2) := process_albums w rest s' in
        (r2, (ev ++ ev2)%list, s2)).
Proof.
  intros w album_name discs rest s r ev s' H Hab.
  destruct (process_album_facts _ _ _ _ _ _ _ H) as (_ & A & _).
  destruct (A Hab) as (-> & W & E).
  repeat split; try assumption.
  cbn [process_albums]. unfold bind. rewrite H.
  destruct (process_albums w rest s') as [[r2 ev2] s2]. reflexivity.
Qed.

Lemma abandon_leaves_album_untouched_witness :
  no_writes [Logged (InfoProcessing "Alb"); Searched "Alb" (Some "Art");
             Asked (PromptClose (Some "alb") "Art") "n"; Asked PromptManual EmptyString]
  /\ process_albums Scenario.world_close
       [("Alb", [("1", ["in/a.mp3"; "in/b.mp3"])])]
       (Scenario.start ["n"; EmptyString; "more"])
     = (Ok tt,
        [Logged (InfoProcessing "Alb"); Searched "Alb" (Some "Art");
         Asked (PromptClose (Some "alb") "Art") "n"; Asked PromptManual EmptyString],
        {| answers := ["more"]; calls := 1 |}).
Proof.
  destruct (abandon_leaves_album_untouched Scenario.world_close "Alb"
              [("1", ["in/a.mp3"; "in/b.mp3"])] []
              (Scenario.start ["n"; EmptyString; "more"]) _ _ _ eq_refl eq_refl)
    as (_ & W & _ & R).
  split; [exact W|exact R].
Defined.

(* ----------------------------------------------------------------- *)
(** ** The structural validator *)

Lemma res_map_length : forall (A B : Type) (f : A -> res B) l l',
  res_map f l = Val l' -> List.length l' = List.length l.
Proof.
  induction l as [|x l IH]; simpl; intros l' H.
  - now inversion H.
  - destruct (f x) as [y|e]; simpl in H; [|discriminate].
    destruct (res_map f l) as [ys|e]; simpl in H; [|discriminate].
    inversion H; subst. simpl. now rewrite (IH ys eq_refl).
Qed.

Lemma media_tracks_set : forall k k' v (media : media_t),
  media_tracks k' (Dict.set k v media)
  = if String.eqb k k' then v else media_tracks k' media.
Proof.
  intros k k' v media. unfold media_tracks.
  destruct (String.eqb_spec k k') as [->|Hne].
  - now rewrite Dict_get_set_same.
  - now rewrite Dict_get_set_other.
Qed.

Lemma Dict_get_in_keys : forall (V : Type) k (v : V) d,
  Dict.get k d = Some v -> In k (Dict.keys d).
Proof.
  induction d as [|[k' v'] d IH]; simpl; [discriminate|].
  destruct (String.eqb_spec k k') as [->|Hne]; [now left|].
  intros H. right. now apply IH.
Qed.

(** What an accepting scan has established, for any starting [media]. *)
Lemma scan_media_accepted : forall discs a d ms media0 media,
  scan_media discs a d ms media0 = Val (Accepted media) ->
  (List.length media0 <= List.length discs ->
   List.length media <= List.length discs)
  /\ (forall mn, ~ In mn (map medium_number_of ms) ->
        Dict.get mn media = Dict.get mn media0)
  /\ (forall mn, In mn (map medium_number_of ms) ->
        exists files tracks,
          Dict.get mn discs = Some files /\ Dict.get mn media = Some tracks
          /\ List.length tracks = List.length files)
  /\ (forall mn, List.length (media_tracks mn media)
                 = List.length (media_tracks mn media0) + tracks_at mn ms).
Proof.
  intros discs a d. induction ms as [|m rest IH]; intros media0 media H.
  - inversion H; subst.
    split; [|split; [|split]]; simpl; auto; try tauto; intros; lia.
  - cbn [scan_media] in H. fold (medium_number_of m) in H.
    destruct (res_map (track_entry a d) (m_track_list m)) as [entries|e] eqn:Er;
      simpl in H; [|discriminate].
    set (media' := Dict.set (medium_number_of m)
                     (media_tracks (medium_number_of m) media0 ++ entries)%list
                     media0) in *.
    destruct (Nat.ltb (List.length discs) (List.length media')) eqn:El;
      [discriminate|].
    destruct (Dict.get (medium_number_of m) discs) as [files|] eqn:Ed;
      [|discriminate].
    destruct (Nat.eqb (List.length (media_tracks (medium_number_of m) media'))
                (List.length files)) eqn:Ec; simpl in H; [|discriminate].
    apply Nat.ltb_ge in El. apply Nat.eqb_eq in Ec.
    destruct (IH _ _ H) as (I1 & I2 & I3 & I4).
    assert (Hget : Dict.get (medium_number_of m) media'
                   = Some (media_tracks (medium_number_of m) media0 ++ entries)%list)
      by (unfold media'; apply Dict_get_set_same).
    split; [|split; [|split]].
    + intros _. now apply I1.
    + intros mn Hn. simpl in Hn. rewrite I2 by tauto.
      unfold media'. apply Dict_get_set_other. tauto.
    + intros mn Hin.
      destruct (in_dec string_dec mn (map medium_number_of rest)) as [Hr|Hr];
        [now apply I3|].
      destruct Hin as [<-|Hin]; [|contradiction].
      exists files, (media_tracks (medium_number_of m) media0 ++ entries)%list.
      split; [assumption|]. split; [now rewrite I2|].
      rewrite <- Ec. unfold media_tracks at 2. now rewrite Hget.
    + intros mn. rewrite I4. unfold media'. rewrite media_tracks_set.
      cbn [tracks_at]. apply res_map_length in Er.
      destruct (String.eqb_spec (medium_number_of m) mn) as [<-|Hne];
        rewrite ?length_app, ?Er; lia.
Qed.

Lemma validate_accepted : forall discs r media,
  validate discs r = Val (Accepted media) ->
  List.length (disc_positions r) <= List.length discs
  /\ forall mn, In mn (disc_positions r) ->
       exists files,
         Dict.get mn discs = Some files
         /\ track_count r mn = List.length files.
Proof.
  intros discs r media H. unfold validate in H.
  destruct (scan_media_accepted _ _ _ _ _ _ H) as (I1 & _ & I3 & I4).
  split.
  - transitivity (List.length (Dict.keys media)).
    + apply NoDup_incl_length; [apply NoDup_nodup|].
      intros mn Hin. apply nodup_In in Hin.
      destruct (I3 mn Hin) as (files & tracks & _ & Hg & _).
      eapply Dict_get_in_keys; eassumption.
    + unfold Dict.keys. rewrite length_map. apply I1. simpl. lia.
  - intros mn Hin. apply nodup_In in Hin.
    destruct (I3 mn Hin) as (files & tracks & Hd & Hg & Hl).
    exists files. split; [assumption|].
    unfold track_count. specialize (I4 mn). simpl in I4. rewrite <- I4.
    unfold media_tracks. now rewrite Hg.
Qed.

(** X19: a release the validator accepts has the shape of the local album:
    no more disc positions than local discs and, for each disc position,
    a local disc with as many files as the release has tracks there. *)
Theorem accepted_release_shape : forall discs r media,
  validate discs r = Val (Accepted media) ->
  List.length (disc_positions r) <= List.length discs
  /\ forall mn, In mn (disc_positions r) ->
       exists files,
         Dict.get mn discs = Some files
         /\ track_count r mn = List.length files.
Proof. exact validate_accepted. Qed.

(** X20: the events of an album are gated by the validator, and the album
    never runs out of fuel: the validation loop ends. *)
Theorem writes_follow_acceptance : forall w album_name discs s r ev s',
  process_album w album_name discs s = (r, ev, s') ->
  r <> OutOfFuel /\ gated w discs ev s'.
Proof.
  intros w album_name discs s r ev s' H.
  destruct (process_album_facts _ _ _ _ _ _ _ H) as (T & _ & G). now split.
Qed.

(** Whenever the validator reaches a verdict on a release with more disc
    positions than local discs, or with a disc whose track count differs
    from the file count of its local disc, the verdict is a mismatch. *)
Corollary mismatch_when_verdict : forall discs r v,
  validate discs r = Val v ->
  List.length discs < List.length (disc_positions r)
  \/ (exists mn files,
        In mn (disc_positions r) /\ Dict.get mn discs = Some files
        /\ track_count r mn <> List.length files) ->
  is_mismatch v = true.
Proof.
  intros discs r [media| |mn n k] H Hbad; try reflexivity.
  destruct (validate_accepted _ _ _ H) as [Hlen Hdisc].
  destruct Hbad as [Hbad|(mn & files & Hin & Hget & Hne)]; [lia|].
  destruct (Hdisc mn Hin) as (files' & Hget' & Hcount).
  rewrite Hget in Hget'. inversion Hget'; subst. contradiction.
Qed.

(** C1 (the program departs from the claim): the local album holds disc 2
    only and the release has discs 1 and 2, so the release has more disc
    positions than there are local discs.  The validator does not reject
    it: looking up the local disc of position 1 raises KeyError, no
    mismatch is reported, manual resolution is not entered and the
    exception leaves process_album.  Nothing is written. *)
Theorem release_disc_without_local_disc_raises :
  List.length [("2", ["in/CD 2/a.mp3"])] < List.length (disc_positions Scenario.double_album)
  /\ validate [("2", ["in/CD 2/a.mp3"])] Scenario.double_album = Exn KeyError
  /\ process_album Scenario.world_two_albums "First"
       [("2", ["in/CD 2/a.mp3"])] (Scenario.start ["x"])
     = (Raised KeyError,
        [Logged (InfoProcessing "First"); Searched "First" (Some "Art");
         Logged (InfoExact (Some "First") "Art"); Fetching (Some "r1")],
        {| answers := ["x"]; calls := 2 |}).
Proof. repeat split. simpl. lia. Qed.

(* ----------------------------------------------------------------- *)
(** ** The metadata applier *)

Lemma sort_key_exn : forall x e, sort_key x = Exn e -> e = ValueError.
Proof.
  intros x e H. unfold sort_key in H.
  destruct (Py.int _); [discriminate|]. now inversion H.
Qed.

Lemma keyed_exn : forall (l : list (string * track_metadata)) x,
  In x l -> sort_key x = Exn ValueError ->
  res_map (fun y => res_bind (sort_key y) (fun k => Val (k, y))) l
  = Exn ValueError.
Proof.
  induction l as [|y l IH]; intros x Hin Hx; [destruct Hin|].
  simpl. destruct (sort_key y) as [k|e] eqn:Ey; simpl.
  - destruct Hin as [->|Hin]; [congruence|].
    now rewrite (IH x Hin Hx).
  - now rewrite (sort_key_exn _ _ Ey).
Qed.

Lemma rstrip_digits : forall s,
  Py.all_chars Py.is_digit s = true -> Py.rstrip s = s.
Proof.
  induction s as [|c r IH]; simpl; [reflexivity|].
  intros H. apply andb_prop in H as [Hc Hr].
  rewrite (IH Hr), (digit_not_space _ Hc), andb_false_r. reflexivity.
Qed.

Lemma int_digits_digits : forall s acc b,
  Py.all_chars Py.is_digit s = true ->
  b = true \/ s <> EmptyString ->
  exists z, Py.int_digits acc b s = Some z.
Proof.
  induction s as [|c r IH]; simpl; intros acc b H Hb.
  - destruct Hb as [->|Hb]; [now exists acc|congruence].
  - apply andb_prop in H as [Hc Hr]. rewrite Hc. apply IH; auto.
Qed.

Lemma digit_not_c_space : forall c,
  Py.is_digit c = true -> Py.is_c_space c = false.
Proof. intros [[] [] [] [] [] [] [] []] H; cbv in H; try discriminate H; reflexivity. Qed.

Lemma rstrip_c_space_digits : forall s,
  Py.all_chars Py.is_digit s = true -> Py.rstrip_c_space s = s.
Proof.
  induction s as [|c r IH]; simpl; [reflexivity|].
  intros H. apply andb_prop in H as [Hc Hr].
  rewrite (IH Hr), (digit_not_c_space _ Hc), andb_false_r. reflexivity.
Qed.

Lemma isdigit_int : forall s,
  Py.isdigit s = true -> exists z, Py.int s = Some z.
Proof.
  intros [|c r] H; [discriminate|].
  unfold Py.isdigit in H. simpl in H.
  pose proof H as Hall. apply andb_prop in H as [Hc Hr].
  unfold Py.int. cbn [Py.drop_while]. rewrite (digit_not_c_space _ Hc).
  rewrite rstrip_c_space_digits by (simpl; now rewrite Hc, Hr).
  assert (Hd : exists z, Py.int_digits 0 false (String c r) = Some z).
  { apply int_digits_digits; [simpl; now rewrite Hc, Hr|right; discriminate]. }
  destruct c as [[] [] [] [] [] [] [] []]; cbv in Hc; try discriminate Hc;
    exact Hd.
Qed.

Lemma int_none_not_isdigit : forall s,
  Py.int s = None -> Py.isdigit s = false.
Proof.
  intros s H. destruct (Py.isdigit s) eqn:E; [|reflexivity].
  destruct (isdigit_int _ E) as [z Hz]. congruence.
Qed.

(** C5 (the program departs from the claim): when the text before the
    first slash of some track position of the disc is not accepted by
    int() - any text with a letter in it, for one - that text is not
    numeric and the loop body would name the file 00 with a warning; but
    the sort that opens update_metadata raises ValueError before the first
    file is touched: no warning is logged, no file gets the number 00, no
    tag is written for the sibling files either, and the exception leaves
    the function. *)
Theorem invalid_position_aborts_disc : forall w file_paths tracks s f m,
  In (f, m) (combine file_paths tracks) ->
  Py.int (Py.split_head "/" (tracknumber m)) = None ->
  track_num_of (tracknumber m) = ("00", true)
  /\ update_metadata w file_paths tracks s = (Raised ValueError, [], s).
Proof.
  intros w file_paths tracks s f m Hin Hint. split.
  - unfold track_num_of. now rewrite (int_none_not_isdigit _ Hint).
  - unfold update_metadata, sorted_by_key.
    rewrite (keyed_exn _ (f, m) Hin).
    + reflexivity.
    + unfold sort_key. simpl. now rewrite Hint.
Qed.

Lemma invalid_position_aborts_disc_witness :
  track_num_of "A1" = ("00", true)
  /\ update_metadata (Scenario.world_of (Release Scenario.two_tracks))
       ["in/a.mp3"; "in/b.mp3"]
       [Scenario.meta "2" "Song"; Scenario.meta "A1" "Intro"]
       (Scenario.start [])
     = (Raised ValueError, [], Scenario.start []).
Proof.
  apply (invalid_position_aborts_disc _ _ _ _ "in/b.mp3" (Scenario.meta "A1" "Intro")).
  - right. left. reflexivity.
  - reflexivity.
Defined.

(* ----------------------------------------------------------------- *)
(** ** The run *)

Lemma forallb_any : forall ev : list event, forallb (fun _ => true) ev = true.
Proof. induction ev; simpl; auto. Qed.

Lemma process_albums_any : forall w albums,
  emits (fun _ => true) (process_albums w albums).
Proof.
  intros w. induction albums as [|[album_name discs] rest IH]; simpl.
  - apply emits_ret.
  - apply emits_bind; [|intros _; exact IH].
    intros s r ev s' H. split; [apply forallb_any|].
    now destruct (process_album_facts _ _ _ _ _ _ _ H) as (T & _).
Qed.

(** The effectful grouper builds the albums of the pure one, prints one
    message for each file it leaves out, and does nothing else. *)
Lemma group_files_run : forall w file_paths albums s,
  group_files w albums file_paths s
  = (Ok (fold_left (add_file (open_audio w)) file_paths albums),
     flat_map (grouper_events (open_audio w)) file_paths, s).
Proof.
  intros w. induction file_paths as [|f rest IH]; intros albums s;
    [reflexivity|].
  assert (Hf : group_file w albums f s
               = (Ok (add_file (open_audio w) albums f),
                  grouper_events (open_audio w) f, s)).
  { unfold group_file, grouper_events.
    destruct (read_album_tag (open_audio w) f) eqn:E; [reflexivity| |];
      unfold add_file, bucket_of; rewrite E; reflexivity. }
  cbn [group_files fold_left flat_map]. unfold bind. now rewrite Hf, IH.
Qed.

Lemma group_files_any : forall w file_paths albums,
  emits (fun _ => true) (group_files w albums file_paths).
Proof.
  intros w file_paths albums s r ev s' H. rewrite group_files_run in H.
  inversion H; subst. split; [apply forallb_any|discriminate].
Qed.

(** The fuel of the model is never exhausted: every run of main ends,
    normally or by an exception. *)
Theorem main_ends : forall w folder s r ev s',
  main w folder s = (r, ev, s') -> r <> OutOfFuel.
Proof.
  intros w folder s r ev s' H.
  assert (E : emits (fun _ => true) (main w folder)).
  { unfold main, walk_input.
    repeat (emits_step || apply group_files_any || apply process_albums_any). }
  now destruct (E _ _ _ _ H).
Qed.

(** C6 (the program departs from the claim): the Input folder holds one
    sub-folder, CD 2, walked after it, with a track of album First and a
    track of album Second.  Each album holds disc 2 only while its release
    has discs 1 and 2.  Whichever file the folder lists first, the
    KeyError raised while the first album is validated is caught nowhere:
    main ends by that exception, the other album is never processed and
    the closing prompt is never shown. *)
Theorem uncaught_exception_aborts_run :
  (group_tracks_by_album (open_audio Scenario.world_two_albums)
     (gather_all_files Scenario.two_albums_walk)
   = [("First", [("2", ["in/CD 2/a.mp3"])]);
      ("Second", [("2", ["in/CD 2/b.mp3"])])]
   /\ main Scenario.world_two_albums (Present Scenario.two_albums_walk)
        (Scenario.start ["go"; "bye"])
      = (Raised KeyError,
         [Asked PromptStart "go"; Logged (InfoProcessing "First");
          Searched "First" (Some "Art");
          Logged (InfoExact (Some "First") "Art"); Fetching (Some "r1")],
         {| answers := ["bye"]; calls := 2 |}))
  /\ (group_tracks_by_album (open_audio Scenario.world_two_albums)
        (gather_all_files Scenario.two_albums_walk_rev)
      = [("Second", [("2", ["in/CD 2/b.mp3"])]);
         ("First", [("2", ["in/CD 2/a.mp3"])])]
      /\ main Scenario.world_two_albums (Present Scenario.two_albums_walk_rev)
           (Scenario.start ["go"; "bye"])
         = (Raised KeyError,
            [Asked PromptStart "go"; Logged (InfoProcessing "Second");
             Searched "Second" (Some "Art");
             Logged (InfoExact (Some "Second") "Art"); Fetching (Some "r1")],
            {| answers := ["bye"]; calls := 2 |})).
Proof. repeat split. Qed.

(* ----------------------------------------------------------------- *)
(** ** Manual resolution *)

(** X21: the retry prompt is shown only after an identifier was typed: on
    the free-text path the handler that shows it is never reached. *)
Lemma retry_prompt_only_for_identifiers : forall w s r ev s',
  manual_input w s = (r, ev, s') ->
  existsb is_retry_prompt ev = true ->
  exists a rest,
    answers s = a :: rest /\ is_valid_release_id (Py.strip a) = true.
Proof.
  intros w s r ev s' H.
  unfold manual_input, find_album_on_musicbrainz, fetch_full_release_details,
    call_search, call_get_release_by_id, bind, catch, input, lift, log, emit,
    ret, raise in H.
  split_run H; inversion H; subst; clear H; simpl; intros Hr;
    try discriminate Hr; eauto.
Qed.

(** C9 (the program departs from the claim): the operator types an album
    name, the search finds a candidate and the fetch of its full release
    fails with a ResponseError.  No retry prompt is shown although the
    operator has an answer ready: fetch_full_release_details has already
    turned the failure into None, manual_input announces the match and
    returns no release.  No file is changed. *)
Theorem free_text_fetch_failure_offers_no_retry :
  manual_input (Scenario.world_of FailsWithResponseError)
    (Scenario.start ["Alb"; "y"])
  = (Ok None,
     [Asked PromptManual "Alb"; Searched "Alb" None; Fetching (Some "r1");
      Logged (ErrFetchFailed (Some "r1"));
      Logged (InfoManualMatch (Some "Alb") "Art")],
     {| answers := ["y"]; calls := 2 |}).
Proof. reflexivity. Qed.

(* ================================================================= *)
(** * Properties of the code beyond the specification *)

(** ** Release identifiers *)

Lemma hex_group_some : forall n s r,
  hex_group n s = Some r ->
  exists g, s = g ++ r /\ String.length g = n /\ all_hex g = true.
Proof.
  induction n as [|n IH]; simpl; intros s r H.
  - inversion H; subst. now exists EmptyString.
  - destruct s as [|c s]; [discriminate|].
    destruct (is_hex c) eqn:Hc; [|discriminate].
    destruct (IH _ _ H) as (g & -> & Hl & Hg).
    exists (String c g). simpl. unfold all_hex in *. simpl.
    now rewrite Hc, Hg, Hl.
Qed.

Lemma hex_group_app : forall g r,
  all_hex g = true -> hex_group (String.length g) (g ++ r) = Some r.
Proof.
  unfold all_hex. induction g as [|c g IH]; simpl; intros r H; [reflexivity|].
  apply andb_prop in H as [Hc Hg]. rewrite Hc. now apply IH.
Qed.

Lemma hex_group_dash_some : forall n s r,
  hex_group_dash n s = Some r ->
  exists g, s = g ++ "-" ++ r /\ String.length g = n /\ all_hex g = true.
Proof.
  intros n s r H. unfold hex_group_dash in H.
  destruct (hex_group n s) as [t|] eqn:E; [|discriminate].
  destruct t as [|c t]; [discriminate|].
  destruct (Ascii.eqb_spec c "-") as [->|Hne].
  - inversion H; subst. apply hex_group_some in E as (g & -> & Hl & Hg).
    now exists g.
  - exfalso. destruct c as [[] [] [] [] [] [] [] []]; try discriminate H.
    now apply Hne.
Qed.

Lemma hex_group_dash_app : forall n g r,
  String.length g = n -> all_hex g = true ->
  hex_group_dash n (g ++ "-" ++ r) = Some r.
Proof.
  intros n g r <- H. unfold hex_group_dash. now rewrite (hex_group_app _ _ H).
Qed.

(** X1: is_valid_release_id accepts exactly the texts that, once stripped, are
    five groups of 8, 4, 4, 4 and 12 digits among 0-9 and a-f (capital
    letters are refused) joined by single dashes: nothing before, nothing
    after. *)
Theorem release_id_shape : forall s,
  is_valid_release_id s = true <->
  exists g1 g2 g3 g4 g5,
    Py.strip s = g1 ++ "-" ++ g2 ++ "-" ++ g3 ++ "-" ++ g4 ++ "-" ++ g5
    /\ String.length g1 = 8 /\ String.length g2 = 4 /\ String.length g3 = 4
    /\ String.length g4 = 4 /\ String.length g5 = 12
    /\ all_hex g1 = true /\ all_hex g2 = true /\ all_hex g3 = true
    /\ all_hex g4 = true /\ all_hex g5 = true.
Proof.
  intros s. unfold is_valid_release_id. split.
  - intros H.
    destruct (hex_group_dash 8 (Py.strip s)) as [s1|] eqn:E1; [|discriminate].
    destruct (hex_group_dash 4 s1) as [s2|] eqn:E2; [|discriminate].
    destruct (hex_group_dash 4 s2) as [s3|] eqn:E3; [|discriminate].
    destruct (hex_group_dash 4 s3) as [s4|] eqn:E4; [|discriminate].
    destruct (hex_group 12 s4) as [rest|] eqn:E5; [|discriminate].
    destruct rest; [|discriminate].
    apply hex_group_dash_some in E1 as (g1 & -> & L1 & H1).
    apply hex_group_dash_some in E2 as (g2 & -> & L2 & H2).
    apply hex_group_dash_some in E3 as (g3 & -> & L3 & H3).
    apply hex_group_dash_some in E4 as (g4 & -> & L4 & H4).
    apply hex_group_some in E5 as (g5 & -> & L5 & H5).
    exists g1, g2, g3, g4, g5.
    rewrite append_empty_r. repeat split; assumption.
  - intros (g1 & g2 & g3 & g4 & g5 & -> & L1 & L2 & L3 & L4 & L5
            & H1 & H2 & H3 & H4 & H5).
    rewrite (hex_group_dash_app 8 _ _ L1 H1).
    rewrite (hex_group_dash_app 4 _ _ L2 H2).
    rewrite (hex_group_dash_app 4 _ _ L3 H3).
    rewrite (hex_group_dash_app 4 _ _ L4 H4).
    rewrite <- (append_empty_r g5) at 1.
    rewrite <- L5, (hex_group_app _ _ H5). reflexivity.
Qed.

Lemma release_id_shape_witness :
  is_valid_release_id " 12345678-abcd-0f0f-abcd-1234567890ab " = true.
Proof.
  apply (proj2 (release_id_shape " 12345678-abcd-0f0f-abcd-1234567890ab ")).
  exists "12345678", "abcd", "0f0f", "abcd", "1234567890ab".
  repeat split.
Defined.

(* ----------------------------------------------------------------- *)
(** ** Clean file names *)

Lemma replacement_safe_short : forall c,
  is_unsafe c = true ->
  Py.all_chars is_safe (replacements_get replacements c "_") = true
  /\ String.length (replacements_get replacements c "_") <= 1.
Proof.
  intros [[] [] [] [] [] [] [] []] H; cbv in H; try discriminate H;
    split; cbv; auto.
Qed.

Lemma sub_unsafe_safe : forall s,
  Py.all_chars is_safe (sub_unsafe s) = true.
Proof.
  induction s as [|c s IH]; [reflexivity|]. cbn [sub_unsafe].
  destruct (is_unsafe c) eqn:Hc.
  - rewrite all_chars_app, IH.
    now rewrite (proj1 (replacement_safe_short c Hc)).
  - cbn [Py.all_chars]. unfold is_safe at 1. now rewrite Hc, IH.
Qed.

Lemma sub_unsafe_length : forall s,
  String.length (sub_unsafe s) <= String.length s.
Proof.
  induction s as [|c s IH]; [simpl; lia|]. cbn [sub_unsafe String.length].
  destruct (is_unsafe c) eqn:Hc; [|simpl; lia].
  rewrite string_length_app.
  pose proof (proj2 (replacement_safe_short c Hc)). lia.
Qed.

Lemma lstrip_all : forall p s,
  Py.all_chars p s = true -> Py.all_chars p (Py.lstrip s) = true.
Proof.
  induction s as [|c s IH]; simpl; intros H; [reflexivity|].
  destruct (Py.is_space c); [|exact H].
  apply andb_prop in H as [_ H]. now apply IH.
Qed.

Lemma rstrip_all : forall p s,
  Py.all_chars p s = true -> Py.all_chars p (Py.rstrip s) = true.
Proof.
  induction s as [|c s IH]; simpl; intros H; [reflexivity|].
  apply andb_prop in H as [Hc H].
  destruct (Py.is_empty (Py.rstrip s) && Py.is_space c); [reflexivity|].
  simpl. now rewrite Hc, IH.
Qed.

Lemma lstrip_length : forall s, String.length (Py.lstrip s) <= String.length s.
Proof.
  induction s as [|c s IH]; simpl; [lia|].
  destruct (Py.is_space c); simpl; lia.
Qed.

Lemma rstrip_length : forall s, String.length (Py.rstrip s) <= String.length s.
Proof.
  induction s as [|c s IH]; simpl; [lia|].
  destruct (Py.is_empty (Py.rstrip s) && Py.is_space c); simpl; lia.
Qed.

Lemma lstrip_idem : forall s, Py.lstrip (Py.lstrip s) = Py.lstrip s.
Proof.
  induction s as [|c s IH]; simpl; [reflexivity|].
  destruct (Py.is_space c) eqn:Hc; [exact IH|]. simpl. now rewrite Hc.
Qed.

Lemma strip_idem : forall s, Py.strip (Py.strip s) = Py.strip s.
Proof.
  intros s. unfold Py.strip.
  now rewrite lstrip_rstrip, lstrip_idem, rstrip_idem.
Qed.

Lemma clean_file_name_safe : forall s,
  Py.all_chars is_safe (clean_file_name s) = true.
Proof.
  intros s. unfold clean_file_name, Py.strip.
  apply rstrip_all, lstrip_all, sub_unsafe_safe.
Qed.

(** X2: a cleaned name holds no character of the unsafe class, has no white
    space at either end, is never longer than the text it comes from, and
    cleaning it again changes nothing. *)
Theorem clean_file_name_safe_idempotent : forall s,
  Py.all_chars is_safe (clean_file_name s) = true
  /\ Py.strip (clean_file_name s) = clean_file_name s
  /\ clean_file_name (clean_file_name s) = clean_file_name s
  /\ String.length (clean_file_name s) <= String.length s.
Proof.
  intros s. pose proof (clean_file_name_safe s) as Hsafe.
  assert (Hstrip : Py.strip (clean_file_name s) = clean_file_name s)
    by (unfold clean_file_name; apply strip_idem).
  repeat split; try assumption.
  - unfold clean_file_name at 1.
    now rewrite (sub_unsafe_safe_text _ Hsafe).
  - unfold clean_file_name, Py.strip.
    pose proof (rstrip_length (Py.lstrip (sub_unsafe s))).
    pose proof (lstrip_length (sub_unsafe s)).
    pose proof (sub_unsafe_length s). lia.
Qed.

(* ----------------------------------------------------------------- *)
(** ** The track number of a file name *)

(** X3: the number put in front of a file name is made of digits only and of
    at least two of them: it is 00, with the warning, exactly when the
    text before the first slash of the track number is not all digits,
    and that text, padded with one zero when it is a single digit,
    otherwise. *)
Theorem track_number_two_digits : forall tracknumber,
  let '(track_num, invalid) := track_num_of tracknumber in
  Py.isdigit track_num = true
  /\ 2 <= String.length track_num
  /\ if invalid
     then track_num = "00"
          /\ Py.isdigit (Py.split_head "/" tracknumber) = false
     else Py.isdigit (Py.split_head "/" tracknumber) = true
          /\ (track_num = Py.split_head "/" tracknumber
              \/ track_num = String "0" (Py.split_head "/" tracknumber)
                 /\ String.length (Py.split_head "/" tracknumber) = 1).
Proof.
  intros tracknumber. unfold track_num_of.
  destruct (Py.isdigit (Py.split_head "/" tracknumber)) eqn:E.
  - set (p := Py.split_head "/" tracknumber) in *.
    unfold Py.zfill2.
    destruct p as [|c [|c' p]]; [discriminate| |]; simpl.
    + repeat split; auto.
    + repeat split; auto. lia.
  - repeat split; auto.
Qed.

(* ----------------------------------------------------------------- *)
(** ** The file gatherer *)

Lemma endswith_app : forall a b suffix,
  Py.endswith b suffix = true -> Py.endswith (a ++ b) suffix = true.
Proof.
  induction a as [|c a IH]; simpl; intros b suffix H; [assumption|].
  rewrite (IH _ _ H). apply orb_true_r.
Qed.

Lemma endswith_path_join : forall root file suffix,
  Py.endswith file suffix = true ->
  Py.endswith (Py.path_join root file) suffix = true.
Proof.
  intros root file suffix H. unfold Py.path_join.
  assert (Hj : Py.endswith
                 (if Py.is_empty root || Py.endswith root "/"
                  then root ++ file else root ++ "/" ++ file) suffix = true).
  { destruct (Py.is_empty root || Py.endswith root "/").
    - now apply endswith_app.
    - apply endswith_app. now apply (endswith_app "/"). }
  destruct file as [|c file]; [exact Hj|].
  destruct c as [[] [] [] [] [] [] [] []]; try exact Hj; exact H.
Qed.

Lemma has_audio_extension_join : forall root file,
  has_audio_extension file = true ->
  has_audio_extension (Py.path_join root file) = true.
Proof.
  intros root file H. unfold has_audio_extension in *.
  apply orb_true_iff in H as [H|H]; [apply orb_true_iff in H as [H|H]|].
  - now rewrite (endswith_path_join _ _ _ H).
  - rewrite (endswith_path_join _ _ _ H). now rewrite orb_true_r.
  - rewrite (endswith_path_join _ _ _ H). now rewrite orb_true_r.
Qed.

Lemma gathered_paths_iff : forall walk p,
  In p (gather_all_files walk) <->
  exists root files file,
    In (root, files) walk /\ In file files
    /\ has_audio_extension file = true /\ p = Py.path_join root file.
Proof.
  intros walk p. unfold gather_all_files. rewrite in_flat_map. split.
  - intros ([root files] & Hw & Hp). apply in_map_iff in Hp as (file & <- & Hf).
    apply filter_In in Hf as [Hf He]. now exists root, files, file.
  - intros (root & files & file & Hw & Hf & He & ->).
    exists (root, files). split; [assumption|].
    apply in_map. now apply filter_In.
Qed.

(** X4: the gatherer returns the audio files of the walk and nothing else: a
    path is gathered exactly when it is a directory of the walk joined
    with one of its file names ending in .mp3, .flac or .wav, and every
    gathered path still ends in one of the three extensions. *)
Theorem gathered_paths : forall walk p,
  (In p (gather_all_files walk) <->
   exists root files file,
     In (root, files) walk /\ In file files
     /\ has_audio_extension file = true /\ p = Py.path_join root file)
  /\ (In p (gather_all_files walk) -> has_audio_extension p = true).
Proof.
  intros walk p. split; [apply gathered_paths_iff|].
  intros H. apply gathered_paths_iff in H
    as (root & files & file & _ & _ & He & ->).
  now apply has_audio_extension_join.
Qed.

Lemma gathered_paths_witness :
  In "in/CD 2/b.flac" (gather_all_files Catalog.library)
  /\ has_audio_extension "in/CD 2/b.flac" = true.
Proof.
  destruct (gathered_paths Catalog.library "in/CD 2/b.flac") as [Hiff Hext].
  assert (H : In "in/CD 2/b.flac" (gather_all_files Catalog.library)).
  { apply (proj2 Hiff). exists "in/CD 2", ["b.flac"], "b.flac".
    split; [right; left; reflexivity|].
    split; [left; reflexivity|]. split; reflexivity. }
  split; [exact H|exact (Hext H)].
Defined.

(* ----------------------------------------------------------------- *)
(** ** The grouper *)

Lemma album_and_disc_isdigit : forall file_path album_tag,
  Py.isdigit (snd (album_and_disc file_path album_tag)) = true.
Proof.
  intros. unfold album_and_disc.
  destruct (Re.album_pattern_search album_tag) eqn:Ea; simpl.
  - eapply album_pattern_search_isdigit; eassumption.
  - destruct (Re.disc_regex_search file_path) eqn:Ep.
    + eapply disc_regex_search_isdigit; eassumption.
    + reflexivity.
Qed.

Lemma bucket_of_some : forall oa f a d,
  bucket_of oa f = Some (a, d) ->
  is_supported f = true /\ Py.isdigit d = true
  /\ exists tags, oa f = Some tags.
Proof.
  intros oa f a d H. unfold bucket_of, read_album_tag in H.
  fold (is_supported f) in H.
  destruct (is_supported f); [|discriminate].
  destruct (oa f) as [tags|]; [|discriminate].
  destruct (match tags "album" with Some l => l | None => ["Unknown Album"] end)
    as [|x l]; [discriminate|].
  inversion H as [E]. split; [reflexivity|]. split; [|now exists tags].
  pose proof (album_and_disc_isdigit f x) as Hd. now rewrite E in Hd.
Qed.

Lemma Dict_set_nonempty : forall (V : Type) k (v : V) d, Dict.set k v d <> [].
Proof.
  intros V k v [|[k' v'] d]; simpl; [discriminate|].
  destruct (String.eqb k k'); discriminate.
Qed.

Lemma add_file_populated : forall oa albums f,
  populated albums -> populated (add_file oa albums f).
Proof.
  intros oa albums f Hp. unfold add_file.
  destruct (bucket_of oa f) as [[a d]|]; [|assumption].
  intros a' discs' Hin.
  apply Dict_set_in in Hin as [[-> ->]|Hin]; [|now apply (Hp a')].
  split; [apply Dict_set_nonempty|].
  intros d' fs Hd. apply Dict_set_in in Hd as [[-> ->]|Hd].
  - now destruct (match Dict.get d _ with Some f0 => f0 | None => [] end).
  - destruct (Dict.get a albums) as [discs|] eqn:E; [|destruct Hd].
    apply Dict_get_in in E. destruct (Hp _ _ E) as [_ H]. now apply (H d').
Qed.

Lemma group_populated : forall oa files,
  populated (group_tracks_by_album oa files).
Proof.
  intros oa files. unfold group_tracks_by_album.
  assert (H : forall albums, populated albums ->
                populated (fold_left (add_file oa) files albums)).
  { induction files as [|f files IH]; simpl; intros albums Hw; [assumption|].
    apply IH. now apply add_file_populated. }
  apply H. intros a discs [].
Qed.

Lemma group_entry : forall oa files a discs d fs,
  In (a, discs) (group_tracks_by_album oa files) ->
  In (d, fs) discs ->
  fs = filter (in_bucket oa a d) files
  /\ fs <> []
  /\ Py.isdigit d = true
  /\ forall f, In f fs ->
       In f files /\ is_supported f = true /\ bucket_of oa f = Some (a, d).
Proof.
  intros oa files a discs d fs Ha Hd.
  assert (Hfs : fs = filter (in_bucket oa a d) files).
  { rewrite <- bucket_group. symmetry. eapply entries_are_buckets; eassumption. }
  assert (Hne : fs <> [])
    by (destruct (group_populated oa files _ _ Ha) as [_ H]; now apply (H d)).
  assert (Hall : forall f, In f fs ->
            In f files /\ is_supported f = true /\ bucket_of oa f = Some (a, d)).
  { intros f Hf. rewrite Hfs in Hf. apply filter_In in Hf as [Hin Hb].
    apply in_bucket_iff in Hb. split; [assumption|]. split; [|assumption].
    now destruct (bucket_of_some _ _ _ _ Hb). }
  split; [assumption|]. split; [assumption|]. split; [|assumption].
  destruct fs as [|f fs]; [congruence|].
  destruct (Hall f (or_introl eq_refl)) as (_ & _ & Hb).
  now destruct (bucket_of_some _ _ _ _ Hb) as (_ & Hdig & _).
Qed.

(** X5: what the grouper never builds: an album without disc, a disc
    without file, a disc key that is not a number, a disc holding a file
    of another extension than .mp3 and .flac or a file the codec did not
    open.  The files of a disc are the input files of its bucket, in
    input order. *)
Theorem grouping_invariant : forall oa files a discs,
  In (a, discs) (group_tracks_by_album oa files) ->
  discs <> []
  /\ forall d fs, In (d, fs) discs ->
       fs = filter (in_bucket oa a d) files
       /\ fs <> []
       /\ Py.isdigit d = true
       /\ forall f, In f fs ->
            In f files /\ is_supported f = true
            /\ (exists tags, oa f = Some tags)
            /\ bucket_of oa f = Some (a, d).
Proof.
  intros oa files a discs Ha. split.
  - now destruct (group_populated oa files _ _ Ha).
  - intros d fs Hd.
    destruct (group_entry oa files a discs d fs Ha Hd) as (Hfs & Hne & Hdig & Hall).
    split; [assumption|]. split; [assumption|]. split; [assumption|].
    intros f Hf. destruct (Hall f Hf) as (Hin & Hsup & Hb).
    split; [assumption|]. split; [assumption|]. split; [|assumption].
    now destruct (bucket_of_some _ _ _ _ Hb) as (_ & _ & Ht).
Qed.

Lemma grouping_invariant_witness :
  [("1", ["in/a.mp3"]); ("2", ["in/CD 2/b.flac"])] <> []
  /\ forall d fs, In (d, fs) [("1", ["in/a.mp3"]); ("2", ["in/CD 2/b.flac"])] ->
       fs = filter (in_bucket (open_audio Catalog.world_without_match) "Alb" d)
              (gather_all_files Catalog.library)
       /\ fs <> []
       /\ Py.isdigit d = true
       /\ forall f, In f fs ->
            In f (gather_all_files Catalog.library) /\ is_supported f = true
            /\ (exists tags, open_audio Catalog.world_without_match f = Some tags)
            /\ bucket_of (open_audio Catalog.world_without_match) f
               = Some ("Alb", d).
Proof.
  apply (grouping_invariant (open_audio Catalog.world_without_match)
           (gather_all_files Catalog.library) "Alb"
           [("1", ["in/a.mp3"]); ("2", ["in/CD 2/b.flac"])]).
  left. reflexivity.
Defined.

Lemma endswith_nonempty : forall f suffix,
  Py.endswith f suffix = true -> Py.is_empty suffix = false ->
  Py.is_empty f = false.
Proof.
  intros [|c f] [|c' suffix] H Hs; try reflexivity; discriminate.
Qed.

Lemma is_supported_nonempty : forall f, is_supported f = true -> Py.is_empty f = false.
Proof.
  intros f H. unfold is_supported in H. apply orb_true_iff in H as [H|H];
    eapply endswith_nonempty; eauto.
Qed.

Lemma isdigit_nonempty : forall d, Py.isdigit d = true -> Py.is_empty d = false.
Proof.
  intros d H. unfold Py.isdigit in H. apply andb_prop in H as [H _].
  now apply negb_true_iff in H.
Qed.

(** X6: the three guards that open the loop over the albums (no disc, no file
    in the first disc, unsupported first file) never fire on an album the
    grouper built, as long as the tag codec answers as it did while
    grouping: the artist tag is read, without question to the operator
    and without write, and the catalog is searched. *)
Theorem grouped_album_reaches_search : forall w files a discs s,
  In (a, discs) (group_tracks_by_album (open_audio w) files) ->
  exists artist_name ev,
    local_artist w a discs s = (Ok (Artist artist_name), ev, s)
    /\ forallb calm ev = true.
Proof.
  intros w files a discs s Ha.
  destruct (group_populated (open_audio w) files _ _ Ha) as [Hne _].
  destruct discs as [|[d fs] discs]; [congruence|].
  destruct (group_entry (open_audio w) files a _ d fs Ha (or_introl eq_refl))
    as (_ & Hfs & Hd & Hall).
  destruct fs as [|f fs]; [congruence|].
  destruct (Hall f (or_introl eq_refl)) as (_ & Hsup & Hb).
  destruct (bucket_of_some _ _ _ _ Hb) as (_ & _ & tags & Ht).
  unfold local_artist.
  rewrite (isdigit_nonempty _ Hd), (is_supported_nonempty _ Hsup).
  fold (is_supported f). rewrite Hsup, Ht.
  destruct (tags "artist") as [[|x l]|]; eexists; eexists; split; reflexivity.
Qed.

Lemma grouped_album_reaches_search_witness :
  exists artist_name ev,
    local_artist Catalog.world_without_match "Alb"
      [("1", ["in/a.mp3"]); ("2", ["in/CD 2/b.flac"])] (Scenario.start [])
    = (Ok (Artist artist_name), ev, Scenario.start [])
    /\ forallb calm ev = true.
Proof.
  apply (grouped_album_reaches_search Catalog.world_without_match
           (gather_all_files Catalog.library)).
  left. reflexivity.
Defined.

Lemma fold_add_nothing : forall oa files acc,
  (forall f, In f files -> bucket_of oa f = None) ->
  fold_left (add_file oa) files acc = acc.
Proof.
  induction files as [|f files IH]; intros acc H; simpl; [reflexivity|].
  unfold add_file at 2. rewrite (H f (or_introl eq_refl)).
  apply IH. intros f' Hf. apply H. now right.
Qed.

Lemma read_album_tag_cases : forall oa f,
  read_album_tag oa f
  = if is_supported f then
      match oa f with
      | None => ReadFailed
      | Some tags =>
          match tags "album" with
          | None => AlbumTag "Unknown Album"
          | Some [] => ReadFailed
          | Some (a :: _) => AlbumTag a
          end
      end
    else Unsupported.
Proof.
  intros oa f. unfold read_album_tag. fold (is_supported f).
  destruct (is_supported f); [|reflexivity].
  destruct (oa f) as [tags|]; [|reflexivity].
  now destruct (tags "album") as [[|a l]|].
Qed.

Lemma left_out_file : forall oa f,
  is_supported f = false \/ oa f = None
  \/ (exists tags, oa f = Some tags /\ tags "album" = Some []) ->
  bucket_of oa f = None /\ grouper_events oa f = [skip_event f].
Proof.
  intros oa f H. unfold bucket_of, grouper_events, skip_event.
  rewrite read_album_tag_cases.
  destruct (is_supported f) eqn:Es; [|now split].
  destruct H as [H|[H|(tags & H & Ht)]]; [discriminate| |]; rewrite H.
  - now split.
  - rewrite Ht. now split.
Qed.

Lemma group_nothing : forall oa files,
  (forall f, In f files ->
     is_supported f = false \/ oa f = None
     \/ (exists tags, oa f = Some tags /\ tags "album" = Some [])) ->
  group_tracks_by_album oa files = []
  /\ flat_map (grouper_events oa) files = map skip_event files.
Proof.
  intros oa files H. split.
  - apply fold_add_nothing. intros f Hf. now apply left_out_file, H.
  - induction files as [|f files IH]; [reflexivity|]. cbn [flat_map map].
    rewrite (proj2 (left_out_file oa f (H f (or_introl eq_refl)))).
    rewrite IH; [reflexivity|]. intros f' Hf. apply H. now right.
Qed.

(** X7: a library with nothing to group gives no album and no request to
    the catalog.  When every gathered file is of another type than .mp3 and
    .flac (a .wav file), cannot be opened by the codec or has an empty
    album tag list, main shows its opening prompt, prints one message per
    gathered file - the warning for a file of another type, the error for
    a file that cannot be read - shows its closing prompt and ends
    normally.  When the Input folder is missing, main announces that it
    creates it; it then shows the closing prompt and ends normally if the
    folder could be created, and ends by OSError if it could not. *)
Theorem nothing_to_group : forall w walk s a b rest,
  answers s = a :: b :: rest ->
  (forall f, In f (gather_all_files walk) ->
     is_supported f = false \/ open_audio w f = None
     \/ (exists tags, open_audio w f = Some tags /\ tags "album" = Some [])) ->
  main w (Present walk) s
  = (Ok tt,
     (Asked PromptStart a :: map skip_event (gather_all_files walk)
      ++ [Asked PromptEnd b])%list,
     {| answers := rest; calls := calls s |})
  /\ main w (Missing true) s
     = (Ok tt,
        [Asked PromptStart a; Logged InfoCreatingFolder; Asked PromptEnd b],
        {| answers := rest; calls := calls s |})
  /\ main w (Missing false) s
     = (Raised OSError,
        [Asked PromptStart a; Logged InfoCreatingFolder],
        {| answers := b :: rest; calls := calls s |}).
Proof.
  intros w walk s a b rest Ha Hnone.
  destruct (group_nothing _ _ Hnone) as [Hg Hm].
  unfold group_tracks_by_album in Hg.
  split; [|split]; unfold main, walk_input, bind, input, log, emit, ret, raise;
    rewrite Ha; cbn [answers calls]; rewrite ?group_files_run;
    cbn [gather_all_files flat_map fold_left answers calls];
    rewrite ?Hg, ?Hm; cbn [process_albums ret answers calls app];
    try reflexivity.
Qed.

Lemma nothing_to_group_witness :
  main Catalog.world_damaged
    (Present [("in", ["c.wav"; "notes.txt"; "bad.mp3"])])
    (Scenario.start ["go"; "bye"])
  = (Ok tt,
     [Asked PromptStart "go"; Logged (WarnUnsupported "in/c.wav");
      Logged (ErrReadMetadata "in/bad.mp3"); Asked PromptEnd "bye"],
     {| answers := []; calls := 0 |})
  /\ main Catalog.world_damaged (Missing true) (Scenario.start ["go"; "bye"])
     = (Ok tt,
        [Asked PromptStart "go"; Logged InfoCreatingFolder; Asked PromptEnd "bye"],
        {| answers := []; calls := 0 |})
  /\ main Catalog.world_damaged (Missing false) (Scenario.start ["go"; "bye"])
     = (Raised OSError,
        [Asked PromptStart "go"; Logged InfoCreatingFolder],
        {| answers := ["bye"]; calls := 0 |}).
Proof.
  apply (nothing_to_group Catalog.world_damaged
           [("in", ["c.wav"; "notes.txt"; "bad.mp3"])]
           (Scenario.start ["go"; "bye"]) "go" "bye" []).
  - reflexivity.
  - intros f [<-|[<-|[]]].
    + left. reflexivity.
    + right. left. reflexivity.
Defined.

(* ----------------------------------------------------------------- *)
(** ** The sort of update_metadata *)

Section Sort.
Context {X : Type}.
Variable key : X -> res Z.

Lemma keyed_val : forall l kl,
  res_map (keyed key) l = Val kl ->
  map snd kl = l /\ Forall (fun p => key (snd p) = Val (fst p)) kl.
Proof.
  induction l as [|x l IH]; simpl; intros kl H.
  - inversion H; subst. now split.
  - unfold keyed at 1 in H. destruct (key x) as [k|e] eqn:Ek; simpl in H;
      [|discriminate].
    destruct (res_map (keyed key) l) as [kl'|e]; simpl in H; [|discriminate].
    inversion H; subst. destruct (IH _ eq_refl) as [Hm Hf].
    split; [simpl; now rewrite Hm|]. constructor; assumption.
Qed.

Lemma keyed_exn_iff : forall l,
  (exists kl, res_map (keyed key) l = Val kl) <-> forallb (key_ok key) l = true.
Proof.
  induction l as [|x l IH]; simpl.
  - split; [reflexivity|]. intros _. now exists [].
  - unfold keyed at 1, key_ok at 1. destruct (key x) as [k|e]; simpl.
    + rewrite <- IH. split; intros [kl H].
      * destruct (res_map (keyed key) l) as [kl'|e]; [now exists kl'|discriminate].
      * rewrite H. simpl. now eexists.
    + split; [intros [kl H]; discriminate|discriminate].
Qed.

Lemma insert_perm : forall (x : Z * X) l,
  Permutation (insert_by_key x l) (x :: l).
Proof.
  induction l as [|y l IH]; simpl; [reflexivity|].
  destruct (fst y <? fst x)%Z; [|reflexivity].
  rewrite IH. apply perm_swap.
Qed.

Lemma sort_perm : forall l : list (Z * X),
  Permutation (fold_right insert_by_key [] l) l.
Proof.
  induction l as [|x l IH]; simpl; [reflexivity|].
  rewrite insert_perm. now constructor.
Qed.

Lemma insert_hdrel : forall (a x : Z * X) l,
  le_key a x -> HdRel le_key a l -> HdRel le_key a (insert_by_key x l).
Proof.
  intros a x [|y l] Hax Hal; simpl; [now constructor|].
  destruct (fst y <? fst x)%Z; constructor; [now inversion Hal|assumption].
Qed.

Lemma insert_sorted : forall (x : Z * X) l,
  Sorted le_key l -> Sorted le_key (insert_by_key x l).
Proof.
  induction l as [|y l IH]; simpl; intros Hs.
  - constructor; constructor.
  - inversion Hs as [|? ? Hl Hh]; subst.
    destruct (fst y <? fst x)%Z eqn:E.
    + constructor; [now apply IH|].
      apply insert_hdrel; [|assumption]. unfold le_key. lia.
    + constructor; [assumption|]. constructor. unfold le_key. lia.
Qed.

Lemma sort_sorted : forall l : list (Z * X),
  Sorted le_key (fold_right insert_by_key [] l).
Proof.
  induction l as [|x l IH]; simpl; [constructor|now apply insert_sorted].
Qed.

Lemma insert_filter : forall k (x : Z * X) l,
  filter (fun p => Z.eqb (fst p) k) (insert_by_key x l)
  = if Z.eqb (fst x) k then x :: filter (fun p => Z.eqb (fst p) k) l
    else filter (fun p => Z.eqb (fst p) k) l.
Proof.
  induction l as [|y l IH]; simpl; [reflexivity|].
  destruct (fst y <? fst x)%Z eqn:E; simpl.
  - rewrite IH. destruct (Z.eqb_spec (fst x) k) as [Hx|Hx]; [|reflexivity].
    destruct (Z.eqb_spec (fst y) k) as [Hy|Hy]; [lia|reflexivity].
  - reflexivity.
Qed.

Lemma sort_filter : forall k (l : list (Z * X)),
  filter (fun p => Z.eqb (fst p) k) (fold_right insert_by_key [] l)
  = filter (fun p => Z.eqb (fst p) k) l.
Proof.
  induction l as [|x l IH]; simpl; [reflexivity|].
  rewrite insert_filter, IH. reflexivity.
Qed.

Lemma filter_map_snd : forall k (kl : list (Z * X)),
  Forall (fun p => key (snd p) = Val (fst p)) kl ->
  filter (key_is key k) (map snd kl)
  = map snd (filter (fun p => Z.eqb (fst p) k) kl).
Proof.
  induction kl as [|p kl IH]; simpl; intros H; [reflexivity|].
  inversion H as [|? ? Hp Hkl]; subst. unfold key_is at 1. rewrite Hp.
  destruct (Z.eqb (fst p) k); simpl; now rewrite IH.
Qed.

Lemma res_map_keys : forall kl : list (Z * X),
  Forall (fun p => key (snd p) = Val (fst p)) kl ->
  res_map key (map snd kl) = Val (map fst kl).
Proof.
  induction kl as [|p kl IH]; simpl; intros H; [reflexivity|].
  inversion H as [|? ? Hp Hkl]; subst. rewrite Hp. simpl.
  now rewrite (IH Hkl).
Qed.

Lemma sorted_map_fst : forall l : list (Z * X),
  Sorted le_key l -> Sorted Z.le (map fst l).
Proof.
  induction l as [|p l IH]; simpl; intros H; [constructor|].
  inversion H as [|? ? Hl Hh]; subst. constructor; [now apply IH|].
  destruct l; simpl; constructor. now inversion Hh.
Qed.

Lemma sorted_by_key_val : forall l l',
  sorted_by_key key l = Val l' ->
  Permutation l l'
  /\ (exists ks, res_map key l' = Val ks /\ Sorted Z.le ks)
  /\ forall k, filter (key_is key k) l' = filter (key_is key k) l.
Proof.
  intros l l' H. unfold sorted_by_key in H. fold (keyed key) in H.
  destruct (res_map (keyed key) l) as [kl|e] eqn:E; simpl in H; [|discriminate].
  inversion H; subst; clear H.
  destruct (keyed_val _ _ E) as [Hm Hf].
  assert (Hf' : Forall (fun p => key (snd p) = Val (fst p))
                  (fold_right insert_by_key [] kl)).
  { eapply Permutation_Forall; [|exact Hf]. symmetry. apply sort_perm. }
  split; [|split].
  - rewrite <- Hm. apply Permutation_map. symmetry. apply sort_perm.
  - exists (map fst (fold_right insert_by_key [] kl)).
    split; [now apply res_map_keys|]. apply sorted_map_fst, sort_sorted.
  - intros k. rewrite (filter_map_snd _ _ Hf'), sort_filter.
    rewrite <- (filter_map_snd _ _ Hf). now rewrite Hm.
Qed.

Lemma sorted_by_key_total : forall l,
  forallb (key_ok key) l = true -> exists l', sorted_by_key key l = Val l'.
Proof.
  intros l H. apply keyed_exn_iff in H as [kl Hkl].
  unfold sorted_by_key. fold (keyed key). rewrite Hkl. simpl. now eexists.
Qed.

Lemma sorted_by_key_refuses : forall l e,
  sorted_by_key key l = Exn e -> forallb (key_ok key) l = false.
Proof.
  intros l e E. destruct (forallb (key_ok key) l) eqn:F; [|reflexivity].
  destruct (sorted_by_key_total _ F) as [l' Hl']. congruence.
Qed.

End Sort.

(** X8: the sort that opens update_metadata fails exactly when the key of some
    item cannot be computed.  When it succeeds its result is a
    rearrangement of the input in which the keys never decrease, and items
    of equal key keep the order they had in the input (the sort is
    stable, as sorted() is). *)
Theorem sorted_by_key_stable_sort :
  forall (X : Type) (key : X -> res Z) (l : list X),
  match sorted_by_key key l with
  | Val l' =>
      forallb (key_ok key) l = true
      /\ Permutation l l'
      /\ (exists ks, res_map key l' = Val ks /\ Sorted Z.le ks)
      /\ forall k, filter (key_is key k) l' = filter (key_is key k) l
  | Exn _ => forallb (key_ok key) l = false
  end.
Proof.
  intros X key l. destruct (sorted_by_key key l) as [l'|e] eqn:E.
  - split; [|now apply sorted_by_key_val].
    destruct (forallb (key_ok key) l) eqn:F; [reflexivity|].
    unfold sorted_by_key in E. fold (keyed key) in E.
    destruct (res_map (keyed key) l) as [kl|] eqn:Ek; [|discriminate].
    rewrite <- F. apply keyed_exn_iff. now exists kl.
  - eapply sorted_by_key_refuses; eassumption.
Qed.

(* ----------------------------------------------------------------- *)
(** ** The metadata applier, file by file *)

Lemma update_file_run : forall w f m s,
  exists ev, update_file w f m s = (Ok tt, ev, s).
Proof.
  intros w f m s. unfold update_file, catch, bind, log, emit, ret, raise.
  destruct (track_num_of (tracknumber m)) as [track_num invalid].
  repeat match goal with
         | |- context [if ?b then _ else _] => destruct b
         | |- context [match open_audio ?w ?f with _ => _ end] =>
             destruct (open_audio w f)
         end; eexists; reflexivity.
Qed.

Lemma update_files_run : forall w pairs s,
  exists ev, update_files w pairs s = (Ok tt, ev, s).
Proof.
  induction pairs as [|[f m] pairs IH]; intros s; simpl.
  - now exists [].
  - unfold bind. destruct (update_file_run w f m s) as [ev1 ->].
    destruct (IH s) as [ev2 ->]. now eexists.
Qed.

Lemma sort_key_sorted_exn : forall l e,
  sorted_by_key sort_key l = Exn e -> e = ValueError.
Proof.
  intros l e E. unfold sorted_by_key in E.
  destruct (res_map _ l) as [kl|e'] eqn:Ek; simpl in E; [discriminate|].
  inversion E; subst. clear E. revert Ek. induction l as [|x l IH];
    simpl; [discriminate|].
  destruct (sort_key x) as [k|e0] eqn:Ex; simpl.
  - destruct (res_map _ l); simpl; [discriminate|].
    intros H. inversion H; subst. now apply IH.
  - intros H. inversion H; subst. eapply sort_key_exn; eassumption.
Qed.

(** X9: update_metadata has two outcomes only.  For track positions of at
    most 4300 characters (the digit limit of int() is then out of reach):
    when int() accepts the position of every pair, the call ends normally
    whatever happens to the files - a file that cannot be opened, saved or
    renamed is reported and the loop goes on; otherwise it raises
    ValueError before any event.  It consumes no operator answer and
    makes no catalog call. *)
Theorem update_metadata_outcome : forall w file_paths tracks s,
  (forall f m, In (f, m) (combine file_paths tracks) ->
     String.length (tracknumber m) <= 4300) ->
  if forallb (key_ok sort_key) (combine file_paths tracks)
  then exists ev, update_metadata w file_paths tracks s = (Ok tt, ev, s)
  else update_metadata w file_paths tracks s = (Raised ValueError, [], s).
Proof.
  intros w file_paths tracks s _. unfold update_metadata, bind.
  destruct (sorted_by_key sort_key (combine file_paths tracks)) as [l'|e] eqn:E.
  - destruct (forallb (key_ok sort_key) (combine file_paths tracks)) eqn:F.
    + simpl. destruct (update_files_run w l' s) as [ev ->]. now exists ev.
    + destruct (sorted_by_key_val _ _ _ E) as (Hp & (ks & Hk & _) & _).
      exfalso. apply not_true_iff_false in F. apply F.
      apply forallb_forall. intros x Hx.
      apply (Permutation_in _ Hp) in Hx. clear - Hk Hx.
      revert ks Hk. induction l' as [|y l' IH]; [destruct Hx|].
      simpl. intros ks Hk. unfold key_ok.
      destruct (sort_key y) as [k|] eqn:Ey; simpl in Hk; [|discriminate].
      destruct (res_map sort_key l') as [ks'|] eqn:Er; [|discriminate].
      destruct Hx as [<-|Hx]; [now rewrite Ey|].
      now apply (IH Hx ks').
  - rewrite (sorted_by_key_refuses _ _ _ E).
    rewrite (sort_key_sorted_exn _ _ E). reflexivity.
Qed.

Lemma update_metadata_outcome_witness :
  (exists ev,
     update_metadata (Scenario.world_of (Release Scenario.two_tracks))
       ["in/a.mp3"; "in/b.mp3"]
       [Scenario.meta "2" "Song"; Scenario.meta " 1 /2" "Intro"]
       (Scenario.start ["x"])
     = (Ok tt, ev, Scenario.start ["x"]))
  /\ update_metadata (Scenario.world_of (Release Scenario.two_tracks))
       ["in/a.mp3"; "in/b.mp3"]
       [Scenario.meta "2" "Song"; Scenario.meta "1b" "Intro"]
       (Scenario.start ["x"])
     = (Raised ValueError, [], Scenario.start ["x"]).
Proof.
  split.
  - apply (update_metadata_outcome (Scenario.world_of (Release Scenario.two_tracks))
             ["in/a.mp3"; "in/b.mp3"]
             [Scenario.meta "2" "Song"; Scenario.meta " 1 /2" "Intro"]
             (Scenario.start ["x"])).
    intros f m [E|[E|[]]]; inversion E; subst; simpl; lia.
  - apply (update_metadata_outcome (Scenario.world_of (Release Scenario.two_tracks))
             ["in/a.mp3"; "in/b.mp3"]
             [Scenario.meta "2" "Song"; Scenario.meta "1b" "Intro"]
             (Scenario.start ["x"])).
    intros f m [E|[E|[]]]; inversion E; subst; simpl; lia.
Defined.

Lemma update_file_spares : forall w f f' m',
  f' <> f ->
  new_file_path_of f' (fst (track_num_of (tracknumber m'))) (title m') <> f ->
  emits (spares f) (update_file w f' m').
Proof.
  intros w f f' m' Hne Hnew. unfold update_file.
  destruct (track_num_of (tracknumber m')) as [track_num invalid].
  simpl in Hnew.
  assert (E1 : String.eqb f' f = false) by (now apply String.eqb_neq).
  assert (E2 : String.eqb (new_file_path_of f' track_num (title m')) f = false)
    by (now apply String.eqb_neq).
  repeat (emits_step
          || (apply emits_emit; unfold spares; simpl; now rewrite ?E1, ?E2)).
Qed.

Lemma update_files_spares : forall w f pairs,
  (forall f' m', In (f', m') pairs ->
     f' <> f
     /\ new_file_path_of f' (fst (track_num_of (tracknumber m'))) (title m') <> f) ->
  emits (spares f) (update_files w pairs).
Proof.
  induction pairs as [|[f' m'] pairs IH]; intros H; simpl.
  - apply emits_ret.
  - apply emits_bind.
    + destruct (H f' m' (or_introl eq_refl)). now apply update_file_spares.
    + intros _. apply IH. intros f2 m2 Hin. apply H. now right.
Qed.

Lemma update_file_saves_first : forall w f m s a,
  is_supported f = true -> open_audio w f = Some a -> save_ok w f = true ->
  exists ev1 ev2,
    update_file w f m s = (Ok tt, (ev1 ++ TagsSaved f (tags_of m) :: ev2)%list, s)
    /\ forallb (spares f) ev1 = true.
Proof.
  intros w f m s a Hs Ho Hk. unfold update_file. fold (is_supported f).
  rewrite Hs, Ho, Hk. unfold catch, bind, log, emit, ret, raise.
  destruct (track_num_of (tracknumber m)) as [track_num invalid].
  destruct (String.eqb (album m) "Unknown Album").
  - exists [Logged (DebugMetadata m); Logged (InfoSkipAlbumTag f)].
    repeat match goal with
           | |- context [if ?b then _ else _] => destruct b
           end; eexists; split; reflexivity.
  - exists [Logged (DebugMetadata m)].
    repeat match goal with
           | |- context [if ?b then _ else _] => destruct b
           end; eexists; split; reflexivity.
Qed.

Lemma update_files_app : forall w l1 l2 s,
  exists ev1 ev2,
    update_files w l1 s = (Ok tt, ev1, s)
    /\ update_files w l2 s = (Ok tt, ev2, s)
    /\ update_files w (l1 ++ l2) s = (Ok tt, (ev1 ++ ev2)%list, s).
Proof.
  induction l1 as [|[f m] l1 IH]; intros l2 s.
  - destruct (update_files_run w l2 s) as [ev2 E]. exists [], ev2. now rewrite E.
  - destruct (IH l2 s) as (ev1 & ev2 & E1 & E2 & E).
    destruct (update_file_run w f m s) as [ev0 E0].
    exists (ev0 ++ ev1)%list, ev2. cbn [app update_files]. unfold bind.
    rewrite E0, E1, E2, E. now rewrite app_assoc.
Qed.

Lemma nodup_paths : forall (fs : list string) (ms : list track_metadata),
  NoDup fs -> NoDup (map fst (combine fs ms)).
Proof.
  induction fs as [|f fs IH]; intros ms H; [constructor|].
  destruct ms as [|m ms]; [constructor|]. simpl.
  inversion H as [|? ? Hn Hd]; subst. constructor; [|now apply IH].
  intros Hin. apply Hn. apply in_map_iff in Hin as ([f' m'] & <- & Hin).
  now apply in_combine_l in Hin.
Qed.

(** X10: no file is left behind because of another one.  The file system
    is read through the oracles of the world, which describe the files as
    they are when update_metadata is called.  When the paths handed over
    are distinct and no other file of the call is renamed onto the path
    of a file, nothing is written at that path before the file's turn:
    no save, no rename from it or onto it.  The file the oracles describe
    is then the one that is opened, and, once the sort has succeeded, a
    paired file of a supported extension that the codec opens and saves
    gets the tags of its own track written, whatever fails for the other
    files.  The track positions have at most 4300 characters, so that the
    digit limit of int() is out of reach. *)
Theorem every_file_is_tagged : forall w file_paths tracks s f m a,
  (forall f' m', In (f', m') (combine file_paths tracks) ->
     String.length (tracknumber m') <= 4300) ->
  NoDup file_paths ->
  (forall f' m', In (f', m') (combine file_paths tracks) -> f' <> f ->
     new_file_path_of f' (fst (track_num_of (tracknumber m'))) (title m') <> f) ->
  forallb (key_ok sort_key) (combine file_paths tracks) = true ->
  In (f, m) (combine file_paths tracks) ->
  is_supported f = true -> open_audio w f = Some a -> save_ok w f = true ->
  exists before after,
    update_metadata w file_paths tracks s
    = (Ok tt, (before ++ TagsSaved f (tags_of m) :: after)%list, s)
    /\ forallb (spares f) before = true.
Proof.
  intros w file_paths tracks s f m a _ Hnd Hfree Hkeys Hin Hs Ho Hk.
  destruct (sorted_by_key_total _ _ Hkeys) as [l' Hl'].
  destruct (sorted_by_key_val _ _ _ Hl') as (Hp & _).
  unfold update_metadata, bind. rewrite Hl'. simpl.
  assert (Hnd' : NoDup (map fst l')).
  { eapply Permutation_NoDup; [apply Permutation_map; exact Hp|].
    now apply nodup_paths. }
  destruct (in_split _ _ (Permutation_in _ Hp Hin)) as (l1 & l2 & ->).
  destruct (update_files_app w l1 ((f, m) :: l2) s) as (ev1 & ev2 & E1 & E2 & ->).
  cbn [update_files] in E2. unfold bind in E2.
  destruct (update_file_saves_first w f m s a Hs Ho Hk) as (e1 & e2 & Ef & He1).
  rewrite Ef in E2. destruct (update_files_run w l2 s) as [ev3 E3].
  rewrite E3 in E2. inversion E2; subst ev2.
  exists (ev1 ++ e1)%list, (e2 ++ ev3)%list. split.
  - f_equal. f_equal. rewrite <- !app_assoc. reflexivity.
  - rewrite forallb_app, He1, andb_true_r.
    assert (Hoff : emits (spares f) (update_files w l1)).
    { apply update_files_spares. intros f' m' Hin'.
      assert (Hne : f' <> f).
      { intros ->. rewrite map_app in Hnd'. simpl in Hnd'.
        apply NoDup_remove_2 in Hnd'. apply Hnd'. apply in_or_app. left.
        now apply (in_map fst) in Hin'. }
      split; [assumption|]. apply Hfree; [|assumption].
      apply (Permutation_in _ (Permutation_sym Hp)). apply in_or_app. now left. }
    now destruct (Hoff _ _ _ _ E1).
Qed.

Lemma every_file_is_tagged_witness :
  exists before after,
    update_metadata (Scenario.world_of (Release Scenario.two_tracks))
      ["in/a.mp3"; "in/b.flac"; "in/notes.txt"]
      [Scenario.meta "2" "Song"; Scenario.meta "1" "Intro";
       Scenario.meta "3" "Outro"] (Scenario.start [])
    = (Ok tt,
       (before ++ TagsSaved "in/a.mp3" (tags_of (Scenario.meta "2" "Song"))
               :: after)%list,
       Scenario.start [])
    /\ forallb (spares "in/a.mp3") before = true.
Proof.
  apply (every_file_is_tagged _ _ _ _ "in/a.mp3" (Scenario.meta "2" "Song")
           (Scenario.tags "Alb" "Art")).
  - intros f' m' [E|[E|[E|[]]]]; inversion E; subst; simpl; lia.
  - repeat constructor; simpl; intuition discriminate.
  - intros f' m' [E|[E|[E|[]]]] Hne; inversion E; subst;
      [congruence| |]; vm_compute; discriminate.
  - reflexivity.
  - left. reflexivity.
  - reflexivity.
  - reflexivity.
  - reflexivity.
Defined.

(* ----------------------------------------------------------------- *)
(** ** Writes stay inside the album *)

Lemma touches_in : forall files f, In f files -> existsb (String.eqb f) files = true.
Proof.
  intros files f H. apply existsb_exists. exists f. split; [assumption|].
  apply String.eqb_refl.
Qed.

Lemma quiet_touches : forall files ev,
  no_writes ev -> forallb (touches files) ev = true.
Proof.
  unfold no_writes. induction ev as [|e ev IH]; simpl; [reflexivity|].
  intros H. apply andb_prop in H as [He Hev]. rewrite (IH Hev), andb_true_r.
  destruct e; try reflexivity; discriminate.
Qed.

Lemma touches_incl : forall files files' e,
  incl files files' -> touches files e = true -> touches files' e = true.
Proof.
  intros files files' e Hi. destruct e; simpl; auto;
    intros H; apply existsb_exists in H as (x & Hx & E);
    apply String.eqb_eq in E; subst; apply touches_in; now apply Hi.
Qed.

Lemma update_file_touches : forall w files f m,
  In f files -> emits (touches files) (update_file w f m).
Proof.
  intros w files f m Hin. unfold update_file.
  destruct (track_num_of (tracknumber m)) as [track_num invalid].
  repeat (emits_step
          || (apply emits_emit; simpl; now apply touches_in)).
Qed.

Lemma update_files_touches : forall w files pairs,
  (forall f m, In (f, m) pairs -> In f files) ->
  emits (touches files) (update_files w pairs).
Proof.
  induction pairs as [|[f m] pairs IH]; intros H; simpl.
  - apply emits_ret.
  - apply emits_bind.
    + apply update_file_touches. apply (H f m). now left.
    + intros _. apply IH. intros f' m' Hin. apply (H f' m'). now right.
Qed.

Lemma update_metadata_touches : forall w fs ms,
  emits (touches fs) (update_metadata w fs ms).
Proof.
  intros w fs ms s r ev s' H. unfold update_metadata in H.
  apply bind_inv in H
    as [(l' & ev1 & s1 & ev2 & Hl & H & ->)|[(e & Hl & ->)|[Hl ->]]];
    apply lift_inv in Hl as (-> & -> & Hr).
  - destruct (sorted_by_key sort_key (combine fs ms)) as [l|e] eqn:E;
      inversion Hr; subst.
    apply sorted_by_key_val in E as (Hp & _).
    revert H. apply update_files_touches.
    intros f m Hin. apply (Permutation_in _ (Permutation_sym Hp)) in Hin.
    now apply in_combine_l in Hin.
  - split; [reflexivity|discriminate].
  - destruct (sorted_by_key sort_key (combine fs ms)); discriminate.
Qed.

Lemma emits_weaken : forall A (P Q : event -> bool) (m : M A),
  (forall e, P e = true -> Q e = true) -> emits P m -> emits Q m.
Proof.
  intros A P Q m HPQ Hm s r ev s' H. destruct (Hm _ _ _ _ H) as [Hev Hr].
  split; [|assumption]. clear - HPQ Hev.
  induction ev as [|e ev IH]; simpl in *; [reflexivity|].
  apply andb_prop in Hev as [He Hev]. now rewrite (HPQ _ He), IH.
Qed.

Lemma apply_media_touches : forall w discs media,
  emits (touches (album_files discs)) (apply_media w discs media).
Proof.
  intros w discs. induction media as [|[mn tm] media IH]; simpl.
  - apply emits_ret.
  - destruct (Dict.get mn discs) as [files|] eqn:E; [|apply emits_raise].
    apply emits_bind; [|intros _; exact IH].
    apply (emits_weaken _ (touches files)); [|apply update_metadata_touches].
    intros e. apply touches_incl. intros f Hf.
    apply Dict_get_in in E. unfold album_files. apply in_concat.
    exists files. split; [|assumption]. now apply (in_map snd) in E.
Qed.

(** X11: whatever the catalog and the operator answer, the only files an album
    run saves tags to or renames are files of that album: every write
    event names, as the file it changes, a path of one of the album's
    discs. *)
Theorem writes_stay_in_album : forall w album_name discs s,
  let '(_, ev, _) := process_album w album_name discs s in
  forallb (touches (album_files discs)) ev = true.
Proof.
  intros w album_name discs s.
  destruct (process_album w album_name discs s) as [[r ev] s'] eqn:H.
  destruct (process_album_facts _ _ _ _ _ _ _ H)
    as (_ & _ & pre & post & -> & Hpre & Hpost).
  rewrite forallb_app, (quiet_touches _ _ Hpre). simpl.
  destruct Hpost as [->|(rel & media & s1 & r1 & _ & Ha)]; [reflexivity|].
  now destruct (apply_media_touches _ _ _ _ _ _ _ Ha).
Qed.

(* ----------------------------------------------------------------- *)
(** ** The new path of a file *)

Lemma mem_char_app : forall c a b,
  Py.mem_char c (a ++ b) = Py.mem_char c a || Py.mem_char c b.
Proof.
  induction a as [|d a IH]; intros b; [reflexivity|].
  cbn [append Py.mem_char]. now rewrite IH, orb_assoc.
Qed.

Lemma safe_no_slash : forall s,
  Py.all_chars is_safe s = true -> Py.mem_char "/" s = false.
Proof.
  induction s as [|c s IH]; [reflexivity|]. cbn [Py.all_chars Py.mem_char].
  intros H. apply andb_prop in H as [Hc Hs]. rewrite (IH Hs), orb_false_r.
  destruct (Ascii.eqb_spec "/"%char c) as [<-|]; [discriminate Hc|reflexivity].
Qed.

Lemma upto_no_slash : forall b,
  Py.mem_char "/" b = false -> Py.upto_last_slash b = EmptyString.
Proof.
  induction b as [|c b IH]; [reflexivity|].
  cbn [Py.mem_char Py.upto_last_slash]. intros H.
  apply orb_false_iff in H as [Hc Hb]. rewrite Hb.
  rewrite Ascii.eqb_sym, Hc. reflexivity.
Qed.

Lemma upto_app_slash : forall a b,
  Py.mem_char "/" b = false ->
  Py.upto_last_slash (a ++ String "/" b) = a ++ "/".
Proof.
  induction a as [|c a IH]; intros b Hb.
  - cbn [append Py.upto_last_slash]. rewrite Hb. reflexivity.
  - cbn [append Py.upto_last_slash]. rewrite (IH b Hb).
    rewrite mem_char_app. cbn [Py.mem_char].
    rewrite Ascii.eqb_refl. simpl. now rewrite orb_true_r.
Qed.

Lemma endswith_slash_split : forall d,
  Py.endswith d "/" = true -> exists d', d = d' ++ "/".
Proof.
  induction d as [|c d IH]; [discriminate|]. cbn [Py.endswith].
  intros H. apply orb_true_iff in H as [H|H].
  - apply String.eqb_eq in H. exists EmptyString. exact H.
  - destruct (IH H) as [d' ->]. now exists (String c d').
Qed.

Lemma all_slash_endswith : forall d,
  all_slash d = true -> Py.is_empty d = false -> Py.endswith d "/" = true.
Proof.
  unfold all_slash. induction d as [|c d IH]; [discriminate|].
  cbn [Py.all_chars Py.endswith]. intros H _.
  apply andb_prop in H as [Hc Hd]. apply Ascii.eqb_eq in Hc. subst c.
  destruct d as [|c' d]; [reflexivity|].
  rewrite (IH Hd eq_refl). apply orb_true_r.
Qed.

Lemma rstrip_slash_app : forall d,
  Py.endswith d "/" = false -> Py.rstrip_slash (d ++ "/") = d.
Proof.
  induction d as [|c d IH]; [reflexivity|]. cbn [Py.endswith append Py.rstrip_slash].
  intros H. apply orb_false_iff in H as [Hc Hd]. rewrite (IH Hd).
  destruct d as [|c' d]; [|reflexivity]. simpl.
  destruct (Ascii.eqb_spec c "/") as [->|]; [discriminate Hc|reflexivity].
Qed.

Lemma rstrip_slash_trailing : forall h,
  Py.endswith (Py.rstrip_slash h) "/" = false.
Proof.
  induction h as [|c h IH]; [reflexivity|]. cbn [Py.rstrip_slash].
  destruct (Py.is_empty (Py.rstrip_slash h) && Ascii.eqb c "/") eqn:E;
    [reflexivity|].
  cbn [Py.endswith]. rewrite IH, orb_false_r.
  destruct (Py.rstrip_slash h) as [|c' r]; [|simpl; now destruct (Ascii.eqb c "/")].
  simpl in E. simpl. now rewrite E.
Qed.

Lemma dirname_canonical : forall f, canonical (Py.dirname f).
Proof.
  intros f. unfold Py.dirname, canonical. fold (all_slash (Py.upto_last_slash f)).
  destruct (all_slash (Py.upto_last_slash f)) eqn:E; [now left|right].
  apply rstrip_slash_trailing.
Qed.

Lemma path_join_no_slash : forall d b,
  Py.mem_char "/" b = false ->
  Py.path_join d b
  = if Py.is_empty d || Py.endswith d "/" then d ++ b else d ++ "/" ++ b.
Proof.
  intros d [|c b] H; [reflexivity|]. unfold Py.path_join.
  destruct c as [[] [] [] [] [] [] [] []]; try reflexivity. discriminate H.
Qed.

Lemma dirname_join : forall d b,
  canonical d -> Py.mem_char "/" b = false ->
  Py.dirname (Py.path_join d b) = d.
Proof.
  intros d b Hc Hb. rewrite (path_join_no_slash _ _ Hb). unfold Py.dirname.
  destruct (Py.is_empty d) eqn:Ee.
  - destruct d; [|discriminate]. simpl. now rewrite (upto_no_slash _ Hb).
  - simpl. destruct (Py.endswith d "/") eqn:Es.
    + destruct Hc as [Hc|Hc]; [|congruence].
      destruct (endswith_slash_split _ Es) as [d' ->].
      assert (Ha : (d' ++ "/") ++ b = d' ++ String "/" b).
      { clear. induction d' as [|c d' IH]; simpl; [reflexivity|now rewrite IH]. }
      rewrite Ha, (upto_app_slash _ _ Hb).
      fold (all_slash (d' ++ "/")). now rewrite Hc.
    + change ("/" ++ b) with (String "/" b).
      rewrite (upto_app_slash _ _ Hb).
      fold (all_slash (d ++ "/")).
      destruct (all_slash (d ++ "/")) eqn:Ea.
      * exfalso. unfold all_slash in Ea. rewrite all_chars_app in Ea.
        apply andb_prop in Ea as [Ea _].
        rewrite (all_slash_endswith _ Ea Ee) in Es. discriminate.
      * now apply rstrip_slash_app.
Qed.

Lemma endswith_mem : forall r c e,
  Py.endswith r (String c e) = true -> Py.mem_char c r = true.
Proof.
  induction r as [|d r IH]; [discriminate|]. cbn [Py.endswith Py.mem_char].
  intros c e H. apply orb_true_iff in H as [H|H].
  - apply String.eqb_eq in H. inversion H; subst. now rewrite Ascii.eqb_refl.
  - rewrite (IH _ _ H). apply orb_true_r.
Qed.

Lemma split_last_suffix : forall f e,
  Py.endswith f (String "." e) = true -> Py.mem_char "." e = false ->
  Py.split_last "." f = e.
Proof.
  induction f as [|c f IH]; [discriminate|]. cbn [Py.endswith Py.split_last].
  intros e H He. destruct (Py.endswith f (String "." e)) eqn:Ef.
  - rewrite (endswith_mem _ _ _ Ef). now apply IH.
  - rewrite orb_false_r in H. apply String.eqb_eq in H. inversion H; subst.
    now rewrite He.
Qed.

Lemma endswith_refl : forall s, Py.endswith s s = true.
Proof. intros [|c s]; simpl; [reflexivity|]. now rewrite Ascii.eqb_refl, String.eqb_refl. Qed.

Lemma new_path_extension : forall f track_num title_text e,
  Py.endswith f (String "." e) = true -> Py.mem_char "." e = false ->
  Py.mem_char "/" e = false ->
  Py.dirname (new_file_path_of f track_num title_text) = Py.dirname f
  /\ Py.endswith (new_file_path_of f track_num title_text) (String "." e) = true
  /\ Py.split_last "." (new_file_path_of f track_num title_text) = e.
Proof.
  intros f track_num title_text e Hf He Hs. unfold new_file_path_of.
  rewrite (split_last_suffix _ _ Hf He).
  assert (Hend : Py.endswith
                   (Py.path_join (Py.dirname f)
                      (clean_file_name (track_num ++ " - " ++ title_text)
                       ++ "." ++ e)) (String "." e) = true).
  { apply endswith_path_join, endswith_app. apply endswith_refl. }
  split; [|split; [exact Hend|now apply split_last_suffix]].
  apply dirname_join; [apply dirname_canonical|].
  rewrite mem_char_app. simpl. rewrite Hs, orb_false_r.
  apply safe_no_slash, clean_file_name_safe.
Qed.

(** X12: a rename never moves a file and never changes its type: for a file
    ending in .mp3 or .flac, whatever the track number and the title are
    (slashes and dots included), the new path is in the directory of the
    old one and ends in the same extension. *)
Theorem renamed_path_keeps_directory_and_extension :
  forall f track_num title_text,
  Py.endswith f ".mp3" || Py.endswith f ".flac" = true ->
  Py.dirname (new_file_path_of f track_num title_text) = Py.dirname f
  /\ Py.split_last "." (new_file_path_of f track_num title_text)
     = Py.split_last "." f
  /\ Py.endswith (new_file_path_of f track_num title_text) ".mp3"
     || Py.endswith (new_file_path_of f track_num title_text) ".flac" = true.
Proof.
  intros f track_num title_text H. apply orb_true_iff in H as [H|H].
  - destruct (new_path_extension f track_num title_text "mp3" H eq_refl eq_refl)
      as (Hd & He & Hx).
    split; [assumption|]. split; [|now rewrite He].
    now rewrite Hx, (split_last_suffix _ _ H eq_refl).
  - destruct (new_path_extension f track_num title_text "flac" H eq_refl eq_refl)
      as (Hd & He & Hx).
    split; [assumption|]. split; [|rewrite He; apply orb_true_r].
    now rewrite Hx, (split_last_suffix _ _ H eq_refl).
Qed.

Lemma renamed_path_keeps_directory_and_extension_witness :
  Py.dirname (new_file_path_of "in/CD 2/b.flac" "01" "AC/DC: Live?")
  = Py.dirname "in/CD 2/b.flac"
  /\ Py.split_last "." (new_file_path_of "in/CD 2/b.flac" "01" "AC/DC: Live?")
     = Py.split_last "." "in/CD 2/b.flac"
  /\ Py.endswith (new_file_path_of "in/CD 2/b.flac" "01" "AC/DC: Live?") ".mp3"
     || Py.endswith (new_file_path_of "in/CD 2/b.flac" "01" "AC/DC: Live?") ".flac"
     = true.
Proof.
  apply (renamed_path_keeps_directory_and_extension "in/CD 2/b.flac" "01"
           "AC/DC: Live?").
  reflexivity.
Defined.

(* ----------------------------------------------------------------- *)
(** ** Manual resolution, in general *)

Lemma manual_input_bounds : forall w s r ev s',
  manual_input w s = (r, ev, s') ->
  no_writes ev
  /\ List.length (answers s') <= List.length (answers s)
     <= List.length (answers s') + 2
  /\ calls s <= calls s' <= calls s + 2
  /\ List.length (filter is_asked ev) + List.length (answers s')
     = List.length (answers s)
  /\ List.length (filter is_fetching ev) <= 1
  /\ match r with
     | Ok (Some _) => existsb is_fetching ev = true
     | Ok None => True
     | Raised e => manual_exn e = true
     | OutOfFuel => False
     end.
Proof.
  intros w s r ev s' H.
  unfold manual_input, find_album_on_musicbrainz, fetch_full_release_details,
    call_search, call_get_release_by_id, bind, catch, input, lift, log, emit,
    ret, raise in H.
  split_run H; inversion H; subst; clear H; rewrite_answers; simpl;
    repeat split; try reflexivity; try lia.
  all: try match goal with
       | E : first_artist_name _ = Exn _ |- _ =>
           unfold first_artist_name in E;
           repeat match type of E with
                  | context [match ?x with _ => _ end] => destruct x
                  end; inversion E; reflexivity
       end.
Qed.

(** X13: one call of manual_input, for every catalog and every operator: it
    changes no file, reads one or two answers and never gives one back
    (each question shown consumes one answer), makes at most two catalog
    calls of which at most one fetch, returns a release only after a
    fetch, and the only exceptions that leave it are EOFError (script
    exhausted), NetworkError (identifier path) and IndexError (empty
    artist-credit list). *)
Theorem manual_input_bounded : forall w s,
  let '(r, ev, s') := manual_input w s in
  no_writes ev
  /\ List.length (answers s') <= List.length (answers s)
     <= List.length (answers s') + 2
  /\ calls s <= calls s' <= calls s + 2
  /\ List.length (filter is_asked ev) + List.length (answers s')
     = List.length (answers s)
  /\ List.length (filter is_fetching ev) <= 1
  /\ match r with
     | Ok (Some _) => existsb is_fetching ev = true
     | Ok None => True
     | Raised e => manual_exn e = true
     | OutOfFuel => False
     end.
Proof.
  intros w s. destruct (manual_input w s) as [[r ev] s'] eqn:H.
  eapply manual_input_bounds; eassumption.
Qed.

Lemma valid_id_nonempty : forall x,
  is_valid_release_id x = true -> Py.is_empty (Py.strip x) = false.
Proof.
  intros x H. unfold is_valid_release_id in H.
  destruct (Py.strip x); [discriminate H|reflexivity].
Qed.

(** X14: the identifier path of manual_input, in full.  When the operator types
    a release identifier, the catalog is not searched and the release is
    fetched under the stripped identifier: a release is returned as it
    is; a ResponseError is reported and the retry question is asked, but
    its answer is not used - y or n, nothing is fetched again and no
    release is returned; a NetworkError is not caught. *)
Theorem identifier_path : forall w s id rest,
  answers s = id :: rest ->
  is_valid_release_id (Py.strip id) = true ->
  manual_input w s
  = match get_release_by_id w (calls s) (Some (Py.strip id)) with
    | Release rel =>
        (Ok (Some rel),
         [Asked PromptManual id; Fetching (Some (Py.strip id))],
         {| answers := rest; calls := S (calls s) |})
    | FailsWithResponseError =>
        match rest with
        | [] =>
            (Raised EOFError,
             [Asked PromptManual id; Fetching (Some (Py.strip id));
              Logged ErrFetchFailedManual],
             {| answers := []; calls := S (calls s) |})
        | a :: rest' =>
            (Ok None,
             [Asked PromptManual id; Fetching (Some (Py.strip id));
              Logged ErrFetchFailedManual; Asked PromptRetry a],
             {| answers := rest'; calls := S (calls s) |})
        end
    | FailsWithNetworkError =>
        (Raised NetworkError,
         [Asked PromptManual id; Fetching (Some (Py.strip id))],
         {| answers := rest; calls := S (calls s) |})
    end.
Proof.
  intros w s id rest Ha Hv.
  pose proof (valid_id_nonempty _ Hv) as Hne. rewrite strip_idem in Hne.
  unfold manual_input, bind, catch, input, call_get_release_by_id, log, emit,
    ret, raise.
  rewrite Ha. simpl. rewrite Hne, Hv. simpl.
  destruct (get_release_by_id w (calls s) (Some (Py.strip id))); simpl;
    try reflexivity.
  destruct rest as [|a rest']; simpl; [reflexivity|].
  destruct (negb (Py.lower (Py.strip a) =? "y")); reflexivity.
Qed.

Lemma identifier_path_witness :
  manual_input Catalog.world_without_match
    (Scenario.start [Catalog.release_id; "y"])
  = (Ok None,
     [Asked PromptManual Catalog.release_id;
      Fetching (Some Catalog.release_id);
      Logged ErrFetchFailedManual; Asked PromptRetry "y"],
     {| answers := []; calls := 1 |}).
Proof.
  apply (identifier_path Catalog.world_without_match
           (Scenario.start [Catalog.release_id; "y"]) Catalog.release_id ["y"]).
  - reflexivity.
  - reflexivity.
Defined.

(* ----------------------------------------------------------------- *)
(** ** An album the catalog does not know *)

Lemma local_artist_run : forall w album_name discs s,
  exists a ev,
    local_artist w album_name discs s = (Ok a, ev, s)
    /\ forallb idle ev = true.
Proof.
  intros w album_name discs s. unfold local_artist, bind, log, emit, ret.
  repeat match goal with
         | |- context [match ?x with _ => _ end] =>
             lazymatch x with
             | context [match _ with _ => _ end] => fail
             | _ => destruct x
             end
         end; eexists; eexists; split; reflexivity.
Qed.

(** X16: when the search for an album fails or finds no candidate, the album is
    passed over in silence: no question is asked (manual resolution is not
    offered), nothing is fetched, no file is changed, at most one catalog
    call is made and the run goes on normally. *)
Theorem no_candidate_leaves_album_untouched : forall w album_name discs s,
  (forall n artist_name,
     search_releases w n album_name artist_name = SearchFailed
     \/ search_releases w n album_name artist_name = Found []) ->
  let '(r, ev, s') := process_album w album_name discs s in
  r = Ok tt /\ forallb idle ev = true /\ answers s' = answers s
  /\ calls s' <= S (calls s).
Proof.
  intros w album_name discs s Hsearch.
  unfold process_album, bind, log, emit.
  destruct (local_artist_run w album_name discs s) as (a & ev & -> & Hev).
  destruct a as [|artist_name].
  - simpl. rewrite app_nil_r. repeat split; auto.
  - unfold find_album_on_musicbrainz, call_search, bind, log, emit, ret.
    destruct (Hsearch (calls s) artist_name) as [-> | ->]; simpl;
      rewrite forallb_app, Hev; repeat split; auto.
Qed.

Lemma no_candidate_leaves_album_untouched_witness :
  let '(r, ev, s') :=
    process_album Catalog.world_without_match "Alb"
      [("1", ["in/a.mp3"])] (Scenario.start ["x"]) in
  r = Ok tt /\ forallb idle ev = true
  /\ answers s' = answers (Scenario.start ["x"])
  /\ calls s' <= S (calls (Scenario.start ["x"])).
Proof.
  apply (no_candidate_leaves_album_untouched Catalog.world_without_match "Alb"
           [("1", ["in/a.mp3"])] (Scenario.start ["x"])).
  intros n artist_name. right. reflexivity.
Defined.

(* ----------------------------------------------------------------- *)
(** ** Completeness of the validator *)

Lemma track_entries_total : forall a d tracks,
  forallb credited tracks = true ->
  exists entries,
    res_map (track_entry a d) tracks = Val entries
    /\ List.length entries = List.length tracks.
Proof.
  induction tracks as [|t tracks IH]; simpl; intros H.
  - now exists [].
  - apply andb_prop in H as [Ht Hts]. destruct (IH Hts) as (entries & -> & Hl).
    unfold credited in Ht. unfold track_entry at 1, first_artist_name.
    destruct (t_artist_credit t) as [[|[n|] l]|]; try discriminate Ht;
      simpl; eexists; split; try reflexivity; simpl; now rewrite Hl.
Qed.

Lemma Dict_get_none : forall (V : Type) k (d : Dict.t V),
  ~ In k (Dict.keys d) -> Dict.get k d = None.
Proof.
  induction d as [|[k' v] d IH]; simpl; intros H; [reflexivity|].
  destruct (String.eqb_spec k k') as [->|Hne]; [tauto|]. apply IH. tauto.
Qed.

Lemma Dict_set_new : forall (V : Type) k (v : V) d,
  ~ In k (Dict.keys d) -> Dict.set k v d = (d ++ [(k, v)])%list.
Proof.
  induction d as [|[k' v'] d IH]; simpl; intros H; [reflexivity|].
  destruct (String.eqb_spec k k') as [->|Hne]; [tauto|].
  rewrite IH by tauto. reflexivity.
Qed.

Lemma scan_media_complete : forall discs a d ms acc,
  NoDup (Dict.keys acc ++ map medium_number_of ms) ->
  List.length acc + List.length ms <= List.length discs ->
  (forall m, In m ms ->
     forallb credited (m_track_list m) = true
     /\ exists files,
          Dict.get (medium_number_of m) discs = Some files
          /\ List.length files = List.length (m_track_list m)) ->
  exists media,
    scan_media discs a d ms acc = Val (Accepted media)
    /\ Dict.keys media = (Dict.keys acc ++ map medium_number_of ms)%list.
Proof.
  intros discs a d. induction ms as [|m rest IH]; intros acc Hnd Hlen Hms.
  - exists acc. simpl. now rewrite app_nil_r.
  - cbn [scan_media]. fold (medium_number_of m).
    destruct (Hms m (or_introl eq_refl)) as (Hc & files & Hget & Hfl).
    destruct (track_entries_total a d _ Hc) as (entries & -> & Hel).
    cbn [res_bind].
    assert (Hnew : ~ In (medium_number_of m) (Dict.keys acc)).
    { intros Hin. apply NoDup_remove_2 in Hnd. apply Hnd.
      apply in_or_app. now left. }
    assert (Hmt0 : media_tracks (medium_number_of m) acc = [])
      by (unfold media_tracks; now rewrite (Dict_get_none _ _ _ Hnew)).
    rewrite Hmt0. cbn [app].
    set (media' := Dict.set (medium_number_of m) entries acc).
    assert (Hset : media' = (acc ++ [(medium_number_of m, entries)])%list)
      by (apply Dict_set_new; assumption).
    assert (Hk : Dict.keys media' = (Dict.keys acc ++ [medium_number_of m])%list)
      by (rewrite Hset; unfold Dict.keys; now rewrite map_app).
    assert (Hl : List.length media' = S (List.length acc))
      by (rewrite Hset, length_app; simpl; lia).
    assert (Hmt : media_tracks (medium_number_of m) media' = entries)
      by (unfold media', media_tracks; now rewrite Dict_get_set_same).
    rewrite Hl, Hmt, Hget, Hel, <- Hfl, Nat.eqb_refl.
    replace (Nat.ltb (List.length discs) (S (List.length acc))) with false
      by (symmetry; apply Nat.ltb_ge; simpl in Hlen; lia).
    cbn [negb].
    destruct (IH media') as (media & Hs & Hkeys).
    + rewrite Hk, <- app_assoc. exact Hnd.
    + rewrite Hl. simpl in *. lia.
    + intros m' Hin. apply Hms. now right.
    + exists media. split; [exact Hs|].
      rewrite Hkeys, Hk, <- app_assoc. reflexivity.
Qed.

(** X17: the validator accepts every release of the right shape: when the discs
    of the release have distinct positions, each of them has a local disc
    with as many files as it has tracks, and no track has an empty
    artist-credit list, the release is accepted (no mismatch, no
    exception) and the media to apply are its discs in release order.
    Local discs the release does not mention do not prevent it. *)
Theorem well_shaped_release_accepted : forall discs r,
  NoDup (map medium_number_of (r_medium_list r)) ->
  (forall m, In m (r_medium_list r) ->
     forallb credited (m_track_list m) = true
     /\ exists files,
          Dict.get (medium_number_of m) discs = Some files
          /\ List.length files = List.length (m_track_list m)) ->
  exists media,
    validate discs r = Val (Accepted media)
    /\ Dict.keys media = map medium_number_of (r_medium_list r).
Proof.
  intros discs r Hnd Hms. unfold validate.
  apply (scan_media_complete discs _ _ (r_medium_list r) []); auto.
  simpl. rewrite <- (length_map medium_number_of).
  rewrite <- (length_map fst discs).
  apply NoDup_incl_length; [assumption|].
  intros k Hk. apply in_map_iff in Hk as (m & <- & Hm).
  destruct (Hms m Hm) as (_ & files & Hget & _).
  eapply Dict_get_in_keys; eassumption.
Qed.

Lemma well_shaped_release_accepted_witness :
  exists media,
    validate [("1", ["a.mp3"]); ("2", ["b.mp3"; "c.mp3"])]
      (Scenario.rel [Scenario.disc "2" [Scenario.trk "1" "x"; Scenario.trk "2" "y"]])
    = Val (Accepted media)
    /\ Dict.keys media = ["2"].
Proof.
  apply (well_shaped_release_accepted
           [("1", ["a.mp3"]); ("2", ["b.mp3"; "c.mp3"])]
           (Scenario.rel [Scenario.disc "2" [Scenario.trk "1" "x"; Scenario.trk "2" "y"]])).
  - repeat constructor. intros [].
  - intros m [<-|[]]. split; [reflexivity|].
    exists ["b.mp3"; "c.mp3"]. split; reflexivity.
Defined.

(* ----------------------------------------------------------------- *)
(** ** The exceptions that end a run *)

Lemma raises_ret : forall A P (a : A), raises P (ret a).
Proof. intros A P a s e ev s' H. inversion H. Qed.

Lemma raises_raise : forall A P e, P e = true -> raises P (@raise A e).
Proof. intros A P e He s e' ev s' H. inversion H; now subst. Qed.

Lemma raises_emit : forall P e, raises P (emit e).
Proof. intros P e s e' ev s' H. inversion H. Qed.

Lemma raises_lift : forall A P (x : res A),
  (forall e, x = Exn e -> P e = true) -> raises P (lift x).
Proof.
  intros A P [a|e] Hx s e' ev s' H; inversion H; subst. now apply Hx.
Qed.

Lemma raises_input : forall P p, P EOFError = true -> raises P (input p).
Proof.
  intros P p HP s e ev s' H. unfold input in H.
  destruct (answers s); inversion H; now subst.
Qed.

Lemma raises_bind : forall A B P (m : M A) (f : A -> M B),
  raises P m -> (forall a, raises P (f a)) -> raises P (bind m f).
Proof.
  intros A B P m f Hm Hf s e ev s' H.
  apply bind_inv in H
    as [(a & ev1 & s1 & ev2 & H1 & H2 & ->)|[(e' & H1 & E)|[_ E]]].
  - eapply Hf; eassumption.
  - inversion E; subst. eapply Hm; eassumption.
  - discriminate E.
Qed.

Lemma raises_with_fuel : forall A P (k : nat -> M A),
  (forall n, raises P (k n)) -> raises P (with_fuel k).
Proof.
  intros A P k Hk s e ev s' H. unfold with_fuel in H. eapply Hk; eassumption.
Qed.

Lemma fetch_full_raises : forall w P release_id,
  raises P (fetch_full_release_details w release_id).
Proof.
  intros w P release_id s e ev s' H.
  apply fetch_full_cases in H as [_ [(rel & E & _)|[E _]]]; discriminate E.
Qed.

Lemma find_album_raises : forall w a b,
  raises escapes (find_album_on_musicbrainz w a b).
Proof.
  intros w a b s e ev s' H.
  unfold find_album_on_musicbrainz, call_search, bind, log, emit, ret, raise
    in H.
  destruct (search_releases w (calls s) a b), b; inversion H; reflexivity.
Qed.

Lemma group_files_raises : forall w P albums file_paths,
  raises P (group_files w albums file_paths).
Proof.
  intros w P albums file_paths s e ev s' H. rewrite group_files_run in H.
  discriminate.
Qed.

Lemma manual_input_raises : forall w, raises escapes (manual_input w).
Proof.
  intros w s e ev s' H.
  destruct (manual_input_bounds _ _ _ _ _ H) as (_ & _ & _ & _ & _ & B).
  now destruct e.
Qed.

Lemma first_artist_name_exn : forall c e,
  first_artist_name c = Exn e -> e = IndexError.
Proof.
  intros [[|[n|] l]|] e H; simpl in H; inversion H; reflexivity.
Qed.

Ltac raises_step :=
  match goal with
  | |- raises _ (bind _ _) => apply raises_bind; [|intros ?]
  | |- raises _ (ret _) => apply raises_ret
  | |- raises _ (log _) => apply raises_emit
  | |- raises _ (emit _) => apply raises_emit
  | |- raises _ (raise _) => apply raises_raise; reflexivity
  | |- raises _ (input _) => apply raises_input; reflexivity
  | |- raises _ (fetch_full_release_details _ _) => apply fetch_full_raises
  | |- raises _ (find_album_on_musicbrainz _ _ _) => apply find_album_raises
  | |- raises _ (manual_input _) => apply manual_input_raises
  | |- raises _ (if ?b then _ else _) => destruct b
  | |- raises _ (match ?x with _ => _ end) => destruct x
  end.

Lemma resolve_candidate_raises : forall w a b m,
  raises escapes (resolve_candidate w a b m).
Proof.
  intros w a b m. unfold resolve_candidate.
  apply raises_bind.
  - apply raises_lift. intros e H. now rewrite (first_artist_name_exn _ _ H).
  - intros ra. destruct (_ && _); [repeat raises_step|].
    apply raises_bind; [|intros c; repeat raises_step].
    apply raises_lift. intros e H. unfold is_close_match in H.
    destruct (c_title m); inversion H. reflexivity.
Qed.

Lemma track_entries_exn : forall a d tracks e,
  res_map (track_entry a d) tracks = Exn e -> e = IndexError.
Proof.
  induction tracks as [|t tracks IH]; simpl; intros e H; [discriminate|].
  unfold track_entry at 1 in H.
  destruct (first_artist_name (t_artist_credit t)) as [n|e'] eqn:E; simpl in H.
  - destruct (res_map (track_entry a d) tracks) as [l|e'']; simpl in H;
      [discriminate|]. inversion H; subst. now apply IH.
  - inversion H; subst. eapply first_artist_name_exn; eassumption.
Qed.

Lemma scan_media_exn : forall discs a d ms acc e,
  scan_media discs a d ms acc = Exn e -> e = IndexError \/ e = KeyError.
Proof.
  intros discs a d. induction ms as [|m rest IH]; intros acc e H;
    [discriminate|].
  cbn [scan_media] in H.
  destruct (res_map (track_entry a d) (m_track_list m)) as [entries|e'] eqn:Er;
    simpl in H.
  - destruct (Nat.ltb _ _); [discriminate|].
    destruct (Dict.get _ discs); [|inversion H; now right].
    destruct (negb _); [discriminate|]. eapply IH; eassumption.
  - inversion H; subst. left. eapply track_entries_exn; eassumption.
Qed.

Lemma validation_loop_raises : forall w discs fuel fd,
  raises escapes (validation_loop w fuel discs fd).
Proof.
  intros w discs. induction fuel as [|fuel IH]; intros fd.
  - intros s e ev s' H. inversion H.
  - cbn [validation_loop]. destruct fd as [r|]; [|apply raises_ret].
    apply raises_bind.
    + apply raises_lift. intros e H. unfold validate in H.
      destruct (scan_media_exn _ _ _ _ _ _ H) as [-> | ->]; reflexivity.
    + intros [media| |mn n k]; repeat raises_step; apply IH.
Qed.

Lemma update_metadata_raises : forall w fs ms,
  raises escapes (update_metadata w fs ms).
Proof.
  intros w fs ms s e ev s' H. unfold update_metadata in H.
  apply bind_inv in H
    as [(l' & ev1 & s1 & ev2 & Hl & H & ->)|[(e' & Hl & E)|[_ E]]].
  - destruct (update_files_run w l' s1) as [ev' R]. rewrite R in H.
    discriminate.
  - inversion E; subst. apply lift_inv in Hl as (_ & _ & Hr).
    destruct (sorted_by_key sort_key (combine fs ms)) as [l|e0] eqn:Es;
      inversion Hr; subst.
    now rewrite (sort_key_sorted_exn _ _ Es).
  - discriminate E.
Qed.

Lemma apply_media_raises : forall w discs media,
  raises escapes (apply_media w discs media).
Proof.
  intros w discs. induction media as [|[mn tm] media IH]; simpl.
  - apply raises_ret.
  - destruct (Dict.get mn discs); [|now apply raises_raise].
    apply raises_bind; [apply update_metadata_raises|intros _; exact IH].
Qed.

Lemma process_album_raises : forall w a discs,
  raises escapes (process_album w a discs).
Proof.
  intros w a discs. unfold process_album.
  apply raises_bind; [apply raises_emit|intros _].
  apply raises_bind.
  - intros s e ev s' H.
    destruct (local_artist_run w a discs s) as (x & ev' & E & _).
    rewrite E in H. discriminate.
  - intros [|artist_name]; [apply raises_ret|].
    apply raises_bind; [apply find_album_raises|].
    intros [|m rest]; [apply raises_ret|].
    intros s e ev s' H. rewrite for_matches_first_turn in H. revert s e ev s' H.
    fold (raises escapes (match_body w discs a artist_name m ;;; ret tt)).
    apply raises_bind; [|intros; apply raises_ret].
    unfold match_body.
    apply raises_bind; [apply resolve_candidate_raises|intros fd].
    apply raises_bind.
    + apply raises_with_fuel. intros n. apply validation_loop_raises.
    + intros [media|]; [|apply raises_ret].
      apply raises_bind; [apply apply_media_raises|intros; apply raises_ret].
Qed.

Lemma process_albums_raises : forall w albums,
  raises escapes (process_albums w albums).
Proof.
  intros w. induction albums as [|[a discs] albums IH]; simpl.
  - apply raises_ret.
  - apply raises_bind; [apply process_album_raises|intros _; exact IH].
Qed.

(** X18: the inventory of the exceptions that can end a run of main, for
    every Input folder, library, catalog and operator.  A run never goes
    on for ever.  When it ends by an exception, either the Input folder
    was missing and could not be created - the exception is the OSError
    of os.makedirs and nothing but the opening prompt and the
    announcement has happened - or the exception is one of EOFError (the
    operator stops answering), IndexError (empty artist-credit list),
    AttributeError (candidate without title), KeyError (release disc
    without local disc), ValueError (track position that int() refuses,
    search without query term) and NetworkError (identifier typed by the
    operator).  A ResponseError, a failure of the tag codec, a failed
    save or rename and UnboundLocalError never leave main. *)
Theorem escaping_exceptions : forall w folder s,
  let '(r, ev, _) := main w folder s in
  match r with
  | Ok _ => True
  | Raised e =>
      escapes e = true
      \/ (e = OSError /\ folder = Missing false
          /\ exists a, ev = [Asked PromptStart a; Logged InfoCreatingFolder])
  | OutOfFuel => False
  end.
Proof.
  intros w folder s. destruct (main w folder s) as [[r ev] s'] eqn:H.
  destruct r as [u|e|]; [exact I| |now apply main_ends in H].
  assert (Hgo : forall walk,
            raises escapes
              (albums <- group_files w [] (gather_all_files walk) ;;
               process_albums w albums ;;; input PromptEnd ;;; ret tt)).
  { intros walk. repeat raises_step; try apply group_files_raises.
    apply process_albums_raises. }
  destruct folder as [walk|[|]].
  - left. revert H. generalize s e ev s'.
    change (raises escapes (main w (Present walk))).
    unfold main. apply raises_bind; [apply raises_input; reflexivity|intros _].
    apply raises_bind; [unfold walk_input; repeat raises_step|exact Hgo].
  - left. revert H. generalize s e ev s'.
    change (raises escapes (main w (Missing true))).
    unfold main. apply raises_bind; [apply raises_input; reflexivity|intros _].
    apply raises_bind; [unfold walk_input; repeat raises_step|exact Hgo].
  - unfold main, walk_input, bind, input, log, emit, raise in H.
    destruct (answers s) as [|a rest]; inversion H; subst.
    + now left.
    + right. split; [reflexivity|]. split; [reflexivity|]. now exists a.
Qed.

(* ----------------------------------------------------------------- *)
(** ** Runs of the earlier properties *)

Lemma accepted_release_shape_witness :
  List.length (disc_positions Scenario.two_tracks)
  <= List.length [("1", ["in/a.mp3"; "in/b.mp3"]); ("2", ["in/c.mp3"])]
  /\ forall mn, In mn (disc_positions Scenario.two_tracks) ->
       exists files,
         Dict.get mn [("1", ["in/a.mp3"; "in/b.mp3"]); ("2", ["in/c.mp3"])]
         = Some files
         /\ track_count Scenario.two_tracks mn = List.length files.
Proof.
  eapply (accepted_release_shape
            [("1", ["in/a.mp3"; "in/b.mp3"]); ("2", ["in/c.mp3"])]
            Scenario.two_tracks).
  reflexivity.
Defined.

Lemma writes_follow_acceptance_witness :
  exists r ev s',
    process_album (Scenario.world_of (Release Scenario.two_tracks)) "Alb"
      [("1", ["in/a.mp3"; "in/b.mp3"])] (Scenario.start []) = (r, ev, s')
    /\ existsb is_write ev = true
    /\ r <> OutOfFuel
    /\ gated (Scenario.world_of (Release Scenario.two_tracks))
         [("1", ["in/a.mp3"; "in/b.mp3"])] ev s'.
Proof.
  eexists. eexists. eexists.
  split; [reflexivity|]. split; [reflexivity|].
  apply (writes_follow_acceptance (Scenario.world_of (Release Scenario.two_tracks))
           "Alb" [("1", ["in/a.mp3"; "in/b.mp3"])] (Scenario.start [])).
  reflexivity.
Defined.

Lemma retry_prompt_only_for_identifiers_witness :
  exists a rest,
    answers (Scenario.start [Catalog.release_id; "n"]) = a :: rest
    /\ is_valid_release_id (Py.strip a) = true.
Proof.
  eapply (retry_prompt_only_for_identifiers Catalog.world_without_match
            (Scenario.start [Catalog.release_id; "n"])).
  - reflexivity.
  - reflexivity.
Defined.
